(** * VisionForge: preprocessing pipeline and explanation engine

    A shallow embedding of [backend/preprocessing.py], [backend/gradcam.py],
    [backend/model.py] and the endpoints of [backend/main.py].

    - NumPy [uint8] images are lists of rows of [Z]; integer arithmetic is
      Python's (floor division, unbounded integers).
    - Floating-point values are rationals; every floating-point operation of
      the source is the exact operation followed by the rounding function of
      its format ([f32] for [np.float32] and TensorFlow tensors, [f64] for
      Python floats and [np.float64]).  The rounding functions are
      parameters; the facts used about them are collected in
      [IEEE_rounding].  A NaN is [None].
    - Calls into OpenCV, PIL, and Keras/TensorFlow are fields of interface
      records ([cv2_api], [keras_model]); each call may raise.  Python
      exceptions are values of [exn], and code runs in the monad [M], which
      also logs the library calls and the [print]s that were executed. *)

From Stdlib Require Import ZArith QArith Qround Qabs Lia Lqa.
From stdpp Require Import base option list strings gmap.

Local Open Scope Z_scope.

(** ** Python results, exceptions and the call log *)

Module Py.

(** An exception: its class name and its message.  Every class raised in
    the modelled code derives from [Exception]. *)
Inductive exn : Type := Exn (cls msg : string).

Definition exn_class (e : exn) : string := let 'Exn c _ := e in c.
Definition exn_msg (e : exn) : string := let 'Exn _ m := e in m.

Inductive result (A : Type) : Type :=
| Ok (a : A)
| Raise (e : exn).
Arguments Ok {A} a.
Arguments Raise {A} e.

(** A computation: the log of what it did (library calls, prints), and how
    it ended. *)
Definition M (A : Type) : Type := list string * result A.

Definition ret {A} (a : A) : M A := ([], Ok a).
Definition raise {A} (e : exn) : M A := ([], Raise e).

Definition bind {A B} (m : M A) (f : A → M B) : M B :=
  match m with
  | (l, Ok a) => let '(l', r) := f a in (l ++ l', r)
  | (l, Raise e) => (l, Raise e)
  end.

(** A library call: logged under its name. *)
Definition call {A} (name : string) (r : result A) : M A := ([name], r).

(** [print(s)] *)
Definition print (s : string) : M unit := ([("print: " +:+ s)%string], Ok tt).

(** [try: body  except Exception as e: handler e] *)
Definition try_except {A} (body : M A) (handler : exn → M A) : M A :=
  match body with
  | (l, Ok a) => (l, Ok a)
  | (l, Raise e) => let '(l', r) := handler e in (l ++ l', r)
  end.

Definition log {A} (m : M A) : list string := fst m.
Definition outcome {A} (m : M A) : result A := snd m.

End Py.
Export Py.

#[global] Instance M_ret : MRet M := @ret.
#[global] Instance M_bind : MBind M := λ A B f m, bind m f.

(** ** Floating point *)

(** What the proofs use of a rounding function: it is monotone, it leaves
    its own results unchanged, and dyadic numbers with a short significand
    are representable.  Round-to-nearest of binary32 and of binary64 both
    satisfy this. *)
Record IEEE_rounding (rnd : Q → Q) : Prop := {
  rnd_mono : ∀ x y : Q, (x <= y)%Q → (rnd x <= rnd y)%Q;
  rnd_idempotent : ∀ x : Q, (rnd (rnd x) == rnd x)%Q;
  rnd_dyadic : ∀ (n : Z) (k : positive),
    Z.abs n <= 2 ^ 24 → (k <= 64)%positive →
    (rnd (n # (2 ^ k)) == n # (2 ^ k))%Q;
  rnd_integer : ∀ n : Z, Z.abs n <= 2 ^ 24 → (rnd (inject_Z n) == inject_Z n)%Q;
}.

(** [int(x)] of a float, and the C cast behind [astype(np.uint8)]: both
    truncate toward zero; the cast keeps the low eight bits. *)
Definition trunc (x : Q) : Z := if Qle_bool 0 x then Qfloor x else Qceiling x.

Definition astype_uint8 (x : Q) : Z := trunc x mod 256.

Definition Qltb (x y : Q) : bool := negb (Qle_bool y x).

(** ** NumPy arrays *)

(** A 2-D [uint8] (or integer label) array: a list of rows. *)
Definition array2 : Type := list (list Z).

(** A 4-D float array, as returned by [preprocess_for_mnist]:
    batch x height x width x channel. *)
Definition tensor4 : Type := list (list (list (list Q))).

Module np.

(** [a.shape] of a 2-D array *)
Definition shape (a : array2) : Z * Z :=
  (Z.of_nat (length a),
   match a with [] => 0 | row :: _ => Z.of_nat (length row) end).

(** [a.size] *)
Definition size (a : array2) : Z :=
  foldr (λ row n, Z.of_nat (length row) + n) 0 a.

(** [np.zeros((h, w), dtype=np.uint8)] *)
Definition zeros (h w : Z) : array2 :=
  replicate (Z.to_nat h) (replicate (Z.to_nat w) 0).

(** [np.zeros_like(a)] *)
Definition zeros_like (a : array2) : array2 := map (map (λ _, 0)) a.

(** [np.zeros((1, 28, 28, 1), dtype=np.float32)] *)
Definition zeros_1_28_28_1 : tensor4 :=
  [replicate 28 (replicate 28 [0%Q])].

(** [np.sum(a > 0)] *)
Definition count_positive (a : array2) : Z :=
  foldr (λ row n, Z.of_nat (length (filter (λ v, 0 < v) row)) + n) 0 a.

(** [l[start:stop]] for [0 <= start] and [0 <= stop] (the only slices
    the source takes): out-of-range bounds are clipped. *)
Definition slice {A} (start stop : Z) (l : list A) : list A :=
  take (Z.to_nat (stop - start)) (drop (Z.to_nat start) l).

(** [a[y0:y1, x0:x1]] *)
Definition slice2 (y0 y1 x0 x1 : Z) (a : array2) : array2 :=
  map (slice x0 x1) (slice y0 y1 a).

(** First index of a largest element ([np.argmax]); [ltb] is the strict
    order of the element type. *)
Fixpoint argmax_from {A} (ltb : A → A → bool)
    (best : A) (best_i i : nat) (l : list A) : nat :=
  match l with
  | [] => best_i
  | x :: l' =>
      if ltb best x then argmax_from ltb x i (S i) l'
      else argmax_from ltb best best_i (S i) l'
  end.

Definition argmax {A} (ltb : A → A → bool) (l : list A) : Z :=
  match l with
  | [] => 0
  | x :: l' => Z.of_nat (argmax_from ltb x 0 1 l')
  end.

(** [np.column_stack(np.where(a > 0))]: the (row, column) positions of
    the positive entries, in row-major order. *)
Definition where_positive (a : array2) : list (Z * Z) :=
  concat (imap (λ y row,
    omap (λ p, p) (imap (λ x v,
      if bool_decide (0 < v) then Some (Z.of_nat y, Z.of_nat x) else None) row)) a).

(** [min] and [max] of a non-empty list of integers *)
Definition minimum (l : list Z) : Z :=
  match l with [] => 0 | x :: l' => foldr Z.min x l' end.
Definition maximum (l : list Z) : Z :=
  match l with [] => 0 | x :: l' => foldr Z.max x l' end.

(** [a.max()]: raises [ValueError] on an array without elements. *)
Definition max (a : array2) : result Z :=
  match concat a with
  | [] => Raise (Exn "ValueError"
            "zero-size array to reduction operation maximum which has no identity")
  | x :: l => Ok (foldr Z.max x l)
  end.

(** [np.expand_dims(np.expand_dims(a, axis=0), axis=-1)] *)
Definition expand_dims_0_last (a : list (list Q)) : tensor4 :=
  [map (map (λ v, [v])) a].

(** The shape of a 4-D array whose sub-arrays all have the same shape. *)
Definition has_shape4 (n h w c : nat) (t : tensor4) : Prop :=
  length t = n ∧
  Forall (λ plane, length plane = h ∧
    Forall (λ row, length row = w ∧
      Forall (λ cell, length cell = c) row) plane) t.

(** All the entries of a 4-D array. *)
Definition entries4 (t : tensor4) : list Q := concat (concat (concat t)).

End np.

(** [h x w] array of [uint8] values *)
Definition is_uint8_image (h w : nat) (a : array2) : Prop :=
  length a = h ∧
  Forall (λ row, length row = w ∧ Forall (λ v, 0 <= v <= 255) row) a.

(** Two arrays have the same shape (row by row). *)
Definition same_shape (a b : array2) : bool :=
  bool_decide (length <$> a = length <$> b).

(** ** The libraries the code calls *)

(** A PIL image: either of mode ['L'] (one 8-bit band, whose pixel array
    [np.array(image)] is [px]), or of another mode. *)
Inductive pil_image : Type :=
| ImageL (px : array2)
| ImageMode (mode : string) (raw : list (list (list Z))).

Inductive threshold_type := THRESH_BINARY | THRESH_BINARY_OTSU.
Inductive adaptive_method := ADAPTIVE_THRESH_MEAN_C | ADAPTIVE_THRESH_GAUSSIAN_C.
Inductive morph_shape := MORPH_RECT | MORPH_CROSS | MORPH_ELLIPSE.
Inductive morph_op := MORPH_ERODE | MORPH_DILATE | MORPH_OPEN | MORPH_CLOSE.
Inductive interpolation := INTER_NEAREST | INTER_LINEAR | INTER_CUBIC | INTER_AREA.
Inductive border_mode := BORDER_CONSTANT | BORDER_REPLICATE | BORDER_REFLECT_101.

(** One row of the statistics of [cv2.connectedComponentsWithStats]
    (columns [CC_STAT_LEFT] .. [CC_STAT_AREA]). *)
Record cc_stat : Type := {
  CC_STAT_LEFT : Z; CC_STAT_TOP : Z; CC_STAT_WIDTH : Z; CC_STAT_HEIGHT : Z;
  CC_STAT_AREA : Z;
}.

(** The OpenCV and PIL entry points used by the pipeline.  Arguments are
    those of the Python call, in its order. *)
Record cv2_api : Type := {
  (** [np.array(image.convert('L'))] *)
  Image_convert_L : string → list (list (list Z)) → result array2;
  (** [cv2.createCLAHE(clipLimit, tileGridSize).apply(src)] *)
  CLAHE_apply : Q → Z * Z → array2 → result array2;
  (** [cv2.threshold(src, thresh, maxval, type)]: the destination array *)
  threshold : array2 → Z → Z → threshold_type → result array2;
  (** [cv2.adaptiveThreshold(src, maxValue, method, type, blockSize, C)] *)
  adaptiveThreshold :
    array2 → Z → adaptive_method → threshold_type → Z → Z → result array2;
  (** [cv2.connectedComponentsWithStats(src, connectivity=n)]:
      [num_labels], [labels], [stats] *)
  connectedComponentsWithStats :
    array2 → Z → result (Z * array2 * list cc_stat);
  (** [cv2.getStructuringElement(shape, ksize)] *)
  getStructuringElement : morph_shape → Z * Z → result array2;
  (** [cv2.morphologyEx(src, op, kernel)] *)
  morphologyEx : array2 → morph_op → array2 → result array2;
  (** [cv2.resize(src, dsize, interpolation=i)] *)
  resize : array2 → Z * Z → interpolation → result array2;
  (** [cv2.warpAffine(src, M, dsize, borderMode=b, borderValue=v)] *)
  warpAffine :
    array2 → list (list Q) → Z * Z → border_mode → Z → result array2;
  (** [cv2.GaussianBlur(src, ksize, sigmaX)] *)
  GaussianBlur : array2 → Z * Z → Q → result array2;
}.

(** ** [backend/preprocessing.py] *)

Section Preprocessing.

Variable cv : cv2_api.
(** rounding to [np.float32] and to Python's [float] *)
Variables f32 f64 : Q → Q.

(** [cv2.calcHist([a], [0], None, [256], [0, 256]).flatten()]: for each of
    the 256 intensities, the number of pixels that have it, as a
    [float32]. *)
Definition calcHist (a : array2) : list Q :=
  map (λ v, f32 (inject_Z (Z.of_nat (length (filter (λ p, p = v) (concat a))))))
      (seqZ 0 256).

(** [cv2.countNonZero(a)] *)
Definition countNonZero (a : array2) : Z :=
  Z.of_nat (length (filter (λ p, p ≠ 0) (concat a))).

(** [255 - a] *)
Definition invert (a : array2) : array2 := map (map (λ p, 255 - p)) a.

Definition remove_small_components (binary_img : array2) : M array2 :=
  '(num_labels, labels, stats) ←
     call "cv2.connectedComponentsWithStats"
          (connectedComponentsWithStats cv binary_img 8);
  if bool_decide (num_labels <= 1) then mret binary_img
  else
    let areas := CC_STAT_AREA <$> drop 1 stats in
    if bool_decide (length areas = 0%nat) then mret binary_img
    else
      let largest_label := 1 + np.argmax Z.ltb areas in
      (* result = np.zeros_like(binary_img); result[labels == largest_label] = 255 *)
      if same_shape labels binary_img then
        mret (zip_with (zip_with (λ l r, if bool_decide (l = largest_label) then 255 else r))
                       labels (np.zeros_like binary_img))
      else raise (Exn "IndexError"
                      "boolean index did not match indexed array").

Definition enhance_contrast (gray_img : array2) : M array2 :=
  call "cv2.createCLAHE.apply" (CLAHE_apply cv 2 (4, 4) gray_img).

(** [np.sum(otsu > 0) / otsu.size]: NaN for an array without elements *)
Definition white_ratio (otsu : array2) : option Q :=
  if bool_decide (np.size otsu = 0) then None
  else Some (f64 (inject_Z (np.count_positive otsu) / inject_Z (np.size otsu))).

(** A comparison with a NaN is false. *)
Definition float_lt (x y : option Q) : bool :=
  match x, y with
  | Some a, Some b => Qltb a b
  | _, _ => false
  end.

(** The literals [0.01] and [0.9] *)
Definition lit_0_01 : Q := f64 (1 # 100).
Definition lit_0_9 : Q := f64 (9 # 10).

Definition adaptive_threshold (gray_img : array2) : M array2 :=
  otsu ← call "cv2.threshold" (threshold cv gray_img 0 255 THRESH_BINARY_OTSU);
  let white_ratio := white_ratio otsu in
  if float_lt white_ratio (Some lit_0_01) || float_lt (Some lit_0_9) white_ratio
  then
    call "cv2.adaptiveThreshold"
      (adaptiveThreshold cv gray_img 255 ADAPTIVE_THRESH_GAUSSIAN_C THRESH_BINARY 11 2)
  else mret otsu.

(** [ndimage.center_of_mass(a)] along one axis: the weighted sum of the
    indices over the sum of the weights; NaN when the weights sum to 0.
    Both sums are integers far below [2^53], so only the division rounds. *)
Definition total (l : list Z) : Z := foldr Z.add 0 l.
Definition first_moment (l : list Z) : Z :=
  total (imap (λ i v, Z.of_nat i * v) l).

Definition mass (a : array2) : Z := total (concat a).
Definition moment_y (a : array2) : Z := first_moment (total <$> a).
Definition moment_x (a : array2) : Z := total (first_moment <$> a).

Definition center_of_mass (a : array2) : option Q * option Q :=
  if bool_decide (mass a = 0) then (None, None)
  else (Some (f64 (inject_Z (moment_y a) / inject_Z (mass a))),
        Some (f64 (inject_Z (moment_x a) / inject_Z (mass a)))).

(** [np.float32([[1, 0, shift_x], [0, 1, shift_y]])] *)
Definition translation_matrix (shift_x shift_y : Z) : list (list Q) :=
  [ [f32 1; f32 0; f32 (inject_Z shift_x)];
    [f32 0; f32 1; f32 (inject_Z shift_y)] ].

Definition center_digit_by_mass (img_28x28 : array2) : M array2 :=
  match center_of_mass img_28x28 with
  | (Some cy, Some cx) =>
      let shift_x := trunc (f64 ((27 # 2) - cx)) in
      let shift_y := trunc (f64 ((27 # 2) - cy)) in
      let M := translation_matrix shift_x shift_y in
      call "cv2.warpAffine" (warpAffine cv img_28x28 M (28, 28) BORDER_CONSTANT 0)
  | _ => mret img_28x28
  end.

(** A pure value or exception, as a computation that calls nothing. *)
Definition lift {A} (r : result A) : M A := ([], r).

(** [a / b] on Python integers *)
Definition int_truediv (a b : Z) : result Q :=
  if bool_decide (b = 0) then Raise (Exn "ZeroDivisionError" "division by zero")
  else Ok (f64 (inject_Z a / inject_Z b)).

(** [a / x] for a Python integer [a] and a float [x] *)
Definition float_truediv (a : Z) (x : Q) : result Q :=
  if Qeq_bool x 0 then Raise (Exn "ZeroDivisionError" "float division by zero")
  else Ok (f64 (inject_Z a / x)).

(** Step 8 of [preprocess_for_mnist]: the dimensions [(new_h, new_w)] the
    digit region is resized to. *)
Definition resized_dimensions (digit_h digit_w : Z) : result (Z * Z) :=
  let target_size := 20 in
  match int_truediv digit_w digit_h with
  | Raise e => Raise e
  | Ok aspect_ratio =>
      if bool_decide (digit_h > digit_w) then
        let new_h := target_size in
        let new_w := Z.max 1 (trunc (f64 (inject_Z target_size * aspect_ratio))) in
        Ok (new_h, new_w)
      else
        match float_truediv target_size aspect_ratio with
        | Raise e => Raise e
        | Ok q =>
            let new_w := target_size in
            let new_h := Z.max 1 (trunc q) in
            Ok (new_h, new_w)
        end
  end.

(** Step 9: where the resized digit goes on the 28x28 canvas:
    [(y_offset, x_offset, copy_h, copy_w)]. *)
Definition canvas_placement (new_h new_w : Z) : Z * Z * Z * Z :=
  let y_offset := (28 - new_h) `div` 2 in
  let x_offset := (28 - new_w) `div` 2 in
  let y_offset := Z.max 0 y_offset in
  let x_offset := Z.max 0 x_offset in
  let copy_h := Z.min new_h (28 - y_offset) in
  let copy_w := Z.min new_w (28 - x_offset) in
  (y_offset, x_offset, copy_h, copy_w).

(** [canvas[y0:y0+h, x0:x0+w] = src].  NumPy raises [ValueError] when the
    shapes differ (it would broadcast a source with a single row or column;
    that case does not arise here and is not modelled). *)
Definition assign_block (canvas : array2) (y0 x0 h w : Z) (src : array2)
    : result array2 :=
  if same_shape (np.slice2 y0 (y0 + h) x0 (x0 + w) canvas) src then
    Ok (take (Z.to_nat y0) canvas
        ++ zip_with (λ crow srow,
             take (Z.to_nat x0) crow ++ srow ++ drop (Z.to_nat (x0 + w)) crow)
             (np.slice y0 (y0 + h) canvas) src
        ++ drop (Z.to_nat (y0 + h)) canvas)
  else Raise (Exn "ValueError" "could not broadcast input array").

(** Step 12: [(canvas.astype(np.float32) / canvas.max() * 255).astype(np.uint8)] *)
Definition renormalize (canvas_max : Z) (canvas : array2) : array2 :=
  map (map (λ v,
    astype_uint8 (f32 (f32 (inject_Z v / inject_Z canvas_max) * 255)))) canvas.

(** Step 13: [canvas.astype(np.float32) / 255.0] *)
Definition scale_to_unit (canvas : array2) : list (list Q) :=
  map (map (λ v, f32 (inject_Z v / 255))) canvas.

(** Steps 1-5 of the [try] block: the grayscale array (after the polarity
    correction) and the binary mask that survives noise suppression. *)
Definition foreground_mask (image : pil_image) : M (array2 * array2) :=
  (* Step 1 *)
  img_array ← match image with
               | ImageL px => mret px
               | ImageMode mode raw =>
                   call "Image.convert" (Image_convert_L cv mode raw)
               end;
  (* Step 2 *)
  let hist := calcHist img_array in
  let background_val := np.argmax Qltb hist in
  let img_array :=
    if bool_decide (background_val > 127) then invert img_array else img_array in
  (* Steps 3-5 *)
  img_enhanced ← enhance_contrast img_array;
  binary ← adaptive_threshold img_enhanced;
  binary ← remove_small_components binary;
  mret (img_array, binary).

(** Steps 6-13: from the mask to the network input. *)
Definition canonical_tensor (img_array binary : array2) : M tensor4 :=
  (* Step 6 *)
  kernel_close ← call "cv2.getStructuringElement"
                      (getStructuringElement cv MORPH_ELLIPSE (2, 2));
  binary ← call "cv2.morphologyEx" (morphologyEx cv binary MORPH_CLOSE kernel_close);
  (* Step 7 *)
  let coords := np.where_positive binary in
  if bool_decide (length coords = 0%nat) then mret np.zeros_1_28_28_1
  else
    let y_min := np.minimum (fst <$> coords) in
    let x_min := np.minimum (snd <$> coords) in
    let y_max := np.maximum (fst <$> coords) in
    let x_max := np.maximum (snd <$> coords) in
    let padding := 2 in
    let '(h, w) := np.shape img_array in
    let y_min := Z.max 0 (y_min - padding) in
    let x_min := Z.max 0 (x_min - padding) in
    let y_max := Z.min (h - 1) (y_max + padding) in
    let x_max := Z.min (w - 1) (x_max + padding) in
    let digit := np.slice2 y_min (y_max + 1) x_min (x_max + 1) binary in
    (* Step 8 *)
    let '(digit_h, digit_w) := np.shape digit in
    '(new_h, new_w) ← lift (resized_dimensions digit_h digit_w);
    let interpolation :=
      if bool_decide (digit_h > new_h) || bool_decide (digit_w > new_w)
      then INTER_AREA else INTER_CUBIC in
    digit_resized ← call "cv2.resize" (resize cv digit (new_w, new_h) interpolation);
    (* Step 9 *)
    let canvas := np.zeros 28 28 in
    let '(y_offset, x_offset, copy_h, copy_w) := canvas_placement new_h new_w in
    canvas ← lift (assign_block canvas y_offset x_offset copy_h copy_w
                     (np.slice2 0 copy_h 0 copy_w digit_resized));
    (* Step 10 *)
    canvas ← center_digit_by_mass canvas;
    (* Step 11 *)
    canvas ← call "cv2.GaussianBlur" (GaussianBlur cv canvas (3, 3) (1 # 2));
    (* Step 12 *)
    canvas_max ← lift (np.max canvas);
    let canvas :=
      if bool_decide (canvas_max > 0) then renormalize canvas_max canvas
      else canvas in
    (* Step 13 *)
    let img_normalized := scale_to_unit canvas in
    let img_final := np.expand_dims_0_last img_normalized in
    mret img_final.

(** The body of the [try] block. *)
Definition preprocess_try (image : pil_image) : M tensor4 :=
  '(img_array, binary) ← foreground_mask image;
  (* Check if we have any content *)
  if bool_decide (countNonZero binary < 10) then mret np.zeros_1_28_28_1
  else canonical_tensor img_array binary.

Definition preprocess_for_mnist (image : pil_image) : M tensor4 :=
  try_except (preprocess_try image)
    (λ e, _ ← print ("Preprocessing error: " +:+ exn_msg e);
          mret np.zeros_1_28_28_1).

End Preprocessing.

(** ** Tensors of any rank, and the TensorFlow operations used *)

#[warnings="-register-all"]
Inductive ndarray : Type :=
| Scalar (x : Q)
| Array (xs : list ndarray).

Module tf.

Fixpoint shape (t : ndarray) : list nat :=
  match t with
  | Scalar _ => []
  | Array xs => length xs :: match xs with [] => [] | x :: _ => shape x end
  end.

Fixpoint entries (t : ndarray) : list Q :=
  match t with
  | Scalar x => [x]
  | Array xs => concat (map entries xs)
  end.

Fixpoint map_entries (f : Q → Q) (t : ndarray) : ndarray :=
  match t with
  | Scalar x => Scalar (f x)
  | Array xs => Array (map (map_entries f) xs)
  end.

(** [tf.squeeze(t)]: every axis of length 1 is removed. *)
Fixpoint squeeze (t : ndarray) : ndarray :=
  match t with
  | Scalar x => Scalar x
  | Array [x] => squeeze x
  | Array xs => Array (map squeeze xs)
  end.

Definition of_vector (v : list Q) : ndarray := Array (Scalar <$> v).
Definition of_matrix (m : list (list Q)) : ndarray := Array (of_vector <$> m).
Definition of_tensor3 (t : list (list (list Q))) : ndarray := Array (of_matrix <$> t).
Definition of_tensor4 (t : tensor4) : ndarray := Array (of_tensor3 <$> t).

Definition to_scalar (t : ndarray) : option Q :=
  match t with Scalar x => Some x | Array _ => None end.
Definition to_vector (t : ndarray) : option (list Q) :=
  match t with Scalar _ => None | Array xs => mapM to_scalar xs end.
Definition to_matrix (t : ndarray) : option (list (list Q)) :=
  match t with Scalar _ => None | Array xs => mapM to_vector xs end.
Definition to_tensor3 (t : ndarray) : option (list (list (list Q))) :=
  match t with Scalar _ => None | Array xs => mapM to_matrix xs end.
Definition to_tensor4 (t : ndarray) : option tensor4 :=
  match t with Scalar _ => None | Array xs => mapM to_tensor3 xs end.

(** [t[:, i]] on a tensor whose second axis has length [n]: the position
    read.  A negative index counts from the end; an index outside
    [-n .. n-1] is an error. *)
Definition strided_index (n i : Z) : result Z :=
  if bool_decide (0 <= i < n) then Ok i
  else if bool_decide (- n <= i < 0) then Ok (n + i)
  else Raise (Exn "InvalidArgumentError" "slice index out of bounds").

End tf.

(** ** Keras models *)

(** A symbolic tensor of a model graph ([layer.output], [model.output]). *)
Definition KerasTensor : Type := nat.

Record keras_model : Type := {
  (** [model.layers]: each layer's name and its [.output] *)
  layers : list (string * KerasTensor);
  (** [model.output] *)
  model_output : KerasTensor;
  (** One forward pass on an input: the value of every symbolic tensor. *)
  forward : tensor4 → result (KerasTensor → ndarray);
  (** [tape.gradient(predictions[:, class_idx], source)] for the forward pass
      on an input. *)
  gradient : KerasTensor → Z → tensor4 → result ndarray;
}.

(** [model.get_layer(name).output]: the first layer of that name;
    [ValueError] when there is none. *)
Definition get_layer_output (model : keras_model) (name : string)
    : result KerasTensor :=
  match list_find (λ l, l.1 = name) (layers model) with
  | Some (_, l) => Ok l.2
  | None => Raise (Exn "ValueError" ("No such layer: " +:+ name))
  end.

(** ** [backend/model.py] *)

(** [try: body  except cls: handler] *)
Definition try_except_class {A} (cls : string) (body handler : M A) : M A :=
  match body with
  | (l, Raise e) =>
      if bool_decide (exn_class e = cls) then let '(l', r) := handler in (l ++ l', r)
      else (l, Raise e)
  | other => other
  end.

(** [d[k]] on a Python dict *)
Definition dict_getitem {V} (d : gmap string V) (k : string) : result V :=
  match d !! k with
  | Some v => Ok v
  | None => Raise (Exn "KeyError" k)
  end.

(** A functional model with a dict of named outputs
    ([Model(inputs=base_model.input, outputs=layer_outputs)]). *)
Record feature_model : Type := {
  base : keras_model;
  outputs : gmap string KerasTensor;
}.

Definition create_feature_extraction_model (base_model : keras_model)
    : M feature_model :=
  conv3_output ←
    try_except_class "ValueError"
      (lift (get_layer_output base_model "conv3"))
      (lift (get_layer_output base_model "conv2"));
  conv1 ← lift (get_layer_output base_model "conv1");
  conv2 ← lift (get_layer_output base_model "conv2");
  dense1 ← lift (get_layer_output base_model "dense1");
  predictions ← lift (get_layer_output base_model "predictions");
  let layer_outputs : gmap string KerasTensor :=
    list_to_map [ ("conv1", conv1); ("conv2", conv2); ("conv3", conv3_output);
                  ("dense1", dense1); ("predictions", predictions) ] in
  mret {| base := base_model; outputs := layer_outputs |}.

(** [feature_model.predict(input_image, verbose=0)] *)
Definition predict (fm : feature_model) (input_image : tensor4)
    : M (gmap string ndarray) :=
  values ← call "Model.predict" (forward (base fm) input_image);
  mret (values <$> outputs fm).

Definition get_layer_activations (fm : feature_model) (input_image : tensor4)
    : M (gmap string ndarray) :=
  outputs ← predict fm input_image;
  conv1 ← lift (dict_getitem outputs "conv1");
  conv2 ← lift (dict_getitem outputs "conv2");
  (* outputs.get('conv3', outputs['conv2']): the default is evaluated first *)
  fallback ← lift (dict_getitem outputs "conv2");
  let conv3 := default fallback (outputs !! "conv3") in
  dense1 ← lift (dict_getitem outputs "dense1");
  predictions ← lift (dict_getitem outputs "predictions");
  mret (list_to_map [ ("conv1", conv1); ("conv2", conv2); ("conv3", conv3);
                      ("dense1", dense1); ("predictions", predictions) ]).

(** ** [backend/gradcam.py] *)

(** A colour image: rows of pixels of three channels. *)
Definition color_image : Type := list (list (list Z)).

Inductive colormap := COLORMAP_JET | COLORMAP_OTHER (code : Z).

(** The OpenCV entry points used to draw the overlay. *)
Record cv2_overlay_api : Type := {
  (** [cv2.resize(heatmap, dsize)] of a float array *)
  resize_float : ndarray → Z * Z → result (list (list Q));
  applyColorMap : array2 → colormap → result color_image;
  cvtColor_GRAY2BGR : array2 → result color_image;
  addWeighted : color_image → Q → color_image → Q → Q → result color_image;
}.

Record GradCAM : Type := {
  model : keras_model;
  layer_name : string;
  (** the outputs of [grad_model]: the layer's output and the model's *)
  grad_model : KerasTensor * KerasTensor;
}.

Definition GradCAM_init (model : keras_model) (layer_name : string) : M GradCAM :=
  layer_output ← lift (get_layer_output model layer_name);
  mret {| model := model; layer_name := layer_name;
          grad_model := (layer_output, model_output model) |}.

Section GradCAM.

Variable ov : cv2_overlay_api.
Variables f32 f64 : Q → Q.

(** [float32] arithmetic *)
Definition fadd (x y : Q) : Q := f32 (x + y).
Definition fmul (x y : Q) : Q := f32 (x * y).
Definition fdiv (x y : Q) : Q := f32 (x / y).

(** A float32 sum, accumulated from the left.  (TensorFlow does not fix the
    order of its reductions; no result below depends on it.) *)
Definition fsum (l : list Q) : Q := foldl fadd 0%Q l.

(** [keras.backend.epsilon()], at its default *)
Definition epsilon : Q := 1 # 10000000.

Definition qmax (x y : Q) : Q := if Qle_bool x y then y else x.

(** [tf.reduce_max] over all entries.  (On a tensor without entries
    TensorFlow returns the lowest float; the value is then never used.) *)
Definition reduce_max (l : list Q) : Q :=
  match l with [] => 0%Q | x :: l' => foldl qmax x l' end.

(** [tf.reduce_mean(grads, axis=(0, 1, 2))]: one mean per channel *)
Definition reduce_mean_012 (grads : tensor4) : list Q :=
  let cells := concat (concat grads) in
  let channels := match cells with [] => 0%nat | c :: _ => length c end in
  map (λ k, fdiv (fsum (map (λ cell, default 0%Q (cell !! k)) cells))
                 (inject_Z (Z.of_nat (length cells))))
      (seq 0 channels).

(** [conv_output @ pooled_grads[..., tf.newaxis]]: at every position the
    channels weighted by [pooled_grads] and summed; an error when the
    channel counts differ. *)
Definition matmul_channels (conv_output : list (list (list Q))) (pooled_grads : list Q)
    : result (list (list (list Q))) :=
  if forallb (forallb (λ cell, bool_decide (length cell = length pooled_grads)))
             conv_output
  then Ok (map (map (λ cell, [fsum (zip_with fmul cell pooled_grads)])) conv_output)
  else Raise (Exn "InvalidArgumentError" "Matrix size-incompatible").

(** A rank check that TensorFlow makes inside the operation. *)
Definition expect_rank {A} (what : string) (o : option A) : result A :=
  match o with
  | Some a => Ok a
  | None => Raise (Exn "InvalidArgumentError" ("unexpected rank: " +:+ what))
  end.

(** [t[0]] *)
Definition index0 {A} (t : list A) : result A :=
  match t with
  | a :: _ => Ok a
  | [] => Raise (Exn "InvalidArgumentError" "slice index 0 of dimension 0 out of bounds")
  end.

Definition generate_heatmap (self : GradCAM) (input_image : tensor4)
    (class_idx : option Z) : M ndarray :=
  values ← call "grad_model" (forward (model self) input_image);
  let conv_output := values (grad_model self).1 in
  let predictions := values (grad_model self).2 in
  predictions ← lift (expect_rank "predictions" (tf.to_matrix predictions));
  class_idx ← match class_idx with
              | None => row ← lift (index0 predictions); mret (np.argmax Qltb row)
              | Some i => mret i
              end;
  (* class_score = predictions[:, class_idx] *)
  let num_classes := match predictions with [] => 0 | row :: _ => Z.of_nat (length row) end in
  _ ← lift (tf.strided_index num_classes class_idx);
  grads ← call "tape.gradient"
            (gradient (model self) (grad_model self).1 class_idx input_image);
  grads ← lift (expect_rank "grads" (tf.to_tensor4 grads));
  let pooled_grads := reduce_mean_012 grads in
  conv_output ← lift (expect_rank "conv_output" (tf.to_tensor4 conv_output));
  conv_output ← lift (index0 conv_output);
  heatmap ← lift (matmul_channels conv_output pooled_grads);
  let heatmap := tf.squeeze (tf.of_tensor3 heatmap) in
  let heatmap := tf.map_entries (λ x, qmax x 0) heatmap in
  let denominator := fadd (reduce_max (tf.entries heatmap)) (f32 epsilon) in
  let heatmap := tf.map_entries (λ x, fdiv x denominator) heatmap in
  mret heatmap.

Definition generate_overlay (self : GradCAM) (input_image : tensor4)
    (heatmap : ndarray) (alpha : Q) (colormap : colormap) : M color_image :=
  (* img = input_image[0, :, :, 0] *)
  plane ← lift (index0 input_image);
  img ← lift (expect_rank "input_image"
                (mapM (mapM (λ cell : list Q, cell !! 0%nat)) plane));
  let img : array2 := map (map (λ v, astype_uint8 (fmul v 255))) img in
  let '(h, w) := np.shape img in
  heatmap_resized ← call "cv2.resize" (resize_float ov heatmap (w, h));
  heatmap_colored ←
    call "cv2.applyColorMap"
         (applyColorMap ov (map (map (λ v, astype_uint8 (fmul v 255))) heatmap_resized)
                        colormap);
  img_bgr ← call "cv2.cvtColor" (cvtColor_GRAY2BGR ov img);
  call "cv2.addWeighted"
       (addWeighted ov img_bgr (f64 (1 - alpha)) heatmap_colored alpha 0).

Definition generate_gradcam_explanation (model : keras_model)
    (input_image : tensor4) (class_idx : option Z) (layer_name : string)
    : M (ndarray * color_image) :=
  gradcam ← GradCAM_init model layer_name;
  heatmap ← generate_heatmap gradcam input_image class_idx;
  overlay ← generate_overlay gradcam input_image heatmap (f64 (4 # 10)) COLORMAP_JET;
  mret (heatmap, overlay).

End GradCAM.

(** ** Translation of an image *)

(** A list moved by [s] positions toward higher indices ([s < 0]: toward
    lower ones); what leaves the list is dropped, what enters is [zero]. *)
Definition shift {A} (zero : A) (s : Z) (l : list A) : list A :=
  if bool_decide (0 <= s) then
    replicate (Z.to_nat s `min` length l) zero ++ take (length l - Z.to_nat s) l
  else
    drop (Z.to_nat (- s)) l ++ replicate (Z.to_nat (- s) `min` length l) zero.

(** The image moved by [shift_x] columns and [shift_y] rows, with zeros
    entering at the border: what [cv2.warpAffine] computes for the matrix
    [[1, 0, shift_x], [0, 1, shift_y]], an output of the size of the input,
    and [borderMode=cv2.BORDER_CONSTANT, borderValue=0]. *)
Definition translate (shift_x shift_y : Z) (src : array2) : array2 :=
  shift (replicate (length (default [] (head src))) 0) shift_y
        (map (shift 0 shift_x) src).

(** The exact centroid of an image (no rounding); [None] without mass. *)
Definition centroid (a : array2) : option (Q * Q) :=
  if bool_decide (mass a = 0) then None
  else Some (inject_Z (moment_y a) / inject_Z (mass a),
             inject_Z (moment_x a) / inject_Z (mass a))%Q.

(** The image plane [t[0, :, :, 0]] of a network input, in 1/255 units
    (the centroid does not depend on the unit). *)
Definition plane_of (t : tensor4) : list (list Q) :=
  map (map (λ cell : list Q, default 0%Q (head cell))) (default [] (head t)).

Definition qsum (l : list Q) : Q := foldr Qplus 0%Q l.

(** The intensity-weighted centroid of a network input; [None] when the
    plane is identically zero. *)
Definition tensor_centroid (t : tensor4) : option (Q * Q) :=
  let p := plane_of t in
  let m := qsum (concat p) in
  if Qeq_bool m 0 then None
  else Some (qsum (imap (λ y row, inject_Z (Z.of_nat y) * qsum row) p) / m,
             qsum (map (λ row, qsum (imap (λ x v, inject_Z (Z.of_nat x) * v) row)) p) / m)%Q.

(** A centroid lies within one pixel of (13.5, 13.5). *)
Definition near_center (c : option (Q * Q)) : Prop :=
  match c with
  | Some (cy, cx) =>
      (Qabs (cy - (27 # 2)) <= 1 ∧ Qabs (cx - (27 # 2)) <= 1)%Q
  | None => False
  end.

(** ** A reference instance of the library interfaces

    Small executable stand-ins for the OpenCV and PIL operations, used to
    run the pipeline on concrete images.  They follow the documented
    behaviour of each operation in its simplest form (exact arithmetic, box
    mean instead of Gaussian mean, nearest-neighbour resize, no contrast
    change); the theorems below do not depend on them, only their concrete
    instances do. *)

Module Reference.

(** Exact arithmetic as a rounding function. *)
Definition exact (x : Q) : Q := Qred x.

(** [cv::saturate_cast<uchar>] *)
Definition saturate (v : Z) : Z := Z.max 0 (Z.min 255 v).

Definition height (a : array2) : Z := Z.of_nat (length a).
Definition width (a : array2) : Z := Z.of_nat (length (default [] (head a))).

(** [a[y][x]], when inside the image *)
Definition pixel (a : array2) (y x : Z) : option Z :=
  if bool_decide (0 <= y ∧ 0 <= x) then
    row ← a !! Z.to_nat y; row !! Z.to_nat x
  else None.

(** [a[y][x]] with the border replicated *)
Definition pixel_replicate (a : array2) (y x : Z) : Z :=
  let cy := Z.max 0 (Z.min (height a - 1) y) in
  let cx := Z.max 0 (Z.min (width a - 1) x) in
  default 0 (pixel a cy cx).

(** [a[y][x]] with the border reflected ([BORDER_REFLECT_101]) *)
Definition reflect (n i : Z) : Z :=
  if bool_decide (i < 0) then Z.min (n - 1) (- i)
  else if bool_decide (n <= i) then Z.max 0 (2 * n - 2 - i)
  else i.
Definition pixel_reflect (a : array2) (y x : Z) : Z :=
  default 0 (pixel a (reflect (height a) y) (reflect (width a) x)).

(** PIL's luma transform of an RGB pixel *)
Definition luma (px : list Z) : option Z :=
  match px with
  | [r; g; b] | [r; g; b; _] =>
      Some (saturate ((r * 19595 + g * 38470 + b * 7471 + 32768) `div` 65536))
  | _ => None
  end.

Definition Image_convert_L (mode : string) (raw : list (list (list Z)))
    : result array2 :=
  match mapM (mapM luma) raw with
  | Some a => Ok a
  | None => Raise (Exn "ValueError" "conversion not supported")
  end.

Definition CLAHE_apply (clipLimit : Q) (tileGridSize : Z * Z) (src : array2)
    : result array2 :=
  Ok (map (map saturate) src).

(** Otsu's level: the first level that maximises the between-class
    variance [(s1*n2 - s2*n1)^2 / (n1*n2)], up to the constant factor
    [1/n^2]. *)
Definition otsu_score (px : list Z) (t : Z) : Q :=
  let lo := filter (λ p, p <= t) px in
  let hi := filter (λ p, t < p) px in
  let n1 := Z.of_nat (length lo) in
  let n2 := Z.of_nat (length hi) in
  let s1 := foldr Z.add 0 lo in
  let s2 := foldr Z.add 0 hi in
  if bool_decide (n1 = 0 ∨ n2 = 0) then 0%Q
  else Qred (Qmake ((s1 * n2 - s2 * n1) ^ 2) (Z.to_pos (n1 * n2))).

Definition otsu_level (src : array2) : Z :=
  np.argmax Qltb (map (otsu_score (concat src)) (seqZ 0 256)).

Definition threshold (src : array2) (thresh maxval : Z) (type : threshold_type)
    : result array2 :=
  let level := match type with
               | THRESH_BINARY => thresh
               | THRESH_BINARY_OTSU => otsu_level src
               end in
  Ok (map (map (λ p, if bool_decide (p > level) then saturate maxval else 0)) src).

(** The mean of the [blockSize x blockSize] neighbourhood, rounded. *)
Definition local_mean (src : array2) (blockSize : Z) (y x : Z) : Z :=
  let r := blockSize `div` 2 in
  let offsets := seqZ (- r) blockSize in
  let total := foldr Z.add 0
    (dy ← offsets; dx ← offsets; [pixel_replicate src (y + dy) (x + dx)]) in
  (2 * total + blockSize * blockSize) `div` (2 * blockSize * blockSize).

Definition adaptiveThreshold (src : array2) (maxValue : Z)
    (method : adaptive_method) (type : threshold_type) (blockSize C : Z)
    : result array2 :=
  if bool_decide (blockSize `mod` 2 = 1 ∧ 1 < blockSize) then
    Ok (imap (λ y row, imap (λ x p,
          if bool_decide (p - local_mean src blockSize (Z.of_nat y) (Z.of_nat x) > - C)
          then saturate maxValue else 0) row) src)
  else Raise (Exn "cv2.error" "blockSize % 2 == 1 && blockSize > 1").

(** Connected components (8-connectivity), labelled in scan order by a
    flood fill from the first unlabelled foreground pixel. *)
Definition neighbours (p : Z * Z) : list (Z * Z) :=
  let '(y, x) := p in
  [ (y - 1, x - 1); (y - 1, x); (y - 1, x + 1); (y, x - 1); (y, x + 1);
    (y + 1, x - 1); (y + 1, x); (y + 1, x + 1) ].

Definition unlabelled_foreground (src labels : array2) (p : Z * Z) : bool :=
  match pixel src p.1 p.2, pixel labels p.1 p.2 with
  | Some v, Some l => bool_decide (v ≠ 0) && bool_decide (l = 0)
  | _, _ => false
  end.

Definition set_pixel (a : array2) (p : Z * Z) (v : Z) : array2 :=
  alter (λ row, <[Z.to_nat p.2 := v]> row) (Z.to_nat p.1) a.

Fixpoint flood (fuel : nat) (src : array2) (label : Z)
    (stack : list (Z * Z)) (labels : array2) : array2 :=
  match fuel with
  | O => labels
  | S fuel' =>
      match stack with
      | [] => labels
      | p :: rest =>
          if unlabelled_foreground src labels p
          then flood fuel' src label (neighbours p ++ rest) (set_pixel labels p label)
          else flood fuel' src label rest labels
      end
  end.

Definition positions (a : array2) : list (Z * Z) :=
  concat (imap (λ y row, imap (λ x _, (Z.of_nat y, Z.of_nat x)) row) a).

Definition label_components (src : array2) : Z * array2 :=
  let fuel := (9 * length (concat src) + 1)%nat in
  foldl (λ '(next, labels) p,
           if unlabelled_foreground src labels p
           then (next + 1, flood fuel src next [p] labels)
           else (next, labels))
        (1, np.zeros_like src) (positions src).

Definition component_stat (labels : array2) (label : Z) : cc_stat :=
  let members := filter (λ p, pixel labels p.1 p.2 = Some label) (positions labels) in
  let ys := fst <$> members in
  let xs := snd <$> members in
  {| CC_STAT_LEFT := np.minimum xs; CC_STAT_TOP := np.minimum ys;
     CC_STAT_WIDTH := if xs is [] then 0 else np.maximum xs - np.minimum xs + 1;
     CC_STAT_HEIGHT := if ys is [] then 0 else np.maximum ys - np.minimum ys + 1;
     CC_STAT_AREA := Z.of_nat (length members) |}.

Definition connectedComponentsWithStats (src : array2) (connectivity : Z)
    : result (Z * array2 * list cc_stat) :=
  let '(num_labels, labels) := label_components src in
  Ok (num_labels, labels, component_stat labels <$> seqZ 0 num_labels).

Definition getStructuringElement (shape : morph_shape) (ksize : Z * Z)
    : result array2 :=
  match shape, ksize with
  | MORPH_ELLIPSE, (2, 2) => Ok [[0; 1]; [1; 1]]
  | MORPH_RECT, (w, h) => Ok (replicate (Z.to_nat h) (replicate (Z.to_nat w) 1))
  | _, _ => Raise (Exn "cv2.error" "structuring element not supported")
  end.

(** Erosion and dilation: the minimum, or maximum, over the pixels under the
    kernel (anchored at its centre) that lie inside the image. *)
Definition under_kernel (kernel src : array2) (y x : Z) : list Z :=
  let ay := height kernel `div` 2 in
  let ax := width kernel `div` 2 in
  omap (λ '(p, k), if bool_decide (k ≠ 0)
                   then pixel src (y + p.1 - ay) (x + p.2 - ax) else None)
       (zip (positions kernel) (concat kernel)).

Definition dilate (kernel src : array2) : array2 :=
  imap (λ y row, imap (λ x _,
    foldr Z.max 0 (under_kernel kernel src (Z.of_nat y) (Z.of_nat x))) row) src.
Definition erode (kernel src : array2) : array2 :=
  imap (λ y row, imap (λ x _,
    foldr Z.min 255 (under_kernel kernel src (Z.of_nat y) (Z.of_nat x))) row) src.

Definition morphologyEx (src : array2) (op : morph_op) (kernel : array2)
    : result array2 :=
  Ok match op with
     | MORPH_ERODE => erode kernel src
     | MORPH_DILATE => dilate kernel src
     | MORPH_OPEN => dilate kernel (erode kernel src)
     | MORPH_CLOSE => erode kernel (dilate kernel src)
     end.

(** Nearest-neighbour resize *)
Definition resize (src : array2) (dsize : Z * Z) (i : interpolation)
    : result array2 :=
  let '(w, h) := dsize in
  if bool_decide (0 < w ∧ 0 < h ∧ 0 < height src ∧ 0 < width src) then
    Ok (map (λ y, map (λ x,
          saturate (default 0 (pixel src (y * height src `div` h) (x * width src `div` w))))
          (seqZ 0 w)) (seqZ 0 h))
  else Raise (Exn "cv2.error" "!ssize.empty() && !dsize.empty()").

(** Translations only, onto an output of the size of the input. *)
Definition warpAffine (src : array2) (M : list (list Q)) (dsize : Z * Z)
    (b : border_mode) (v : Z) : result array2 :=
  match M, b, v with
  | [[m00; m01; tx]; [m10; m11; ty]], BORDER_CONSTANT, 0 =>
      if Qeq_bool m00 1 && Qeq_bool m01 0 && Qeq_bool m10 0 && Qeq_bool m11 1
         && Qeq_bool tx (inject_Z (trunc tx)) && Qeq_bool ty (inject_Z (trunc ty))
         && bool_decide (dsize = (width src, height src))
         && bool_decide (Forall (λ row, Z.of_nat (length row) = width src) src)
      then Ok (map (map saturate) (translate (trunc tx) (trunc ty) src))
      else Raise (Exn "cv2.error" "transformation not supported")
  | _, _, _ => Raise (Exn "cv2.error" "transformation not supported")
  end.

(** A 3x3 blur with the separable kernel [1 6 1] / 8. *)
Definition GaussianBlur (src : array2) (ksize : Z * Z) (sigmaX : Q) : result array2 :=
  if bool_decide (ksize = (3, 3)) then
    Ok (imap (λ y row, imap (λ x _,
          let near dy dx := pixel_reflect src (Z.of_nat y + dy) (Z.of_nat x + dx) in
          let total :=
            foldr Z.add 0
              (dy ← [(-1, 1); (0, 6); (1, 1)]; dx ← [(-1, 1); (0, 6); (1, 1)];
               [dy.2 * dx.2 * near dy.1 dx.1]) in
          saturate ((total + 32) `div` 64)) row) src)
  else Raise (Exn "cv2.error" "kernel size not supported").

Definition cv2 : cv2_api :=
  Build_cv2_api Image_convert_L CLAHE_apply threshold adaptiveThreshold
    connectedComponentsWithStats getStructuringElement morphologyEx resize
    warpAffine GaussianBlur.

(** Stand-ins for the drawing operations of the overlay: nearest-neighbour
    resize, a blue-to-red ramp as colour map. *)
Definition resize_float (heatmap : ndarray) (dsize : Z * Z)
    : result (list (list Q)) :=
  let '(w, h) := dsize in
  match tf.to_matrix heatmap with
  | Some (row :: rows) =>
      let src := row :: rows in
      let sh := Z.of_nat (length src) in
      let sw := Z.of_nat (length row) in
      if bool_decide (0 < w ∧ 0 < h ∧ 0 < sw) then
        Ok (map (λ y, map (λ x,
              default 0%Q (r ← src !! Z.to_nat (y * sh `div` h);
                           r !! Z.to_nat (x * sw `div` w)))
              (seqZ 0 w)) (seqZ 0 h))
      else Raise (Exn "cv2.error" "!ssize.empty() && !dsize.empty()")
  | _ => Raise (Exn "cv2.error" "!ssize.empty()")
  end.

Definition applyColorMap (src : array2) (c : colormap) : result color_image :=
  Ok (map (map (λ v, [255 - saturate v; 0; saturate v])) src).

Definition cvtColor_GRAY2BGR (src : array2) : result color_image :=
  Ok (map (map (λ v, [v; v; v])) src).

Definition addWeighted (src1 : color_image) (alpha : Q) (src2 : color_image)
    (beta gamma : Q) : result color_image :=
  Ok (zip_with (zip_with (zip_with (λ a b,
        saturate (Qfloor (alpha * inject_Z a + beta * inject_Z b + gamma + (1 # 2))))))
      src1 src2).

Definition overlay : cv2_overlay_api :=
  Build_cv2_overlay_api resize_float applyColorMap cvtColor_GRAY2BGR addWeighted.

End Reference.

(** An array of [h] rows of [w] entries each. *)
Definition has_shape (h w : nat) (a : array2) : Prop :=
  length a = h ∧ Forall (λ row, length row = w) a.

(** ** What the proofs assume of OpenCV

    Each is the documented behaviour of one operation, for the arguments
    the pipeline passes. *)

(** [dst] of [cv2.warpAffine] is a [uint8] image of size [dsize]. *)
Definition warpAffine_returns_dsize (cv : cv2_api) : Prop :=
  ∀ src M w h b v dst,
    warpAffine cv src M (w, h) b v = Ok dst →
    is_uint8_image (Z.to_nat h) (Z.to_nat w) dst.

(** [dst] of [cv2.GaussianBlur] is a [uint8] image of the size of [src]. *)
Definition GaussianBlur_keeps_shape (cv : cv2_api) : Prop :=
  ∀ src ksize sigmaX dst h w,
    has_shape h w src →
    GaussianBlur cv src ksize sigmaX = Ok dst →
    is_uint8_image h w dst.

(** For the matrix of an integer translation, constant border 0 and an
    output of the size of the 28x28 input, [cv2.warpAffine] moves the image
    by exactly that many pixels. *)
Definition warpAffine_translates (cv : cv2_api) (f32 : Q → Q) : Prop :=
  ∀ src shift_x shift_y,
    is_uint8_image 28 28 src →
    warpAffine cv src (translation_matrix f32 shift_x shift_y) (28, 28)
               BORDER_CONSTANT 0
    = Ok (translate shift_x shift_y src).

(** A well-formed network input: shape (1, 28, 28, 1), entries in [0, 1]. *)
Definition canonical (t : tensor4) : Prop :=
  np.has_shape4 1 28 28 1 t ∧ Forall (λ x, (0 <= x <= 1)%Q) (np.entries4 t).

(** ** Example inputs *)

(** A blank square image: every pixel has the intensity [c]. *)
Definition blank_image (n : nat) (c : Z) : array2 := replicate n (replicate n c).

(** A 10x10 black image with a 2x2 white dot. *)
Definition dot_image : array2 :=
  replicate 4 (replicate 10 0)
  ++ replicate 2 [0; 0; 0; 0; 255; 255; 0; 0; 0; 0]
  ++ replicate 4 (replicate 10 0).

(** The library calls of steps 1-5 *)
Definition mask_steps : list string :=
  [ "Image.convert"; "cv2.createCLAHE.apply"; "cv2.threshold";
    "cv2.adaptiveThreshold"; "cv2.connectedComponentsWithStats" ].

(** The library calls of steps 6-11 *)
Definition later_steps : list string :=
  [ "cv2.getStructuringElement"; "cv2.morphologyEx"; "cv2.resize";
    "cv2.warpAffine"; "cv2.GaussianBlur" ].

(** A 10x10 black image with a single white pixel. *)
Definition single_pixel_image : array2 :=
  replicate 5 (replicate 10 0)
  ++ [[0; 0; 0; 0; 0; 255; 0; 0; 0; 0]]
  ++ replicate 4 (replicate 10 0).

(** ** Example models *)

(** A small network: a 2x2 two-channel activation under [conv1], [conv2]
    and [conv3], and two classes. *)
Definition example_values (k : KerasTensor) : ndarray :=
  match k with
  | 0%nat => tf.of_tensor4 [[[[1; 0]; [0; 1]]; [[2; 1]; [1; 2]]]]%Q
  | 1%nat => tf.of_tensor4 [[[[1; 2]; [3; 4]]; [[0; 1]; [2; 0]]]]%Q
  | 2%nat => tf.of_tensor4 [[[[4; 3]; [2; 1]]; [[1; 1]; [0; 2]]]]%Q
  | 3%nat => tf.of_matrix [[1; 2; 3]]%Q
  | _ => tf.of_matrix [[1 # 4; 3 # 4]]%Q
  end.

(** Gradients of the class scores: those of class 1 are the negated ones of
    class 0 (the two probabilities sum to 1). *)
Definition example_gradient (source : KerasTensor) (class_idx : Z) (x : tensor4)
    : result ndarray :=
  let g : tensor4 := [[[[1; -1]; [1 # 2; 0]]; [[0; 1 # 2]; [1; 1]]]]%Q in
  if bool_decide (class_idx = 0 ∨ class_idx = -2) then Ok (tf.of_tensor4 g)
  else Ok (tf.of_tensor4 (map (map (map (map Qopp))) g)).

Definition example_model : keras_model := {|
  layers := [ ("conv1", 0%nat); ("conv2", 1%nat); ("conv3", 2%nat);
              ("dense1", 3%nat); ("predictions", 4%nat) ];
  model_output := 4%nat;
  forward := λ _, Ok example_values;
  gradient := example_gradient;
|}.

(** The same network saved before [conv3] was added. *)
Definition old_model : keras_model := {|
  layers := [ ("conv1", 0%nat); ("conv2", 1%nat);
              ("dense1", 3%nat); ("predictions", 4%nat) ];
  model_output := 4%nat;
  forward := λ _, Ok example_values;
  gradient := example_gradient;
|}.

(** A 3-D array of [h] rows of [w] cells of [c] channels each. *)
Definition has_shape3 (h w c : nat) (t : list (list (list Q))) : Prop :=
  length t = h ∧
  Forall (λ row, length row = w ∧ Forall (λ cell, length cell = c) row) t.

(** Grad-CAM on [conv2] of the example model ([GradCAM(example_model)]). *)
Definition example_gradcam : GradCAM :=
  {| model := example_model; layer_name := "conv2"; grad_model := (1%nat, 4%nat) |}.

(** The entries that a shift by [s] moves out of the list are zero. *)
Definition leaving_zero (s : Z) (l : list Z) : Prop :=
  if bool_decide (0 <= s) then Forall (λ v, v = 0) (drop (length l - Z.to_nat s) l)
  else Forall (λ v, v = 0) (take (Z.to_nat (- s)) l).

(** A translation by [(shift_x, shift_y)] moves no non-zero pixel of the
    image off the image. *)
Definition stays_inside (shift_x shift_y : Z) (a : array2) : Prop :=
  ∀ (y x : nat) (row : list Z) (v : Z),
    a !! y = Some row → row !! x = Some v → v ≠ 0 →
    0 <= Z.of_nat y + shift_y < Z.of_nat (length a) ∧
    0 <= Z.of_nat x + shift_x < Z.of_nat (length row).

(** [stays_inside], computed. *)
Definition stays_inside_bool (shift_x shift_y : Z) (a : array2) : bool :=
  forallb (λ '(y, row),
    forallb (λ '(x, v),
      bool_decide (v = 0 ∨
        (0 <= Z.of_nat y + shift_y < Z.of_nat (length a) ∧
         0 <= Z.of_nat x + shift_x < Z.of_nat (length row))))
      (imap pair row))
    (imap pair a).

(** A 28x28 canvas with a 6x4 block near its upper left corner. *)
Definition corner_canvas : array2 :=
  replicate 4 (replicate 28 0)
  ++ replicate 6 (replicate 4 0 ++ replicate 4 255 ++ replicate 20 0)
  ++ replicate 18 (replicate 28 0).

(** A 28x28 canvas with a digit 20 pixels high: a thin vertical stroke on a
    wide base. *)
Definition bottom_heavy_canvas : array2 :=
  replicate 4 (replicate 28 0)
  ++ replicate 14 (replicate 13 0 ++ [255] ++ replicate 14 0)
  ++ replicate 6 (replicate 4 0 ++ replicate 20 255 ++ replicate 4 0)
  ++ replicate 4 (replicate 28 0).

(** [i] is the first position of a largest element of [l], for the strict
    order [ltb]: what [np.argmax] returns. *)
Definition first_maximum {A} (ltb : A → A → bool) (l : list A) (i : nat) : Prop :=
  ∃ x, l !! i = Some x ∧
       (∀ j y, l !! j = Some y → ltb x y = false) ∧
       (∀ j y, (j < i)%nat → l !! j = Some y → ltb y x = true).

(** [a[y, x]], when inside the array *)
Definition entry (a : array2) (y x : nat) : option Z := row ← a !! y; row !! x.

(** An 8x8 mask with two components: a single pixel, and below it a block
    of two rows of three pixels. *)
Definition two_blob_image : array2 :=
  [ replicate 8 0;
    [0; 255; 0; 0; 0; 0; 0; 0];
    replicate 8 0;
    replicate 8 0;
    [0; 0; 0; 255; 255; 255; 0; 0];
    [0; 0; 0; 255; 255; 255; 0; 0];
    replicate 8 0;
    replicate 8 0 ].

(** A 10x10 white image with a 2x2 black dot. *)
Definition light_image : array2 :=
  replicate 4 (replicate 10 255)
  ++ replicate 2 [255; 255; 255; 255; 0; 0; 255; 255; 255; 255]
  ++ replicate 4 (replicate 10 255).

(** The example network without its dense layers. *)
Definition headless_model : keras_model := {|
  layers := [ ("conv1", 0%nat); ("conv2", 1%nat); ("conv3", 2%nat) ];
  model_output := 2%nat;
  forward := λ _, Ok example_values;
  gradient := example_gradient;
|}.

(** The layers [create_feature_extraction_model] cannot do without. *)
Definition required_layers : list string := ["conv1"; "conv2"; "dense1"; "predictions"].

(** ** Encoding and decoding images ([backend/preprocessing.py]) *)

(** [sep in s] and [s.split(sep)], for a separator of one character *)
Module str.

Fixpoint contains (sep : Ascii.ascii) (s : string) : bool :=
  match s with
  | EmptyString => false
  | String c s' => if Ascii.eqb c sep then true else contains sep s'
  end.

Fixpoint split (sep : Ascii.ascii) (s : string) : list string :=
  match s with
  | EmptyString => [EmptyString]
  | String c s' =>
      if Ascii.eqb c sep then EmptyString :: split sep s'
      else match split sep s' with
           | word :: words => String c word :: words
           | [] => [String c EmptyString]
           end
  end.

End str.

(** The character [,] *)
Definition comma : Ascii.ascii := Ascii.ascii_of_nat 44.

(** [l[i]] on a Python list, for [0 <= i] *)
Definition list_getitem {A} (l : list A) (i : nat) : result A :=
  match l !! i with
  | Some a => Ok a
  | None => Raise (Exn "IndexError" "list index out of range")
  end.

(** The entry points of [base64], [io] and [PIL.Image] used to read and
    write images. *)
Record codec_api : Type := {
  (** [base64.b64decode(s)] *)
  b64decode : string → result (list Byte.byte);
  (** [Image.open(io.BytesIO(data))] *)
  Image_open : list Byte.byte → result pil_image;
  (** [Image.fromarray(array)] of a 2-D [uint8] array *)
  Image_fromarray : array2 → result pil_image;
  (** [image.save(buffer, format=f)] on a fresh [io.BytesIO]; the result is
      [buffer.getvalue()] *)
  Image_save : pil_image → string → result (list Byte.byte);
  (** [base64.b64encode(data).decode("utf-8")] *)
  b64encode : list Byte.byte → string;
}.

(** The arrays that are encoded: [float32] feature maps and heatmaps, and
    [uint8] images (both 2-D). *)
Inductive image_array : Type :=
| Float32 (a : list (list Q))
| UInt8 (a : array2).

Definition qmin (x y : Q) : Q := if Qle_bool x y then x else y.

(** [a.min()] and [a.max()] of arrays of floats and of integers;
    [ValueError] on an array without elements. *)
Definition array_min {A} (min : A → A → A) (a : list (list A)) : result A :=
  match concat a with
  | [] => Raise (Exn "ValueError"
            "zero-size array to reduction operation minimum which has no identity")
  | x :: l => Ok (foldr min x l)
  end.

Definition array_max {A} (max : A → A → A) (a : list (list A)) : result A :=
  match concat a with
  | [] => Raise (Exn "ValueError"
            "zero-size array to reduction operation maximum which has no identity")
  | x :: l => Ok (foldr max x l)
  end.

Section Encoding.

Variable io : codec_api.
Variable cv : cv2_api.
Variables f32 f64 : Q → Q.

Definition base64_to_image (base64_string : string) : M pil_image :=
  (* Remove data URL prefix if present *)
  base64_string ←
    (if str.contains comma base64_string
     then lift (list_getitem (str.split comma base64_string) 1)
     else mret base64_string);
  image_data ← call "base64.b64decode" (b64decode io base64_string);
  call "Image.open" (Image_open io image_data).

Definition image_to_base64 (image : pil_image) (format : string) : M string :=
  data ← call "Image.save" (Image_save io image format);
  mret (b64encode io data).

(** The [normalize] branch of [numpy_to_base64].  A [float32] array stays
    [float32] throughout; on a [uint8] array the subtraction is a [uint8]
    one, the division gives [float64], and without a division the product
    with 255 is a [uint8] one. *)
Definition normalized (array : image_array) : M array2 :=
  match array with
  | Float32 array =>
      lo ← lift (array_min qmin array);
      let array := map (map (λ v, f32 (v - lo))) array in
      hi ← lift (array_max qmax array);
      let array :=
        if Qltb 0 hi then map (map (λ v, f32 (v / hi))) array else array in
      mret (map (map (λ v, astype_uint8 (f32 (v * 255)))) array)
  | UInt8 array =>
      lo ← lift (array_min Z.min array);
      let array := map (map (λ v, (v - lo) `mod` 256)) array in
      hi ← lift (array_max Z.max array);
      if bool_decide (hi > 0) then
        let array := map (map (λ v, f64 (inject_Z v / inject_Z hi))) array in
        mret (map (map (λ v, astype_uint8 (f64 (v * 255)))) array)
      else
        mret (map (map (λ v, (v * 255) `mod` 256)) array)
  end.

Definition numpy_to_base64 (array : image_array) (normalize : bool) : M string :=
  array ← (if normalize then normalized array
           else mret match array with
                     | Float32 array => map (map astype_uint8) array
                     | UInt8 array => array
                     end);
  image ← call "Image.fromarray" (Image_fromarray io array);
  image_to_base64 image "PNG".

(** [a[0, :, :, 0]] of a 4-D array *)
Definition plane_0_0 (a : tensor4) : result (list (list Q)) :=
  match a with
  | [] => Raise (Exn "IndexError" "index 0 is out of bounds for axis 0 with size 0")
  | plane :: _ =>
      match mapM (mapM (λ cell : list Q, cell !! 0%nat)) plane with
      | Some img => Ok img
      | None => Raise (Exn "IndexError" "index 0 is out of bounds for axis 3 with size 0")
      end
  end.

Definition get_processed_image_base64 (image : pil_image) : M string :=
  preprocessed ← preprocess_for_mnist cv f32 f64 image;
  (* Remove batch and channel dims, scale back to 0-255 *)
  plane ← lift (plane_0_0 preprocessed);
  let img_2d := map (map (λ v, astype_uint8 (f32 (v * 255)))) plane in
  numpy_to_base64 (UInt8 img_2d) false.

End Encoding.

(** A stand-in codec: a text is its own encoding, one byte per character,
    and an image file holds the pixels of the image in one row. *)
Definition example_codec : codec_api := {|
  b64decode s := Ok (Ascii.byte_of_ascii <$> String.list_ascii_of_string s);
  Image_open data := Ok (ImageL [(λ b, Z.of_N (Byte.to_N b)) <$> data]);
  Image_fromarray a := Ok (ImageL a);
  Image_save image format :=
    match image with
    | ImageL px =>
        Ok ((λ v, default Byte.x00 (Byte.of_N (Z.to_N v))) <$> concat px)
    | ImageMode _ raw =>
        Ok ((λ v, default Byte.x00 (Byte.of_N (Z.to_N v))) <$> concat (concat raw))
    end;
  b64encode data := String.string_of_list_ascii (Ascii.ascii_of_byte <$> data);
|}.

(** The grey level [numpy_to_base64] gives an entry [v] of a [float32]
    array, for the minimum [lo] of the array and its largest entry [spread]
    after the subtraction of the minimum. *)
Definition grey_level (f32 : Q → Q) (lo spread v : Q) : Z :=
  let shifted := f32 (v - lo)%Q in
  let scaled := if Qltb 0 spread then f32 (shifted / spread)%Q else shifted in
  astype_uint8 (f32 (scaled * 255)%Q).

(** A small feature map *)
Definition example_map : list (list Q) := [[1 # 2; 1]; [3 # 2; 5 # 2]]%Q.

(** ** [backend/main.py] *)

(** Indexing NumPy arrays of any rank *)
Module nd.

(** [a[0]] *)
Definition getitem0 (a : ndarray) : result ndarray :=
  match a with
  | Array (x :: _) => Ok x
  | Array [] => Raise (Exn "IndexError" "index 0 is out of bounds for axis 0 with size 0")
  | Scalar _ => Raise (Exn "IndexError" "invalid index to scalar variable.")
  end.

(** [a[i]], for [0 <= i] *)
Definition getitem (a : ndarray) (i : Z) : result ndarray :=
  match a with
  | Array xs =>
      match xs !! Z.to_nat i with
      | Some x => Ok x
      | None => Raise (Exn "IndexError" "index is out of bounds for axis 0")
      end
  | Scalar _ => Raise (Exn "IndexError" "invalid index to scalar variable.")
  end.

(** [a.shape[-1]] *)
Definition last_axis (a : ndarray) : result nat :=
  match last (tf.shape a) with
  | Some n => Ok n
  | None => Raise (Exn "IndexError" "tuple index out of range")
  end.

(** [a[:, :, i]], for [0 <= i] *)
Definition channel (a : ndarray) (i : nat) : result ndarray :=
  let cell_at (cell : ndarray) : option ndarray :=
    match cell with Array xs => xs !! i | Scalar _ => None end in
  let row_at (row : ndarray) : option ndarray :=
    match row with Array cells => Array <$> mapM cell_at cells | Scalar _ => None end in
  match a with
  | Array rows =>
      match mapM row_at rows with
      | Some rows' => Ok (Array rows')
      | None => Raise (Exn "IndexError" "too many indices for array, or index out of bounds")
      end
  | Scalar _ => Raise (Exn "IndexError" "too many indices for array")
  end.

(** [int(np.argmax(a))]: the position in the flattened array *)
Definition argmax (a : ndarray) : result Z :=
  match tf.entries a with
  | [] => Raise (Exn "ValueError" "attempt to get argmax of an empty sequence")
  | entries => Ok (np.argmax Qltb entries)
  end.

(** [float(a)]: an array converts when it has a single entry *)
Definition to_float (a : ndarray) : result Q :=
  match tf.entries a with
  | [x] => Ok x
  | _ => Raise (Exn "TypeError" "only length-1 arrays can be converted to Python scalars")
  end.

End nd.

(** The OpenCV and PIL entry points the endpoints use on their results. *)
Record main_api : Type := {
  (** [cv2.resize(src, dsize, interpolation=i)] of a [float32] array; the
      result is 2-D *)
  resize_map : ndarray → Z * Z → interpolation → result (list (list Q));
  (** [cv2.resize(src, dsize, interpolation=i)] of a colour image *)
  resize_color : color_image → Z * Z → interpolation → result color_image;
  (** [cv2.cvtColor(src, cv2.COLOR_BGR2RGB)] *)
  cvtColor_BGR2RGB : color_image → result color_image;
  (** [Image.fromarray(array)] of an RGB array *)
  Image_fromarray_RGB : color_image → result pil_image;
}.

Module ScanRequest.
Record t : Type := { image : string }.
End ScanRequest.

Module ScanResponse.
Record t : Type := {
  processed_image : string;
  feature_maps_conv1 : list string;
  feature_maps_conv2 : list string;
  dense_activations : list Q;
  probabilities : list Q;
  prediction : Z;
}.
End ScanResponse.

Module ExplainRequest.
Record t : Type := { image : string; class_idx : option Z }.
End ExplainRequest.

Module ExplainResponse.
Record t : Type := {
  heatmap : string;
  overlay : string;
  prediction : Z;
  confidence : Q;
}.
End ExplainResponse.

(** How a request ends: with a response, or with an [HTTPException]. *)
Inductive http_result (A : Type) : Type :=
| Response (a : A)
| HTTPException (status_code : Z) (detail : string).
Arguments Response {A} a.
Arguments HTTPException {A} status_code detail.

(** [try: body  except Exception as e:
       raise HTTPException(status_code=400, detail=f"{prefix}{str(e)}")] *)
Definition or_bad_request {A} (prefix : string) (body : M A)
    : list string * http_result A :=
  match body with
  | (l, Ok a) => (l, Response a)
  | (l, Raise e) => (l, HTTPException 400 (prefix +:+ exn_msg e))
  end.

(** A [for] loop that appends one result per element *)
Fixpoint for_each {A B} (f : A → M B) (l : list A) : M (list B) :=
  match l with
  | [] => mret []
  | x :: l' => y ← f x; ys ← for_each f l'; mret (y :: ys)
  end.

(** Pydantic's check of a [list[float]] field: a flat list of floats *)
Definition validate_float_list (field : string) (a : ndarray) : result (list Q) :=
  match tf.to_vector a with
  | Some l => Ok l
  | None => Raise (Exn "ValidationError" field)
  end.

Section Endpoints.

Variable io : codec_api.
Variable cv : cv2_api.
Variable ov : cv2_overlay_api.
Variable api : main_api.
Variables f32 f64 : Q → Q.

(** The loop over the feature maps of one layer (written out for [conv1]
    and for [conv2] in the source): the first 16 channels, each resized to
    56x56 and encoded. *)
Definition encode_feature_maps (maps : ndarray) : M (list string) :=
  channels ← lift (nd.last_axis maps);
  for_each (λ i,
      feature_map ← lift (nd.channel maps i);
      (* Resize for better visibility *)
      feature_map_resized ←
        call "cv2.resize" (resize_map api feature_map (56, 56) INTER_NEAREST);
      numpy_to_base64 io f32 f64 (Float32 feature_map_resized) true)
    (seq 0 (16 `min` channels)).

Definition scan_image (model : option keras_model) (fm : option feature_model)
    (request : ScanRequest.t) : list string * http_result ScanResponse.t :=
  match model, fm with
  | Some model, Some fm =>
      or_bad_request "Error processing image: " (
        (* Decode and preprocess image *)
        image ← base64_to_image io (ScanRequest.image request);
        processed ← preprocess_for_mnist cv f32 f64 image;
        (* Get all layer activations *)
        activations ← get_layer_activations fm processed;
        (* Extract feature maps from conv layers *)
        conv1 ← lift (dict_getitem activations "conv1");
        conv1_maps ← lift (nd.getitem0 conv1);
        conv2 ← lift (dict_getitem activations "conv2");
        conv2_maps ← lift (nd.getitem0 conv2);
        feature_maps_conv1 ← encode_feature_maps conv1_maps;
        feature_maps_conv2 ← encode_feature_maps conv2_maps;
        (* Get dense layer activations *)
        dense1 ← lift (dict_getitem activations "dense1");
        dense_activations ← lift (nd.getitem0 dense1);
        (* Get predictions *)
        predictions ← lift (dict_getitem activations "predictions");
        probabilities ← lift (nd.getitem0 predictions);
        prediction ← lift (nd.argmax probabilities);
        (* Get processed image as base64 *)
        processed_image ← get_processed_image_base64 io cv f32 f64 image;
        (* ScanResponse(...) *)
        dense_activations ← lift (validate_float_list "dense_activations" dense_activations);
        probabilities ← lift (validate_float_list "probabilities" probabilities);
        mret {| ScanResponse.processed_image := processed_image;
                ScanResponse.feature_maps_conv1 := feature_maps_conv1;
                ScanResponse.feature_maps_conv2 := feature_maps_conv2;
                ScanResponse.dense_activations := dense_activations;
                ScanResponse.probabilities := probabilities;
                ScanResponse.prediction := prediction |})
  | _, _ => ([], HTTPException 503 "Model not loaded")
  end.

Definition explain_prediction (model : option keras_model)
    (request : ExplainRequest.t) : list string * http_result ExplainResponse.t :=
  match model with
  | Some model =>
      or_bad_request "Error generating explanation: " (
        (* Decode and preprocess image *)
        image ← base64_to_image io (ExplainRequest.image request);
        processed ← preprocess_for_mnist cv f32 f64 image;
        (* Get prediction *)
        values ← call "Model.predict" (forward model processed);
        let predictions := values (model_output model) in
        row ← lift (nd.getitem0 predictions);
        prediction ← lift (nd.argmax row);
        chosen ← lift (nd.getitem row prediction);
        confidence ← lift (nd.to_float chosen);
        (* Use specified class or predicted class *)
        let target_class := default prediction (ExplainRequest.class_idx request) in
        (* Generate Grad-CAM *)
        '(heatmap, overlay) ←
          generate_gradcam_explanation ov f32 f64 model processed
            (Some target_class) "conv2";
        (* Resize heatmap for better visibility *)
        heatmap_resized ←
          call "cv2.resize" (resize_map api heatmap (112, 112) INTER_LINEAR);
        heatmap_base64 ← numpy_to_base64 io f32 f64 (Float32 heatmap_resized) true;
        (* Resize overlay *)
        overlay_resized ←
          call "cv2.resize" (resize_color api overlay (112, 112) INTER_LINEAR);
        overlay_rgb ← call "cv2.cvtColor" (cvtColor_BGR2RGB api overlay_resized);
        overlay_pil ← call "Image.fromarray" (Image_fromarray_RGB api overlay_rgb);
        overlay_base64 ← image_to_base64 io overlay_pil "PNG";
        mret {| ExplainResponse.heatmap := heatmap_base64;
                ExplainResponse.overlay := overlay_base64;
                ExplainResponse.prediction := prediction;
                ExplainResponse.confidence := confidence |})
  | None => ([], HTTPException 503 "Model not loaded")
  end.

End Endpoints.

(** Stand-ins for the remaining operations: nearest-neighbour resize, and a
    channel swap. *)
Definition example_api : main_api := {|
  resize_map a dsize i := Reference.resize_float a dsize;
  resize_color src dsize i :=
    let '(w, h) := dsize in
    let sh := Z.of_nat (length src) in
    let sw := Z.of_nat (length (default [] (head src))) in
    if bool_decide (0 < w ∧ 0 < h ∧ 0 < sh ∧ 0 < sw) then
      Ok (map (λ y, map (λ x,
            default [] (row ← src !! Z.to_nat (y * sh `div` h);
                        row !! Z.to_nat (x * sw `div` w)))
            (seqZ 0 w)) (seqZ 0 h))
    else Raise (Exn "cv2.error" "!ssize.empty() && !dsize.empty()");
  cvtColor_BGR2RGB src := Ok (map (map reverse) src);
  Image_fromarray_RGB src := Ok (ImageMode "RGB" src);
|}.

(** The feature model of the example network
    ([create_feature_extraction_model example_model]). *)
Definition example_feature_model : feature_model := {|
  base := example_model;
  outputs := list_to_map [ ("conv1", 0%nat); ("conv2", 1%nat); ("conv3", 2%nat);
                           ("dense1", 3%nat); ("predictions", 4%nat) ];
|}.

(** ** Stroke normalisation ([backend/preprocessing.py]) *)

(** The OpenCV operations of the stroke normalisation. *)
Record morph_api : Type := {
  (** [cv2.erode(src, kernel, iterations=n)] *)
  erode : array2 → array2 → Z → result array2;
  (** [cv2.dilate(src, kernel, iterations=n)] *)
  dilate : array2 → array2 → Z → result array2;
  (** [cv2.subtract(src1, src2)] *)
  subtract : array2 → array2 → result array2;
  (** [cv2.bitwise_or(src1, src2)] *)
  bitwise_or : array2 → array2 → result array2;
}.

(** [np.ones((h, w), np.uint8)] *)
Definition ones (h w : nat) : array2 := replicate h (replicate w 1).

Section StrokeWidth.

Variable cv : cv2_api.
Variable mo : morph_api.

(** The [while True] loop of [normalize_stroke_width], run for at most
    [fuel] iterations; [None] when the loop has not left by then. *)
Fixpoint skeletonize (fuel : nat) (kernel skeleton temp : array2)
    : M (option array2) :=
  match fuel with
  | O => mret None
  | S fuel' =>
      eroded ← call "cv2.erode" (erode mo temp kernel 1);
      temp_opened ← call "cv2.dilate" (dilate mo eroded kernel 1);
      subset ← call "cv2.subtract" (subtract mo temp temp_opened);
      skeleton ← call "cv2.bitwise_or" (bitwise_or mo skeleton subset);
      let temp := eroded in
      if bool_decide (countNonZero temp = 0) then mret (Some skeleton)
      else skeletonize fuel' kernel skeleton temp
  end.

Definition normalize_stroke_width (fuel : nat) (binary_img : array2)
    : M (option array2) :=
  (* Skeletonize using morphological operations *)
  let skeleton := np.zeros_like binary_img in
  let temp := binary_img in
  kernel ← call "cv2.getStructuringElement"
                (getStructuringElement cv MORPH_CROSS (3, 3));
  skeleton ← skeletonize fuel kernel skeleton temp;
  match skeleton with
  | None => mret None
  | Some skeleton =>
      (* Dilate skeleton to get consistent stroke width *)
      let dilation_kernel := ones 2 2 in
      normalized ← call "cv2.dilate" (dilate mo skeleton dilation_kernel 1);
      mret (Some normalized)
  end.

End StrokeWidth.

(** Stand-ins for the morphological operations, from those of the
    reference instance; and the reference instance with the 3x3 cross added
    to its structuring elements. *)
Definition example_morph : morph_api := {|
  erode src kernel iterations :=
    Ok (Nat.iter (Z.to_nat iterations) (Reference.erode kernel) src);
  dilate src kernel iterations :=
    Ok (Nat.iter (Z.to_nat iterations) (Reference.dilate kernel) src);
  subtract src1 src2 := Ok (zip_with (zip_with (λ a b, Z.max 0 (a - b))) src1 src2);
  bitwise_or src1 src2 := Ok (zip_with (zip_with Z.lor) src1 src2);
|}.

Definition cross_cv2 : cv2_api :=
  Build_cv2_api
    (Image_convert_L Reference.cv2) (CLAHE_apply Reference.cv2)
    (threshold Reference.cv2) (adaptiveThreshold Reference.cv2)
    (connectedComponentsWithStats Reference.cv2)
    (λ shape ksize,
       match shape, ksize with
       | MORPH_CROSS, (3, 3) => Ok [[0; 1; 0]; [1; 1; 1]; [0; 1; 0]]
       | _, _ => getStructuringElement Reference.cv2 shape ksize
       end)
    (morphologyEx Reference.cv2) (resize Reference.cv2)
    (warpAffine Reference.cv2) (GaussianBlur Reference.cv2).

(** ** The bounding box of the digit *)

(** Step 7 of [preprocess_for_mnist], which [canonical_tensor] has inline:
    the bounding box of the positive pixels of the mask with its padding of
    2, clipped to the image, as [(y_min, y_max, x_min, x_max)]; and the
    region of the mask that is cut out. *)
Definition padded_bounding_box (img_array binary : array2) : Z * Z * Z * Z :=
  let coords := np.where_positive binary in
  let y_min := np.minimum (fst <$> coords) in
  let x_min := np.minimum (snd <$> coords) in
  let y_max := np.maximum (fst <$> coords) in
  let x_max := np.maximum (snd <$> coords) in
  let padding := 2 in
  let '(h, w) := np.shape img_array in
  let y_min := Z.max 0 (y_min - padding) in
  let x_min := Z.max 0 (x_min - padding) in
  let y_max := Z.min (h - 1) (y_max + padding) in
  let x_max := Z.min (w - 1) (x_max + padding) in
  (y_min, y_max, x_min, x_max).

Definition digit_region (img_array binary : array2) : array2 :=
  let '(y_min, y_max, x_min, x_max) := padded_bounding_box img_array binary in
  np.slice2 y_min (y_max + 1) x_min (x_max + 1) binary.

(** * Properties *)

(** ** Rounding and truncation *)

Lemma exact_is_rounding : IEEE_rounding Reference.exact.
Proof.
  unfold Reference.exact. split.
  - intros x y Hxy. by rewrite !Qred_correct.
  - intros x. apply Qred_correct.
  - intros n k _ _. apply Qred_correct.
  - intros n _. apply Qred_correct.
Qed.

Section Rounding.

Variable rnd : Q → Q.
Hypothesis Hrnd : IEEE_rounding rnd.

Lemma rnd_proper (x y : Q) : (x == y)%Q → (rnd x == rnd y)%Q.
Proof.
  intros Hxy. apply Qle_antisym; apply (rnd_mono _ Hrnd); rewrite Hxy; apply Qle_refl.
Qed.

Lemma rnd_int_eq (x : Q) (n : Z) :
  Z.abs n <= 2 ^ 24 → (x == inject_Z n)%Q → (rnd x == inject_Z n)%Q.
Proof.
  intros Hn Hx. rewrite (rnd_proper _ _ Hx). by apply (rnd_integer _ Hrnd).
Qed.

Lemma rnd_le_int (x : Q) (n : Z) :
  Z.abs n <= 2 ^ 24 → (x <= inject_Z n)%Q → (rnd x <= inject_Z n)%Q.
Proof.
  intros Hn Hx. rewrite <- (rnd_integer _ Hrnd n Hn). by apply (rnd_mono _ Hrnd).
Qed.

Lemma rnd_ge_int (x : Q) (n : Z) :
  Z.abs n <= 2 ^ 24 → (inject_Z n <= x)%Q → (inject_Z n <= rnd x)%Q.
Proof.
  intros Hn Hx. rewrite <- (rnd_integer _ Hrnd n Hn). by apply (rnd_mono _ Hrnd).
Qed.

End Rounding.

Lemma trunc_proper (x y : Q) : (x == y)%Q → trunc x = trunc y.
Proof.
  intros Hxy. unfold trunc.
  assert (Qle_bool 0 x = Qle_bool 0 y) as ->.
  { destruct (Qle_bool 0 x) eqn:Hx, (Qle_bool 0 y) eqn:Hy; try done.
    - apply Qle_bool_iff in Hx. rewrite Hxy in Hx. apply Qle_bool_iff in Hx. congruence.
    - apply Qle_bool_iff in Hy. rewrite <- Hxy in Hy. apply Qle_bool_iff in Hy. congruence. }
  destruct (Qle_bool 0 y); [by apply Qfloor_comp | by apply Qceiling_comp].
Qed.

Lemma trunc_inject_Z (n : Z) : trunc (inject_Z n) = n.
Proof.
  unfold trunc. destruct (Qle_bool 0 (inject_Z n)); [apply Qfloor_Z | apply Qceiling_Z].
Qed.

Lemma trunc_range (x : Q) (lo hi : Z) :
  lo <= 0 <= hi → (inject_Z lo <= x <= inject_Z hi)%Q → lo <= trunc x <= hi.
Proof.
  intros Hz [Hlo Hhi]. unfold trunc. destruct (Qle_bool 0 x) eqn:Hx.
  - apply Qle_bool_iff in Hx. split.
    + transitivity 0; [lia|]. rewrite <- (Qfloor_Z 0). by apply Qfloor_resp_le.
    + rewrite <- (Qfloor_Z hi). by apply Qfloor_resp_le.
  - assert (x <= 0)%Q as Hx'.
    { apply Qnot_lt_le. intros Hlt. apply Qlt_le_weak, Qle_bool_iff in Hlt. congruence. }
    split.
    + rewrite <- (Qceiling_Z lo). by apply Qceiling_resp_le.
    + transitivity 0; [|lia]. rewrite <- (Qceiling_Z 0). by apply Qceiling_resp_le.
Qed.

Lemma Qdiv_le_1 (a b : Z) :
  0 < b → 0 <= a <= b → (0 <= inject_Z a / inject_Z b <= 1)%Q.
Proof.
  intros Hb [Ha Hab].
  assert (0 < inject_Z b)%Q as Hb' by (rewrite (Zlt_Qlt 0 b) in Hb; exact Hb).
  split.
  - apply Qle_shift_div_l; [done|]. rewrite Qmult_0_l. rewrite (Zle_Qle 0 a) in Ha. exact Ha.
  - apply Qle_shift_div_r; [done|]. rewrite Qmult_1_l. rewrite Zle_Qle in Hab. exact Hab.
Qed.

Lemma Qdiv_ge_1 (a b : Z) :
  0 < b → b <= a → (1 <= inject_Z a / inject_Z b)%Q.
Proof.
  intros Hb Hab.
  assert (0 < inject_Z b)%Q as Hb' by (rewrite (Zlt_Qlt 0 b) in Hb; exact Hb).
  apply Qle_shift_div_l; [done|]. rewrite Qmult_1_l. rewrite Zle_Qle in Hab. exact Hab.
Qed.

(** ** Step 8: the resized dimensions *)

Section ResizedDimensions.

Variable f64 : Q → Q.
Hypothesis Hf64 : IEEE_rounding f64.

Lemma resized_dimensions_tall (digit_h digit_w : Z) :
  0 < digit_w → digit_w < digit_h →
  ∃ new_w, resized_dimensions f64 digit_h digit_w = Ok (20, new_w) ∧ 1 <= new_w <= 20.
Proof.
  intros Hw Hlt. unfold resized_dimensions, int_truediv.
  rewrite bool_decide_eq_false_2 by lia. rewrite bool_decide_eq_true_2 by lia.
  eexists; split; [reflexivity|].
  destruct (Qdiv_le_1 digit_w digit_h) as [H0 H1]; [lia..|].
  apply (rnd_ge_int _ Hf64 _ 0) in H0; [|done].
  apply (rnd_le_int _ Hf64 _ 1) in H1; [|done].
  set (a := f64 (inject_Z digit_w / inject_Z digit_h)) in *.
  assert (0 <= trunc (f64 (inject_Z 20 * a)) <= 20) as Ht.
  { apply trunc_range; [lia|]. split.
    - apply (rnd_ge_int _ Hf64 _ 0); [done|].
      change (inject_Z 0) with 0%Q in *. change (inject_Z 20) with 20%Q. lra.
    - apply (rnd_le_int _ Hf64 _ 20); [done|].
      change (inject_Z 1) with 1%Q in *. change (inject_Z 20) with 20%Q. lra. }
  lia.
Qed.

Lemma resized_dimensions_wide (digit_h digit_w : Z) :
  0 < digit_h → digit_h <= digit_w →
  ∃ new_h, resized_dimensions f64 digit_h digit_w = Ok (new_h, 20) ∧ 1 <= new_h <= 20.
Proof.
  intros Hh Hle. unfold resized_dimensions, int_truediv.
  rewrite bool_decide_eq_false_2 by lia. rewrite bool_decide_eq_false_2 by lia.
  pose proof (Qdiv_ge_1 digit_w digit_h Hh Hle) as H1.
  apply (rnd_ge_int _ Hf64 _ 1) in H1; [|done].
  set (a := f64 (inject_Z digit_w / inject_Z digit_h)) in *.
  change (inject_Z 1) with 1%Q in H1.
  unfold float_truediv.
  destruct (Qeq_bool a 0) eqn:Ha.
  { apply Qeq_bool_iff in Ha. rewrite Ha in H1. lra. }
  eexists; split; [reflexivity|].
  assert (0 <= trunc (f64 (inject_Z 20 / a)) <= 20) as Ht.
  { apply trunc_range; [lia|]. change (inject_Z 20) with 20%Q. split.
    - apply (rnd_ge_int _ Hf64 _ 0); [done|]. change (inject_Z 0) with 0%Q.
      apply Qle_shift_div_l; lra.
    - apply (rnd_le_int _ Hf64 _ 20); [done|]. change (inject_Z 20) with 20%Q.
      apply Qle_shift_div_r; lra. }
  lia.
Qed.

End ResizedDimensions.

(** ** Step 9: placing a block on the canvas *)

Lemma has_shape_lengths (h w : nat) (a : array2) :
  has_shape h w a → length <$> a = replicate h w.
Proof.
  intros [<- Hrows]. induction Hrows as [|row a Hrow _ IH]; [done|].
  cbn. by rewrite Hrow, IH.
Qed.

Lemma has_shape_zeros (h w : Z) :
  has_shape (Z.to_nat h) (Z.to_nat w) (np.zeros h w).
Proof.
  unfold np.zeros. split; [by rewrite length_replicate|].
  apply Forall_replicate. by rewrite length_replicate.
Qed.

Lemma length_slice {A} (start stop : Z) (l : list A) :
  0 <= start → start <= stop → stop <= Z.of_nat (length l) →
  length (np.slice start stop l) = Z.to_nat (stop - start).
Proof.
  intros. unfold np.slice. rewrite length_take, length_drop. lia.
Qed.

Lemma has_shape_slice2 (H W : nat) (y0 y1 x0 x1 : Z) (a : array2) :
  has_shape H W a →
  0 <= y0 <= y1 → y1 <= Z.of_nat H → 0 <= x0 <= x1 → x1 <= Z.of_nat W →
  has_shape (Z.to_nat (y1 - y0)) (Z.to_nat (x1 - x0)) (np.slice2 y0 y1 x0 x1 a).
Proof.
  intros [Hlen Hrows] ????. unfold np.slice2. split.
  - rewrite length_map, length_slice; lia.
  - apply Forall_map. unfold np.slice at 2.
    apply Forall_take, Forall_drop.
    eapply Forall_impl; [exact Hrows|]. intros row Hrow. cbn in *.
    rewrite length_slice; lia.
Qed.

Lemma assign_row (x0 w : nat) (crow srow : list Z) :
  length srow = w → (x0 + w <= length crow)%nat →
  let row := take x0 crow ++ srow ++ drop (x0 + w) crow in
  length row = length crow ∧ take w (drop x0 row) = srow.
Proof.
  intros Hs Hfit row. subst row. split.
  - rewrite !length_app, length_take, length_drop. lia.
  - rewrite drop_app_length' by (rewrite length_take; lia).
    by rewrite take_app_length'.
Qed.

Lemma assign_rows (x0 w : nat) (crows src : array2) (W : nat) :
  length crows = length src →
  Forall (λ row, length row = W) crows → Forall (λ row, length row = w) src →
  (x0 + w <= W)%nat →
  let rows := zip_with (λ crow srow, take x0 crow ++ srow ++ drop (x0 + w) crow)
                       crows src in
  Forall (λ row, length row = W) rows ∧ map (λ row, take w (drop x0 row)) rows = src.
Proof.
  intros Hlen Hc Hs Hfit. cbn.
  revert src Hlen Hs. induction Hc as [|crow crows Hcrow _ IH]; intros [|srow src] Hlen Hs;
    try done.
  apply Forall_cons in Hs as [Hsrow Hs]. cbn in Hlen.
  destruct (IH src) as [IH1 IH2]; [lia|done|].
  destruct (assign_row x0 w crow srow) as [Hr1 Hr2]; [done|lia|].
  cbn. split.
  - apply Forall_cons. split; [lia|done].
  - by rewrite Hr2, IH2.
Qed.

Lemma assign_block_fits (H W : nat) (canvas src : array2) (y0 x0 h w : Z) :
  has_shape H W canvas → has_shape (Z.to_nat h) (Z.to_nat w) src →
  0 <= y0 → 0 <= x0 → 0 <= h → 0 <= w →
  y0 + h <= Z.of_nat H → x0 + w <= Z.of_nat W →
  ∃ canvas',
    assign_block canvas y0 x0 h w src = Ok canvas' ∧
    has_shape H W canvas' ∧
    np.slice2 y0 (y0 + h) x0 (x0 + w) canvas' = src.
Proof.
  intros Hc Hs ? ? ? ? ? ?. unfold assign_block.
  assert (same_shape (np.slice2 y0 (y0 + h) x0 (x0 + w) canvas) src = true) as ->.
  { apply bool_decide_eq_true.
    rewrite (has_shape_lengths _ _ _ Hs).
    erewrite has_shape_lengths; [|apply (has_shape_slice2 H W); [done|lia..]].
    f_equal; lia. }
  eexists; split; [reflexivity|].
  destruct Hc as [HlenC HrowsC], Hs as [HlenS HrowsS].
  set (crows := np.slice y0 (y0 + h) canvas).
  assert (length crows = length src) as Hlen.
  { unfold crows. rewrite length_slice; lia. }
  destruct (assign_rows (Z.to_nat x0) (Z.to_nat w) crows src W) as [Hr1 Hr2];
    [done| |done|lia|].
  { unfold crows, np.slice. by apply Forall_take, Forall_drop. }
  replace (Z.to_nat (x0 + w)) with (Z.to_nat x0 + Z.to_nat w)%nat by lia.
  set (rows := zip_with _ crows src) in *.
  assert (length rows = Z.to_nat h) as Hrows.
  { unfold rows. rewrite length_zip_with. lia. }
  split; [split|].
  - rewrite !length_app, length_take, length_drop. lia.
  - rewrite !Forall_app. split_and!; [by apply Forall_take|done|by apply Forall_drop].
  - unfold np.slice2.
    assert (np.slice y0 (y0 + h) (take (Z.to_nat y0) canvas ++ rows
              ++ drop (Z.to_nat (y0 + h)) canvas) = rows) as ->.
    { unfold np.slice.
      rewrite drop_app_length' by (rewrite length_take; lia).
      replace (Z.to_nat (y0 + h - y0)) with (length rows) by lia.
      by rewrite take_app_length. }
    etrans; [|exact Hr2].
    apply map_ext. intros row. unfold np.slice. do 2 f_equal. lia.
Qed.

Lemma slice_full {A} (stop : Z) (l : list A) :
  length l = Z.to_nat stop → np.slice 0 stop l = l.
Proof.
  intros Hlen. unfold np.slice. rewrite Z.sub_0_r. change (Z.to_nat 0) with 0%nat.
  rewrite drop_0. apply take_ge. lia.
Qed.

Lemma slice2_full (h w : Z) (a : array2) :
  has_shape (Z.to_nat h) (Z.to_nat w) a → np.slice2 0 h 0 w a = a.
Proof.
  intros [Hlen Hrows]. unfold np.slice2. rewrite slice_full by done. clear Hlen.
  induction Hrows as [|row a Hrow _ IH]; [done|].
  cbn [map]. by rewrite slice_full, IH.
Qed.

Lemma canvas_placement_fits (new_h new_w : Z) :
  1 <= new_h <= 20 → 1 <= new_w <= 20 →
  ∃ y_offset x_offset,
    canvas_placement new_h new_w = (y_offset, x_offset, new_h, new_w) ∧
    4 <= y_offset ∧ 4 <= x_offset ∧
    y_offset + new_h <= 28 ∧ x_offset + new_w <= 28.
Proof.
  intros Hh Hw. unfold canvas_placement.
  assert (4 <= (28 - new_h) `div` 2 ∧ (28 - new_h) `div` 2 + new_h <= 28) as [? ?]
    by (Z.div_mod_to_equations; lia).
  assert (4 <= (28 - new_w) `div` 2 ∧ (28 - new_w) `div` 2 + new_w <= 28) as [? ?]
    by (Z.div_mod_to_equations; lia).
  exists (Z.max 0 ((28 - new_h) `div` 2)), (Z.max 0 ((28 - new_w) `div` 2)).
  split; [|lia]. repeat f_equal; lia.
Qed.

(** C10.  For a digit region of positive height and width, the dimensions
    it is resized to both lie in [1, 20], the one of the longer side being
    20; the placement offsets [(28 - dim) // 2] are then at least 4, the
    clamped copy sizes are the dimensions themselves, and a resized digit
    of these dimensions is written onto the 28x28 canvas whole. *)
Theorem resized_digit_fits_canvas (f64 : Q → Q) (digit_h digit_w : Z) :
  IEEE_rounding f64 → 0 < digit_h → 0 < digit_w →
  ∃ new_h new_w y_offset x_offset,
    resized_dimensions f64 digit_h digit_w = Ok (new_h, new_w) ∧
    1 <= new_h <= 20 ∧ 1 <= new_w <= 20 ∧
    (if bool_decide (digit_h > digit_w) then new_h = 20 else new_w = 20) ∧
    canvas_placement new_h new_w = (y_offset, x_offset, new_h, new_w) ∧
    4 <= y_offset ∧ 4 <= x_offset ∧
    y_offset + new_h <= 28 ∧ x_offset + new_w <= 28 ∧
    ∀ digit_resized,
      has_shape (Z.to_nat new_h) (Z.to_nat new_w) digit_resized →
      ∃ canvas,
        assign_block (np.zeros 28 28) y_offset x_offset new_h new_w
          (np.slice2 0 new_h 0 new_w digit_resized) = Ok canvas ∧
        has_shape 28 28 canvas ∧
        np.slice2 y_offset (y_offset + new_h) x_offset (x_offset + new_w) canvas
          = digit_resized.
Proof.
  intros Hf64 Hh Hw.
  assert (∃ new_h new_w,
    resized_dimensions f64 digit_h digit_w = Ok (new_h, new_w) ∧
    1 <= new_h <= 20 ∧ 1 <= new_w <= 20 ∧
    (if bool_decide (digit_h > digit_w) then new_h = 20 else new_w = 20))
    as (new_h & new_w & Hdims & Hnh & Hnw & Hlong).
  { case_bool_decide as Hcmp.
    - destruct (resized_dimensions_tall f64 Hf64 digit_h digit_w) as (new_w & ? & ?);
        [lia..|]. exists 20, new_w. split_and!; [done|lia..|done].
    - destruct (resized_dimensions_wide f64 Hf64 digit_h digit_w) as (new_h & ? & ?);
        [lia..|]. exists new_h, 20. split_and!; [done|lia..|done]. }
  destruct (canvas_placement_fits new_h new_w) as (y_offset & x_offset & Hpl & ? & ? & ? & ?);
    [done..|].
  exists new_h, new_w, y_offset, x_offset.
  do 9 (split; [done|]).
  intros digit_resized Hshape.
  rewrite slice2_full by done.
  apply (assign_block_fits 28 28); [apply (has_shape_zeros 28 28)|done|lia..].
Qed.

Lemma resized_digit_fits_canvas_witness :
  IEEE_rounding Reference.exact ∧ 0 < 30 ∧ 0 < 12 ∧
  ∃ new_h new_w y_offset x_offset,
    resized_dimensions Reference.exact 30 12 = Ok (new_h, new_w) ∧
    1 <= new_h <= 20 ∧ 1 <= new_w <= 20 ∧
    canvas_placement new_h new_w = (y_offset, x_offset, new_h, new_w) ∧
    4 <= y_offset ∧ 4 <= x_offset.
Proof.
  split_and!; [exact exact_is_rounding|lia|lia|].
  destruct (resized_digit_fits_canvas Reference.exact 30 12 exact_is_rounding)
    as (new_h & new_w & y_offset & x_offset & ? & ? & ? & _ & ? & ? & ? & _);
    [lia|lia|].
  by exists new_h, new_w, y_offset, x_offset.
Defined.

(** ** Reasoning about computations *)

Lemma outcome_bind_Ok {A B} (m : M A) (f : A → M B) (b : B) :
  outcome (m ≫= f) = Ok b → ∃ a, outcome m = Ok a ∧ outcome (f a) = Ok b.
Proof.
  destruct m as [l [a|e]]; cbn; [|done].
  intros Hb. exists a. split; [done|]. by destruct (f a).
Qed.

Lemma bind_Ok {A B} (m : M A) (f : A → M B) (l : list string) (a : A) :
  m = (l, Ok a) → m ≫= f = (l ++ log (f a), outcome (f a)).
Proof. intros ->. cbn. by destruct (f a). Qed.

Lemma bind_Raise {A B} (m : M A) (f : A → M B) (l : list string) (e : exn) :
  m = (l, Raise e) → m ≫= f = (l, Raise e).
Proof. by intros ->. Qed.

Lemma outcome_lift {A} (r : result A) : outcome (lift r) = r.
Proof. done. Qed.

Lemma outcome_call {A} (name : string) (r : result A) : outcome (call name r) = r.
Proof. done. Qed.

Lemma outcome_mret {A} (a : A) : outcome (mret a : M A) = Ok a.
Proof. done. Qed.

(** Running a computation step by step. *)
Lemma run_bind_Ok {A B} (m : M A) (f : A → M B) (a : A) (l1 l2 : list string)
    (r : result B) :
  m = (l1, Ok a) → f a = (l2, r) → m ≫= f = (l1 ++ l2, r).
Proof. intros -> Hf. cbn. by rewrite Hf. Qed.

Lemma run_bind_Raise {A B} (m : M A) (f : A → M B) (e : exn) (l : list string) :
  m = (l, Raise e) → m ≫= f = (l, Raise e).
Proof. by intros ->. Qed.

Lemma run_call_Ok {A B} (name : string) (r : result A) (f : A → M B) (a : A)
    (l : list string) (res : result B) :
  r = Ok a → f a = (l, res) → call name r ≫= f = (name :: l, res).
Proof. intros -> Hf. cbn. by rewrite Hf. Qed.

Lemma run_call_Raise {A B} (name : string) (r : result A) (f : A → M B) (e : exn) :
  r = Raise e → call name r ≫= f = ([name], Raise e).
Proof. by intros ->. Qed.

Lemma run_lift_Ok {A B} (r : result A) (f : A → M B) (a : A) (m : M B) :
  r = Ok a → f a = m → lift r ≫= f = m.
Proof. intros -> <-. cbn. by destruct (f a). Qed.

Lemma run_lift_Raise {A B} (r : result A) (f : A → M B) (e : exn) :
  r = Raise e → lift r ≫= f = ([], Raise e).
Proof. by intros ->. Qed.

Lemma run_mret {A B} (a : A) (f : A → M B) (m : M B) :
  f a = m → mret a ≫= f = m.
Proof. intros <-. cbn. by destruct (f a). Qed.

(** One step of a computation that ended normally: its first action ended
    normally too. *)
Ltac bind_inv H :=
  let a := fresh "a" in
  let Ha := fresh "Ha" in
  apply outcome_bind_Ok in H as (a & Ha & H);
  first [rewrite outcome_lift in Ha | rewrite outcome_call in Ha | idtac].

(** ** Steps 12 and 13: intensities *)

Lemma astype_uint8_range (x : Q) : 0 <= astype_uint8 x <= 255.
Proof. unfold astype_uint8. pose proof (Z.mod_pos_bound (trunc x) 256). lia. Qed.

Lemma renormalize_uint8 (f32 : Q → Q) (h w : nat) (canvas_max : Z) (canvas : array2) :
  has_shape h w canvas → is_uint8_image h w (renormalize f32 canvas_max canvas).
Proof.
  intros [Hlen Hrows]. unfold renormalize. split; [by rewrite length_map|].
  apply Forall_map. eapply Forall_impl; [exact Hrows|]. intros row Hrow. cbn in *.
  split; [by rewrite length_map|].
  apply Forall_map, Forall_true. intros v. apply astype_uint8_range.
Qed.

Lemma is_uint8_image_shape (h w : nat) (a : array2) :
  is_uint8_image h w a → has_shape h w a.
Proof.
  intros [Hlen Hrows]. split; [done|].
  eapply Forall_impl; [exact Hrows|]. by intros row [? _].
Qed.

Section Intensities.

Variable f32 : Q → Q.
Hypothesis Hf32 : IEEE_rounding f32.

(** The cast of step 12 never wraps: the rescaled value is already within
    [0, 255]. *)
Lemma renormalize_in_range (v canvas_max : Z) :
  0 <= v <= canvas_max → 0 < canvas_max → canvas_max <= 255 →
  0 <= trunc (f32 (f32 (inject_Z v / inject_Z canvas_max) * 255)) <= 255.
Proof.
  intros Hv Hpos Hmax.
  destruct (Qdiv_le_1 v canvas_max) as [H0 H1]; [lia..|].
  apply (rnd_ge_int _ Hf32 _ 0) in H0; [|done].
  apply (rnd_le_int _ Hf32 _ 1) in H1; [|done].
  set (r := f32 (inject_Z v / inject_Z canvas_max)) in *.
  change (inject_Z 0) with 0%Q in H0. change (inject_Z 1) with 1%Q in H1.
  apply trunc_range; [lia|]. split.
  - apply (rnd_ge_int _ Hf32 _ 0); [done|]. change (inject_Z 0) with 0%Q. lra.
  - apply (rnd_le_int _ Hf32 _ 255); [done|]. change (inject_Z 255) with 255%Q. lra.
Qed.

Lemma scale_pixel_range (v : Z) :
  0 <= v <= 255 → (0 <= f32 (inject_Z v / 255) <= 1)%Q.
Proof.
  intros Hv. destruct (Qdiv_le_1 v 255) as [H0 H1]; [lia..|].
  change (inject_Z 255) with 255%Q in *. split.
  - by apply (rnd_ge_int _ Hf32 _ 0).
  - by apply (rnd_le_int _ Hf32 _ 1).
Qed.

Lemma scale_to_unit_tensor (canvas : array2) :
  is_uint8_image 28 28 canvas →
  let t := np.expand_dims_0_last (scale_to_unit f32 canvas) in
  np.has_shape4 1 28 28 1 t ∧ Forall (λ x, (0 <= x <= 1)%Q) (np.entries4 t).
Proof.
  intros [Hlen Hrows] t. subst t. unfold np.expand_dims_0_last, scale_to_unit. split.
  - split; [done|]. apply Forall_singleton. split.
    + by rewrite !length_map.
    + do 2 apply Forall_map.
      eapply Forall_impl; [exact Hrows|]. intros row [Hrow _]. cbn beta.
      split; [by rewrite !length_map|].
      do 2 apply Forall_map. by apply Forall_true.
  - unfold np.entries4. do 3 apply Forall_concat.
    apply Forall_singleton. do 2 apply Forall_map.
    eapply Forall_impl; [exact Hrows|]. intros row [_ Hpx]. cbn beta.
    do 2 apply Forall_map.
    eapply Forall_impl; [exact Hpx|]. intros v Hv. cbn beta.
    apply Forall_singleton. by apply scale_pixel_range.
Qed.

End Intensities.

Lemma zeros_tensor_ok :
  np.has_shape4 1 28 28 1 np.zeros_1_28_28_1 ∧
  Forall (λ x, (0 <= x <= 1)%Q) (np.entries4 np.zeros_1_28_28_1).
Proof.
  split.
  - split; [done|]. apply Forall_singleton. split; [done|].
    apply Forall_replicate. split; [done|]. by apply Forall_replicate.
  - unfold np.entries4. do 3 apply Forall_concat.
    apply Forall_singleton, Forall_replicate, Forall_replicate, Forall_singleton.
    split; discriminate.
Qed.

(** ** The canvas keeps its shape *)

Lemma assign_rows_length (x0 w : Z) (W : nat) (crows src : array2) :
  0 <= x0 → 0 <= w →
  length <$> (np.slice x0 (x0 + w) <$> crows) = length <$> src →
  Forall (λ row, length row = W) crows →
  Forall (λ row, length row = W)
    (zip_with (λ crow srow,
       take (Z.to_nat x0) crow ++ srow ++ drop (Z.to_nat (x0 + w)) crow) crows src).
Proof.
  intros Hx0 Hw. revert src.
  induction crows as [|crow crows IH]; intros [|srow src] Hlen Hc; try done.
  cbn in Hlen. injection Hlen as Hrow Hlen.
  apply Forall_cons in Hc as [Hcrow Hc]. cbn. apply Forall_cons. split.
  - unfold np.slice in Hrow. rewrite length_take, length_drop in Hrow.
    rewrite !length_app, length_take, length_drop. lia.
  - by apply IH.
Qed.

Lemma assign_block_shape (H W : nat) (canvas src canvas' : array2) (y0 x0 h w : Z) :
  has_shape H W canvas → 0 <= y0 → 0 <= x0 → 0 <= h → 0 <= w →
  assign_block canvas y0 x0 h w src = Ok canvas' → has_shape H W canvas'.
Proof.
  intros [Hlen Hrows] ? ? ? ?. unfold assign_block.
  destruct (same_shape _ src) eqn:Hshape; [|done]. intros [= <-].
  apply bool_decide_eq_true in Hshape. unfold np.slice2 in Hshape.
  pose proof (f_equal length Hshape) as Hcount.
  rewrite !length_fmap in Hcount. unfold np.slice in Hcount at 1.
  rewrite length_take, length_drop in Hcount.
  split.
  - rewrite !length_app, length_take, length_zip_with, length_drop.
    unfold np.slice. rewrite length_take, length_drop. lia.
  - rewrite !Forall_app. split_and!; [by apply Forall_take| |by apply Forall_drop].
    apply assign_rows_length; [done..|].
    by apply Forall_take, Forall_drop.
Qed.

Lemma resized_dimensions_pos (f64 : Q → Q) (digit_h digit_w new_h new_w : Z) :
  resized_dimensions f64 digit_h digit_w = Ok (new_h, new_w) →
  1 <= new_h ∧ 1 <= new_w.
Proof.
  unfold resized_dimensions. destruct (int_truediv _ _ _); [|done].
  case_bool_decide; [intros [= <- <-]; lia|].
  destruct (float_truediv _ _ _); [|done]. intros [= <- <-]. lia.
Qed.

Lemma canvas_placement_nonneg (new_h new_w y_offset x_offset copy_h copy_w : Z) :
  1 <= new_h → 1 <= new_w →
  canvas_placement new_h new_w = (y_offset, x_offset, copy_h, copy_w) →
  0 <= y_offset ∧ 0 <= x_offset ∧ 0 <= copy_h ∧ 0 <= copy_w.
Proof.
  intros Hh Hw. unfold canvas_placement. intros [= <- <- <- <-].
  assert ((28 - new_h) `div` 2 <= 13 ∧ (28 - new_w) `div` 2 <= 13) as [? ?]
    by (Z.div_mod_to_equations; lia).
  lia.
Qed.

Lemma center_digit_by_mass_shape (cv : cv2_api) (f32 f64 : Q → Q)
    (canvas canvas' : array2) :
  warpAffine_returns_dsize cv → has_shape 28 28 canvas →
  outcome (center_digit_by_mass cv f32 f64 canvas) = Ok canvas' →
  has_shape 28 28 canvas'.
Proof.
  intros Hwarp Hshape. unfold center_digit_by_mass.
  destruct (center_of_mass f64 canvas) as [[cy|] [cx|]]; cbn; try by intros [= <-].
  intros Hcall. by apply is_uint8_image_shape, (Hwarp _ _ 28 28 _ _ _ Hcall).
Qed.

(** ** The output of the pipeline *)

Lemma canonical_tensor_canonical (cv : cv2_api) (f32 f64 : Q → Q)
    (img_array binary : array2) (t : tensor4) :
  IEEE_rounding f32 → warpAffine_returns_dsize cv → GaussianBlur_keeps_shape cv →
  outcome (canonical_tensor cv f32 f64 img_array binary) = Ok t →
  canonical t.
Proof.
  intros Hf32 Hwarp Hblur H. unfold canonical_tensor in H.
  bind_inv H. bind_inv H.
  case_bool_decide; [injection H as <-; apply zeros_tensor_ok|].
  destruct (np.shape img_array) as [h w].
  destruct (np.shape _) as [digit_h digit_w].
  bind_inv H. destruct a1 as [new_h new_w]. rename Ha1 into Hdims.
  bind_inv H. rename a1 into digit_resized.
  destruct (canvas_placement new_h new_w) as [[[y_offset x_offset] copy_h] copy_w] eqn:Hpl.
  bind_inv H. rename a1 into canvas, Ha2 into Hassign.
  bind_inv H. rename a1 into centered, Ha2 into Hcenter.
  bind_inv H. rename a1 into blurred, Ha2 into Hblurred.
  bind_inv H. rename a1 into canvas_max.
  injection H as <-.
  apply resized_dimensions_pos in Hdims as [Hnh Hnw].
  destruct (canvas_placement_nonneg _ _ _ _ _ _ Hnh Hnw Hpl) as (? & ? & ? & ?).
  assert (has_shape 28 28 canvas) as Hcanvas.
  { eapply assign_block_shape; [apply (has_shape_zeros 28 28)| | | | |exact Hassign]; done. }
  assert (has_shape 28 28 centered) as Hcentered
    by (by eapply center_digit_by_mass_shape).
  pose proof (Hblur _ _ _ _ _ _ Hcentered Hblurred) as Hu8.
  apply scale_to_unit_tensor; [done|].
  destruct (bool_decide (canvas_max > 0)); [|exact Hu8].
  by apply renormalize_uint8, is_uint8_image_shape.
Qed.

Lemma preprocess_try_canonical (cv : cv2_api) (f32 f64 : Q → Q)
    (image : pil_image) (t : tensor4) :
  IEEE_rounding f32 → warpAffine_returns_dsize cv → GaussianBlur_keeps_shape cv →
  outcome (preprocess_try cv f32 f64 image) = Ok t → canonical t.
Proof.
  intros Hf32 Hwarp Hblur H. unfold preprocess_try in H.
  bind_inv H. destruct a as [img_array binary].
  destruct (bool_decide (countNonZero binary < 10)).
  - injection H as <-. apply zeros_tensor_ok.
  - by eapply canonical_tensor_canonical.
Qed.

Lemma preprocess_for_mnist_cases (cv : cv2_api) (f32 f64 : Q → Q) (image : pil_image) :
  (∃ l t, preprocess_try cv f32 f64 image = (l, Ok t) ∧
          preprocess_for_mnist cv f32 f64 image = (l, Ok t)) ∨
  (∃ l e, preprocess_try cv f32 f64 image = (l, Raise e) ∧
          preprocess_for_mnist cv f32 f64 image
          = (l ++ ["print: Preprocessing error: " +:+ exn_msg e],
             Ok np.zeros_1_28_28_1)).
Proof.
  unfold preprocess_for_mnist, try_except.
  destruct (preprocess_try cv f32 f64 image) as [l [t|e]]; [left|right]; eauto.
Qed.

(** C1.  Whatever the input image, [preprocess_for_mnist] returns an array
    of shape (1, 28, 28, 1) of floats that all lie in [0, 1]: after the
    full pipeline, after the early exit, and after an exception. *)
Theorem preprocess_output_canonical (cv : cv2_api) (f32 f64 : Q → Q)
    (image : pil_image) :
  IEEE_rounding f32 → warpAffine_returns_dsize cv → GaussianBlur_keeps_shape cv →
  ∃ t, outcome (preprocess_for_mnist cv f32 f64 image) = Ok t ∧
       np.has_shape4 1 28 28 1 t ∧
       Forall (λ x, (0 <= x <= 1)%Q) (np.entries4 t).
Proof.
  intros Hf32 Hwarp Hblur.
  destruct (preprocess_for_mnist_cases cv f32 f64 image)
    as [(l & t & Htry & ->)|(l & e & Htry & ->)].
  - exists t. split; [done|].
    apply (preprocess_try_canonical cv f32 f64 image); [done..|]. by rewrite Htry.
  - exists np.zeros_1_28_28_1. split; [done|]. apply zeros_tensor_ok.
Qed.

(** C2.  [preprocess_for_mnist] never raises: it returns an array, and when
    the body of its [try] block raises, the array is the all-zero one. *)
Theorem preprocess_never_raises (cv : cv2_api) (f32 f64 : Q → Q) (image : pil_image) :
  ∃ t, outcome (preprocess_for_mnist cv f32 f64 image) = Ok t ∧
       ∀ e, outcome (preprocess_try cv f32 f64 image) = Raise e →
            t = np.zeros_1_28_28_1.
Proof.
  destruct (preprocess_for_mnist_cases cv f32 f64 image)
    as [(l & t & Htry & ->)|(l & e & Htry & ->)].
  - exists t. split; [done|]. rewrite Htry. by intros e [=].
  - by exists np.zeros_1_28_28_1.
Qed.

(** ** The reference instance meets the assumptions *)

Lemma length_shift {A} (zero : A) (s : Z) (l : list A) :
  length (shift zero s l) = length l.
Proof.
  unfold shift. case_bool_decide;
    rewrite length_app, length_replicate; [rewrite length_take|rewrite length_drop]; lia.
Qed.

Lemma Forall_shift {A} (P : A → Prop) (zero : A) (s : Z) (l : list A) :
  (l ≠ [] → P zero) → Forall P l → Forall P (shift zero s l).
Proof.
  intros Hz Hl. destruct l as [|x l].
  { unfold shift. cbn [length]. rewrite !Nat.min_0_r.
    case_bool_decide; cbn; rewrite ?take_nil, ?drop_nil; constructor. }
  specialize (Hz ltac:(done)).
  unfold shift. case_bool_decide; apply Forall_app; split;
    auto using Forall_replicate, Forall_take, Forall_drop.
Qed.

Lemma has_shape_translate (H W : nat) (shift_x shift_y : Z) (src : array2) :
  has_shape H W src → has_shape H W (translate shift_x shift_y src).
Proof.
  intros [Hlen Hrows]. unfold translate. split.
  - by rewrite length_shift, length_map.
  - apply Forall_shift.
    + destruct src as [|row src]; [done|]. intros _. cbn.
      apply Forall_cons in Hrows as [Hrow _]. by rewrite length_replicate.
    + apply Forall_map. eapply Forall_impl; [exact Hrows|].
      intros row Hrow. cbn. by rewrite length_shift.
Qed.

Lemma saturate_range (v : Z) : 0 <= Reference.saturate v <= 255.
Proof. unfold Reference.saturate. lia. Qed.

Lemma saturate_uint8 (v : Z) : 0 <= v <= 255 → Reference.saturate v = v.
Proof. unfold Reference.saturate. lia. Qed.

Lemma saturated_image (h w : nat) (a : array2) :
  has_shape h w a → is_uint8_image h w (map (map Reference.saturate) a).
Proof.
  intros [Hlen Hrows]. split; [by rewrite length_map|].
  apply Forall_map. eapply Forall_impl; [exact Hrows|]. intros row Hrow. cbn in *.
  split; [by rewrite length_map|].
  apply Forall_map, Forall_true. intros v. apply saturate_range.
Qed.

Lemma has_shape_width (h w : nat) (a : array2) :
  has_shape h w a → a ≠ [] → Reference.width a = Z.of_nat w.
Proof.
  intros [_ Hrows] Hne. destruct a as [|row a]; [done|].
  apply Forall_cons in Hrows as [<- _]. done.
Qed.

Lemma reference_warpAffine_returns_dsize : warpAffine_returns_dsize Reference.cv2.
Proof.
  intros src M w h b v dst. cbn. unfold Reference.warpAffine.
  destruct M as [|[|m00 [|m01 [|tx [|]]]] [|[|m10 [|m11 [|ty [|]]]] [|]]]; try done.
  destruct b; try done. destruct v; try done.
  destruct (_ && _) eqn:Hok; [|done]. intros [= <-].
  repeat (apply andb_prop in Hok as [Hok ?]).
  repeat match goal with H : bool_decide _ = true |- _ => apply bool_decide_eq_true in H end.
  match goal with H : (w, h) = _ |- _ => injection H as -> -> end.
  apply saturated_image, has_shape_translate. unfold Reference.height.
  split; [lia|]. eapply Forall_impl; [eassumption|]. intros row Hrow. cbn in *. lia.
Qed.

Lemma is_uint8_imap2 (h w : nat) (f : nat → nat → Z → Z) (a : array2) :
  has_shape h w a →
  is_uint8_image h w (imap (λ y row, imap (λ x v, Reference.saturate (f y x v)) row) a).
Proof.
  unfold array2 in *.
  intros [Hlen Hrows]. split; [by rewrite length_imap|].
  apply Forall_lookup. intros y row' Hy.
  rewrite list_lookup_imap in Hy.
  destruct (a !! y) as [row|] eqn:Hrow; cbn in Hy; [|done]. injection Hy as <-.
  rewrite Forall_lookup in Hrows. specialize (Hrows _ _ Hrow). cbn in Hrows.
  split; [by rewrite length_imap|].
  apply Forall_lookup. intros x v' Hx. rewrite list_lookup_imap in Hx.
  destruct (row !! x) as [v|]; cbn in Hx; [|done]. injection Hx as <-.
  apply saturate_range.
Qed.

Lemma reference_GaussianBlur_keeps_shape : GaussianBlur_keeps_shape Reference.cv2.
Proof.
  intros src ksize sigmaX dst h w Hshape. cbn. unfold Reference.GaussianBlur.
  case_bool_decide; [|done]. intros [= <-].
  by apply (is_uint8_imap2 h w (λ y x _, _)).
Qed.

Lemma preprocess_output_canonical_witness :
  IEEE_rounding Reference.exact ∧
  warpAffine_returns_dsize Reference.cv2 ∧
  GaussianBlur_keeps_shape Reference.cv2 ∧
  ∃ t, outcome (preprocess_for_mnist Reference.cv2 Reference.exact Reference.exact
                  (ImageL (blank_image 12 0))) = Ok t ∧
       np.has_shape4 1 28 28 1 t ∧
       Forall (λ x, (0 <= x <= 1)%Q) (np.entries4 t).
Proof.
  split_and!;
    [ exact exact_is_rounding
    | exact reference_warpAffine_returns_dsize
    | exact reference_GaussianBlur_keeps_shape
    | exact (preprocess_output_canonical Reference.cv2 Reference.exact Reference.exact
               (ImageL (blank_image 12 0)) exact_is_rounding
               reference_warpAffine_returns_dsize reference_GaussianBlur_keeps_shape) ].
Defined.

(** ** The early exit *)

Lemma Forall_log_bind {A B} (P : string → Prop) (m : M A) (f : A → M B) :
  Forall P (log m) → (∀ a, outcome m = Ok a → Forall P (log (f a))) →
  Forall P (log (m ≫= f)).
Proof.
  destruct m as [l [a|e]]; cbn; [|done].
  intros Hl Hf. specialize (Hf a eq_refl). destruct (f a) as [l' r]. cbn in *.
  by apply Forall_app.
Qed.

Lemma mask_step (name : string) {A} (r : result A) :
  name ∈ mask_steps → Forall (λ c, c ∈ mask_steps) (log (call name r)).
Proof. intros. by apply Forall_singleton. Qed.

Local Ltac in_steps := apply mask_step; unfold mask_steps; rewrite !elem_of_cons; tauto.

Lemma foreground_mask_log (cv : cv2_api) (f32 f64 : Q → Q) (image : pil_image) :
  Forall (λ c, c ∈ mask_steps) (log (foreground_mask cv f32 f64 image)).
Proof.
  unfold foreground_mask, mask_steps.
  apply Forall_log_bind.
  { destruct image; [constructor|in_steps]. }
  intros img_array _. apply Forall_log_bind; [in_steps|].
  intros img_enhanced _. apply Forall_log_bind.
  { unfold adaptive_threshold. apply Forall_log_bind; [in_steps|].
    intros otsu _. destruct (_ || _); [in_steps|constructor]. }
  intros binary _. apply Forall_log_bind; [|constructor].
  unfold remove_small_components. apply Forall_log_bind; [in_steps|].
  intros [[num_labels labels] stats] _.
  repeat case_bool_decide; try constructor. destruct (same_shape _ _); constructor.
Qed.

(** C5.  When fewer than 10 foreground pixels survive noise suppression,
    [preprocess_for_mnist] returns the all-zero array at once: the only
    library calls made are those of the steps up to noise suppression, none
    of gap closing, resize, centering or blur. *)
Theorem early_exit_on_small_mask (cv : cv2_api) (f32 f64 : Q → Q)
    (image : pil_image) (l : list string) (img_array binary : array2) :
  foreground_mask cv f32 f64 image = (l, Ok (img_array, binary)) →
  countNonZero binary < 10 →
  preprocess_for_mnist cv f32 f64 image = (l, Ok np.zeros_1_28_28_1) ∧
  Forall (λ c, c ∈ mask_steps) l ∧
  ∀ c, c ∈ later_steps → c ∉ l.
Proof.
  intros Hmask Hcount.
  pose proof (foreground_mask_log cv f32 f64 image) as Hlog. rewrite Hmask in Hlog.
  cbn in Hlog. split_and!; [|done|].
  - unfold preprocess_for_mnist, preprocess_try. rewrite Hmask. cbn.
    rewrite bool_decide_eq_true_2 by done. cbn. by rewrite app_nil_r.
  - intros c Hlater Hc. rewrite Forall_forall in Hlog. specialize (Hlog c Hc).
    unfold mask_steps, later_steps in *.
    rewrite !elem_of_cons, elem_of_nil in Hlog, Hlater.
    destruct Hlater as [->|[->|[->|[->|[->|[]]]]]];
      by repeat destruct Hlog as [Hlog|Hlog].
Qed.

Lemma early_exit_on_small_mask_witness :
  ∃ l img_array binary,
    foreground_mask Reference.cv2 Reference.exact Reference.exact (ImageL dot_image)
      = (l, Ok (img_array, binary)) ∧
    countNonZero binary < 10 ∧
    preprocess_for_mnist Reference.cv2 Reference.exact Reference.exact (ImageL dot_image)
      = (l, Ok np.zeros_1_28_28_1).
Proof.
  eexists _, _, _.
  assert (∀ m l r, m = (l, r) →
    foreground_mask Reference.cv2 Reference.exact Reference.exact (ImageL dot_image) = m →
    foreground_mask Reference.cv2 Reference.exact Reference.exact (ImageL dot_image) = (l, r))
    as Heval by (intros ??? -> ?; done).
  split; [eapply Heval; [|vm_compute; reflexivity]; reflexivity|].
  split; [vm_compute; reflexivity|].
  eapply early_exit_on_small_mask; [vm_compute; reflexivity|vm_compute; reflexivity].
Defined.

(** ** Step 4: binarization *)

Lemma adaptive_threshold_unfold (cv : cv2_api) (f64 : Q → Q) (gray_img otsu : array2) :
  threshold cv gray_img 0 255 THRESH_BINARY_OTSU = Ok otsu →
  adaptive_threshold cv f64 gray_img =
    if float_lt (white_ratio f64 otsu) (Some (lit_0_01 f64))
       || float_lt (Some (lit_0_9 f64)) (white_ratio f64 otsu)
    then (["cv2.threshold"; "cv2.adaptiveThreshold"],
          adaptiveThreshold cv gray_img 255 ADAPTIVE_THRESH_GAUSSIAN_C THRESH_BINARY 11 2)
    else (["cv2.threshold"], Ok otsu).
Proof.
  intros Hotsu. unfold adaptive_threshold. rewrite Hotsu.
  rewrite (bind_Ok _ _ ["cv2.threshold"] otsu) by done. cbn beta.
  by destruct (_ || _).
Qed.

Lemma Qltb_false (x y : Q) : Qltb x y = false ↔ (y <= x)%Q.
Proof.
  unfold Qltb. rewrite negb_false_iff. apply Qle_bool_iff.
Qed.

(** C4, as the code has it.  The Otsu result is kept exactly when its
    foreground fraction, as the float the code computes, lies in the closed
    interval [0.01, 0.9] (or is NaN, for an empty image); otherwise the
    result is that of the Gaussian adaptive threshold with block size 11 and
    offset 2 on the same input.  In particular the Otsu result is kept when
    the exact fraction is 0.01 or 0.9. *)
Theorem otsu_kept_on_closed_interval (cv : cv2_api) (f64 : Q → Q)
    (gray_img otsu : array2) :
  threshold cv gray_img 0 255 THRESH_BINARY_OTSU = Ok otsu →
  let kept := adaptive_threshold cv f64 gray_img = (["cv2.threshold"], Ok otsu) in
  let replaced :=
    adaptive_threshold cv f64 gray_img =
      (["cv2.threshold"; "cv2.adaptiveThreshold"],
       adaptiveThreshold cv gray_img 255 ADAPTIVE_THRESH_GAUSSIAN_C THRESH_BINARY 11 2) in
  match white_ratio f64 otsu with
  | Some ratio =>
      ((lit_0_01 f64 <= ratio ∧ ratio <= lit_0_9 f64)%Q → kept) ∧
      (¬ (lit_0_01 f64 <= ratio ∧ ratio <= lit_0_9 f64)%Q → replaced)
  | None => kept
  end ∧
  (IEEE_rounding f64 → np.size otsu ≠ 0 →
   (1 # 100 <= inject_Z (np.count_positive otsu) / inject_Z (np.size otsu) <= 9 # 10)%Q →
   kept).
Proof.
  intros Hotsu kept replaced. subst kept replaced.
  rewrite (adaptive_threshold_unfold _ _ _ _ Hotsu).
  assert (∀ ratio, white_ratio f64 otsu = Some ratio →
            (lit_0_01 f64 <= ratio ∧ ratio <= lit_0_9 f64)%Q →
            float_lt (Some ratio) (Some (lit_0_01 f64))
            || float_lt (Some (lit_0_9 f64)) (Some ratio) = false) as Hin.
  { intros ratio _ [H1 H2]. cbn. apply orb_false_iff. by rewrite !Qltb_false. }
  split.
  - destruct (white_ratio f64 otsu) as [ratio|] eqn:Hratio; [|done]. split.
    + intros Hr. by rewrite Hin.
    + intros Hr. destruct (_ || _) eqn:Hcond; [done|]. exfalso. apply Hr.
      cbn in Hcond. apply orb_false_iff in Hcond. by rewrite !Qltb_false in Hcond.
  - intros Hf64 Hsize [H1 H2]. unfold white_ratio in *.
    rewrite bool_decide_eq_false_2 in * by done.
    rewrite (Hin _ eq_refl); [done|]. unfold lit_0_01, lit_0_9.
    split; by apply (rnd_mono _ Hf64).
Qed.

Lemma otsu_kept_on_closed_interval_witness :
  threshold Reference.cv2 dot_image 0 255 THRESH_BINARY_OTSU = Ok dot_image ∧
  IEEE_rounding Reference.exact ∧ np.size dot_image ≠ 0 ∧
  (1 # 100 <= inject_Z (np.count_positive dot_image) / inject_Z (np.size dot_image)
   <= 9 # 10)%Q ∧
  adaptive_threshold Reference.cv2 Reference.exact dot_image
    = (["cv2.threshold"], Ok dot_image).
Proof.
  assert (threshold Reference.cv2 dot_image 0 255 THRESH_BINARY_OTSU = Ok dot_image)
    as Hotsu by (vm_compute; reflexivity).
  assert (np.size dot_image ≠ 0) as Hsize by (by vm_compute).
  assert (1 # 100 <= inject_Z (np.count_positive dot_image) / inject_Z (np.size dot_image)
          <= 9 # 10)%Q as Hratio by (split; by vm_compute).
  do 4 (split; [first [exact Hotsu|exact exact_is_rounding|exact Hsize|exact Hratio]|]).
  exact (proj2 (otsu_kept_on_closed_interval Reference.cv2 Reference.exact
                  dot_image dot_image Hotsu) exact_is_rounding Hsize Hratio).
Defined.

(** C4 fails as stated: a foreground fraction of exactly 0.01 is not inside
    the open interval (0.01, 0.9), yet the Otsu result is kept and
    [cv2.adaptiveThreshold] is not called. *)
Lemma otsu_kept_at_one_percent :
  let fraction := (inject_Z (np.count_positive single_pixel_image)
                   / inject_Z (np.size single_pixel_image))%Q in
  threshold Reference.cv2 single_pixel_image 0 255 THRESH_BINARY_OTSU
    = Ok single_pixel_image ∧
  (fraction == 1 # 100)%Q ∧
  ¬ (1 # 100 < fraction ∧ fraction < 9 # 10)%Q ∧
  adaptive_threshold Reference.cv2 Reference.exact single_pixel_image
    = (["cv2.threshold"], Ok single_pixel_image).
Proof.
  split_and!; [vm_compute; reflexivity|by vm_compute| |vm_compute; reflexivity].
  intros [Hlt _]. by vm_compute in Hlt.
Qed.

(** ** Activation capture *)

Lemma get_layer_output_absent (model : keras_model) (name : string) :
  name ∉ (layers model).*1 →
  get_layer_output model name = Raise (Exn "ValueError" ("No such layer: " +:+ name)).
Proof.
  intros Habsent. unfold get_layer_output.
  destruct (list_find _ _) as [[i l]|] eqn:Hfind; [|done].
  apply list_find_Some in Hfind as (Hl & Hname & _). exfalso. apply Habsent.
  apply list_elem_of_fmap. exists l. split; [done|]. by eapply list_elem_of_lookup_2.
Qed.

Lemma create_feature_extraction_model_outputs (base_model : keras_model)
    (conv1 conv2 conv3 dense1 predictions : KerasTensor) :
  get_layer_output base_model "conv1" = Ok conv1 →
  get_layer_output base_model "conv2" = Ok conv2 →
  get_layer_output base_model "dense1" = Ok dense1 →
  get_layer_output base_model "predictions" = Ok predictions →
  (get_layer_output base_model "conv3" = Ok conv3 ∨
   (conv3 = conv2 ∧ ∃ msg, get_layer_output base_model "conv3"
                           = Raise (Exn "ValueError" msg))) →
  create_feature_extraction_model base_model =
    ([], Ok {| base := base_model;
               outputs := list_to_map
                 [ ("conv1", conv1); ("conv2", conv2); ("conv3", conv3);
                   ("dense1", dense1); ("predictions", predictions) ] |}).
Proof.
  intros H1 H2 Hd Hp H3. unfold create_feature_extraction_model.
  rewrite H1, H2, Hd, Hp.
  destruct H3 as [->|[-> [msg ->]]]; reflexivity.
Qed.

Lemma get_layer_activations_of (fm_base : keras_model) (input_image : tensor4)
    (values : KerasTensor → ndarray)
    (conv1 conv2 conv3 dense1 predictions : KerasTensor) :
  forward fm_base input_image = Ok values →
  get_layer_activations
    {| base := fm_base;
       outputs := list_to_map
         [ ("conv1", conv1); ("conv2", conv2); ("conv3", conv3);
           ("dense1", dense1); ("predictions", predictions) ] |} input_image
  = (["Model.predict"],
     Ok (list_to_map
           [ ("conv1", values conv1); ("conv2", values conv2);
             ("conv3", values conv3); ("dense1", values dense1);
             ("predictions", values predictions) ])).
Proof.
  intros Hforward. unfold get_layer_activations, predict. cbn [base outputs].
  rewrite Hforward. reflexivity.
Qed.

(** C8.  For a model that has the layers [conv1], [conv2], [dense1] and
    [predictions], activation capture returns a dict with exactly the five
    keys; under [conv3] it holds the output of [conv2] when the model has no
    layer [conv3], and the output of [conv3] when it has one. *)
Theorem activations_conv3_fallback (base_model : keras_model) (input_image : tensor4)
    (values : KerasTensor → ndarray) (conv1 conv2 dense1 predictions : KerasTensor) :
  get_layer_output base_model "conv1" = Ok conv1 →
  get_layer_output base_model "conv2" = Ok conv2 →
  get_layer_output base_model "dense1" = Ok dense1 →
  get_layer_output base_model "predictions" = Ok predictions →
  forward base_model input_image = Ok values →
  ∃ fm (acts : gmap string ndarray),
    outcome (create_feature_extraction_model base_model) = Ok fm ∧
    outcome (get_layer_activations fm input_image) = Ok acts ∧
    dom acts = list_to_set ["conv1"; "conv2"; "conv3"; "dense1"; "predictions"] ∧
    acts !! "conv2" = Some (values conv2) ∧
    ("conv3" ∉ (layers base_model).*1 → acts !! "conv3" = Some (values conv2)) ∧
    (∀ conv3, get_layer_output base_model "conv3" = Ok conv3 →
              acts !! "conv3" = Some (values conv3)).
Proof.
  intros H1 H2 Hd Hp Hforward.
  assert (∃ conv3,
    (get_layer_output base_model "conv3" = Ok conv3 ∨
     (conv3 = conv2 ∧ ∃ msg, get_layer_output base_model "conv3"
                             = Raise (Exn "ValueError" msg))) ∧
    ("conv3" ∉ (layers base_model).*1 → conv3 = conv2) ∧
    (∀ c, get_layer_output base_model "conv3" = Ok c → conv3 = c))
    as (conv3 & Hcases & Habsent & Hpresent).
  { destruct (get_layer_output base_model "conv3") as [c|e] eqn:H3.
    - exists c. split_and!; [by left| |by intros ? [=]].
      intros Hno. apply get_layer_output_absent in Hno. congruence.
    - exists conv2. unfold get_layer_output in H3.
      destruct (list_find _ _) as [[? ?]|]; [done|]. injection H3 as <-.
      split_and!; [right; eauto|done|done]. }
  eexists _, _.
  rewrite (create_feature_extraction_model_outputs base_model conv1 conv2 conv3
             dense1 predictions) by done.
  split; [reflexivity|].
  rewrite (get_layer_activations_of base_model input_image values) by done.
  split; [reflexivity|].
  split; [by vm_compute|]. split; [reflexivity|]. split.
  - intros Hno. by rewrite (Habsent Hno).
  - intros c Hc. by rewrite <- (Hpresent c Hc).
Qed.

Lemma activations_conv3_fallback_witness :
  ("conv3" ∉ (layers old_model).*1) ∧
  ∃ fm (acts : gmap string ndarray),
    outcome (create_feature_extraction_model old_model) = Ok fm ∧
    outcome (get_layer_activations fm np.zeros_1_28_28_1) = Ok acts ∧
    dom acts = list_to_set ["conv1"; "conv2"; "conv3"; "dense1"; "predictions"] ∧
    acts !! "conv3" = Some (example_values 1%nat) ∧
    acts !! "conv2" = Some (example_values 1%nat).
Proof.
  assert ("conv3" ∉ (layers old_model).*1) as Hno.
  { cbn. rewrite !elem_of_cons, elem_of_nil. by intros [?|[?|[?|[?|[]]]]]. }
  split; [exact Hno|].
  destruct (activations_conv3_fallback old_model np.zeros_1_28_28_1 example_values
              0%nat 1%nat 3%nat 4%nat eq_refl eq_refl eq_refl eq_refl eq_refl)
    as (fm & acts & Hfm & Hacts & Hdom & H2 & H3 & _).
  exists fm, acts. split_and!; [done|done|done|by apply H3|done].
Defined.

(** ** The Grad-CAM heatmap *)

Lemma squeeze_Array (xs : list ndarray) :
  length xs ≠ 1%nat → tf.squeeze (Array xs) = Array (map tf.squeeze xs).
Proof. by destruct xs as [|x [|y xs]]. Qed.

Lemma squeeze_of_vector_singleton (x : Q) : tf.squeeze (tf.of_vector [x]) = Scalar x.
Proof. done. Qed.

Lemma squeeze_of_matrix_singletons {A} (f : A → Q) (row : list A) :
  length row ≠ 1%nat →
  tf.squeeze (tf.of_matrix (map (λ cell, [f cell]) row)) = tf.of_vector (map f row).
Proof.
  intros Hrow.
  change (tf.of_matrix ?m) with (Array (tf.of_vector <$> m)).
  rewrite squeeze_Array by (by rewrite !length_fmap).
  change (tf.of_vector ?v) with (Array (Scalar <$> v)). f_equal.
  rewrite <- !list_fmap_compose. by apply list_fmap_ext.
Qed.

Lemma squeeze_weighted_sums {A} (f : A → Q) (t : list (list A)) :
  length t ≠ 1%nat → Forall (λ row, length row ≠ 1%nat) t →
  tf.squeeze (tf.of_tensor3 (map (map (λ cell, [f cell])) t))
  = tf.of_matrix (map (map f) t).
Proof.
  intros Ht Hrows.
  change (tf.of_tensor3 ?m) with (Array (tf.of_matrix <$> m)).
  rewrite squeeze_Array by (by rewrite !length_fmap).
  change (tf.of_matrix (map (map f) t)) with (Array (tf.of_vector <$> map (map f) t)).
  f_equal. rewrite <- !list_fmap_compose.
  apply Forall_fmap_ext. eapply Forall_impl; [exact Hrows|]. intros row Hrow.
  by apply squeeze_of_matrix_singletons.
Qed.

Lemma map_entries_of_vector (f : Q → Q) (v : list Q) :
  tf.map_entries f (tf.of_vector v) = tf.of_vector (map f v).
Proof.
  unfold tf.of_vector. cbn [tf.map_entries]. f_equal.
  induction v as [|x v IH]; [done|]. cbn. by f_equal.
Qed.

Lemma map_entries_of_matrix (f : Q → Q) (m : list (list Q)) :
  tf.map_entries f (tf.of_matrix m) = tf.of_matrix (map (map f) m).
Proof.
  unfold tf.of_matrix. cbn [tf.map_entries]. f_equal.
  induction m as [|row m IH]; [done|].
  cbn [map fmap list_fmap]. by rewrite map_entries_of_vector, <- IH.
Qed.

Lemma entries_of_vector (v : list Q) : tf.entries (tf.of_vector v) = v.
Proof.
  unfold tf.of_vector. cbn [tf.entries].
  induction v as [|x v IH]; [done|]. cbn. by f_equal.
Qed.

Lemma entries_of_matrix (m : list (list Q)) : tf.entries (tf.of_matrix m) = concat m.
Proof.
  unfold tf.of_matrix. cbn [tf.entries].
  induction m as [|row m IH]; [done|].
  cbn [map fmap list_fmap concat]. by rewrite entries_of_vector, <- IH.
Qed.

Lemma shape_of_matrix (h w : nat) (m : list (list Q)) :
  length m = h → Forall (λ row, length row = w) m → (0 < h)%nat →
  tf.shape (tf.of_matrix m) = [h; w].
Proof.
  intros Hlen Hrows Hpos. destruct m as [|row m]; [cbn in Hlen; lia|].
  apply Forall_cons in Hrows as [Hrow _].
  unfold tf.of_matrix, tf.of_vector. cbn. rewrite !length_fmap.
  cbn in Hlen. rewrite Hlen, Hrow. by destruct row.
Qed.

Section Normalisation.

Variable f32 : Q → Q.
Hypothesis Hf32 : IEEE_rounding f32.

Lemma epsilon_positive : (0 < f32 epsilon)%Q.
Proof.
  apply Qlt_le_trans with (1 # 2 ^ 24)%Q; [done|].
  rewrite <- (rnd_dyadic _ Hf32 1 24) by done.
  apply (rnd_mono _ Hf32). unfold epsilon. by vm_compute.
Qed.

Lemma qmax_0_nonneg (x : Q) : (0 <= qmax x 0)%Q.
Proof.
  unfold qmax. destruct (Qle_bool x 0) eqn:Hx; [apply Qle_refl|].
  apply Qlt_le_weak, Qnot_le_lt. intros Hle. apply Qle_bool_iff in Hle. congruence.
Qed.

Lemma fsum_representable (l : list Q) : (f32 (fsum f32 l) == fsum f32 l)%Q.
Proof.
  unfold fsum.
  assert (∀ acc, (f32 acc == acc)%Q → (f32 (foldl (fadd f32) acc l) == foldl (fadd f32) acc l)%Q)
    as Hgen.
  { induction l as [|x l IH]; intros acc Hacc; [done|].
    cbn. apply IH. apply (rnd_idempotent _ Hf32). }
  apply Hgen. apply (rnd_integer _ Hf32 0). done.
Qed.

Lemma qmax_0_representable (x : Q) :
  (f32 x == x)%Q → (f32 (qmax x 0) == qmax x 0)%Q.
Proof.
  intros Hx. unfold qmax. destruct (Qle_bool x 0); [|done].
  by apply (rnd_integer _ Hf32 0).
Qed.

Lemma qmax_ge_l (x y : Q) : (x <= qmax x y)%Q.
Proof.
  unfold qmax. destruct (Qle_bool x y) eqn:H; [by apply Qle_bool_iff|apply Qle_refl].
Qed.

Lemma qmax_ge_r (x y : Q) : (y <= qmax x y)%Q.
Proof.
  unfold qmax. destruct (Qle_bool x y) eqn:H; [apply Qle_refl|].
  apply Qlt_le_weak, Qnot_le_lt. intros Hle. apply Qle_bool_iff in Hle. congruence.
Qed.

Lemma foldl_qmax_ge (l : list Q) (acc : Q) :
  (acc <= foldl qmax acc l)%Q ∧ Forall (λ x, (x <= foldl qmax acc l)%Q) l.
Proof.
  revert acc. induction l as [|x l IH]; intros acc; cbn; [split; [apply Qle_refl|done]|].
  destruct (IH (qmax acc x)) as [IH1 IH2]. split_and!.
  - eapply Qle_trans; [apply qmax_ge_l|exact IH1].
  - apply Forall_cons. split; [|done].
    eapply Qle_trans; [apply qmax_ge_r|exact IH1].
Qed.

Lemma reduce_max_ge (l : list Q) : Forall (λ x, (x <= reduce_max l)%Q) l.
Proof.
  destruct l as [|x l]; [done|]. cbn.
  destruct (foldl_qmax_ge l x) as [H1 H2]. by apply Forall_cons.
Qed.

Lemma reduce_max_nonneg (l : list Q) :
  Forall (λ x, (0 <= x)%Q) l → (0 <= reduce_max l)%Q.
Proof.
  destruct l as [|x l]; [intros _; apply Qle_refl|].
  intros Hl. apply Forall_cons in Hl as [Hx _]. cbn.
  destruct (foldl_qmax_ge l x) as [H1 _]. by eapply Qle_trans.
Qed.

(** One normalised entry: [x / (max + epsilon)] for a rectified value [x]
    that is at most [max]. *)
Lemma normalised_entry_range (x m : Q) :
  (0 <= x)%Q → (f32 x == x)%Q → (x <= m)%Q →
  (0 <= fdiv f32 x (fadd f32 m (f32 epsilon)) <= 1)%Q.
Proof.
  intros Hx Hrep Hxm. unfold fdiv, fadd.
  pose proof epsilon_positive as Heps.
  set (d := f32 (m + f32 epsilon)).
  assert (x <= d)%Q as Hxd.
  { rewrite <- Hrep. apply (rnd_mono _ Hf32). lra. }
  assert (0 < d)%Q as Hd.
  { apply Qlt_le_trans with (f32 epsilon); [done|].
    rewrite <- (rnd_idempotent _ Hf32 epsilon). apply (rnd_mono _ Hf32). lra. }
  split.
  - apply (rnd_ge_int _ Hf32 _ 0); [done|]. change (inject_Z 0) with 0%Q.
    apply Qle_shift_div_l; [done|]. lra.
  - apply (rnd_le_int _ Hf32 _ 1); [done|]. change (inject_Z 1) with 1%Q.
    apply Qle_shift_div_r; [done|]. lra.
Qed.

End Normalisation.

Lemma outcome_bind {A B} (m : M A) (f : A → M B) (a : A) :
  outcome m = Ok a → outcome (m ≫= f) = outcome (f a).
Proof. destruct m as [l [a'|e]]; cbn; [|done]. intros [= ->]. by destruct (f a). Qed.

Lemma reduce_mean_length (f32 : Q → Q) (h w c : nat) (g : list (list (list Q))) :
  has_shape3 h w c g → (0 < h)%nat → (0 < w)%nat →
  length (reduce_mean_012 f32 [g]) = c.
Proof.
  intros [Hlen Hrows] Hh Hw. unfold reduce_mean_012.
  rewrite length_map, length_seq. cbn [concat]. rewrite app_nil_r.
  destruct g as [|row g]; [cbn in Hlen; lia|].
  apply Forall_cons in Hrows as [[Hrow Hcells] _].
  destruct row as [|cell row]; [cbn in Hrow; lia|].
  apply Forall_cons in Hcells as [Hcell _]. done.
Qed.

Lemma matmul_channels_Ok (f32 : Q → Q) (h w c : nat)
    (conv_output : list (list (list Q))) (pooled_grads : list Q) :
  has_shape3 h w c conv_output → length pooled_grads = c →
  matmul_channels f32 conv_output pooled_grads =
    Ok (map (map (λ cell, [fsum f32 (zip_with (fmul f32) cell pooled_grads)])) conv_output).
Proof.
  intros [_ Hrows] Hc. unfold matmul_channels.
  assert (forallb (forallb (λ cell : list Q,
            bool_decide (length cell = length pooled_grads))) conv_output = true) as ->;
    [|done].
  apply Is_true_true, forallb_True.
  eapply Forall_impl; [exact Hrows|]. intros row [_ Hcells]. cbn.
  apply forallb_True. eapply Forall_impl; [exact Hcells|]. intros cell Hcell. cbn.
  apply bool_decide_pack. congruence.
Qed.

Lemma strided_index_valid (n i : Z) :
  - n <= i < n → ∃ k, tf.strided_index n i = Ok k.
Proof.
  intros Hi. unfold tf.strided_index. repeat case_bool_decide; eauto. lia.
Qed.

(** C7, as the code has it.  For a valid class index and a target layer
    whose output has height and width above 1, the heatmap has the layer's
    height and width and every value lies in [0, 1].  (No entry need be 1.0:
    see [heatmap_without_one].) *)
Theorem heatmap_shape_and_range (f32 : Q → Q) (self : GradCAM)
    (input_image : tensor4) (class_idx : option Z)
    (values : KerasTensor → ndarray) (row : list Q) (rest : list (list Q))
    (grads : ndarray) (g0 conv0 : list (list (list Q))) (h w c : nat) :
  IEEE_rounding f32 →
  forward (model self) input_image = Ok values →
  tf.to_matrix (values (grad_model self).2) = Some (row :: rest) →
  let i := match class_idx with None => np.argmax Qltb row | Some i => i end in
  - Z.of_nat (length row) <= i < Z.of_nat (length row) →
  gradient (model self) (grad_model self).1 i input_image = Ok grads →
  tf.to_tensor4 grads = Some [g0] → has_shape3 h w c g0 →
  tf.to_tensor4 (values (grad_model self).1) = Some [conv0] → has_shape3 h w c conv0 →
  (2 <= h)%nat → (2 <= w)%nat →
  ∃ heatmap,
    outcome (generate_heatmap f32 self input_image class_idx) = Ok heatmap ∧
    tf.shape heatmap = [h; w] ∧
    Forall (λ x, (0 <= x <= 1)%Q) (tf.entries heatmap).
Proof.
  intros Hf32 Hfwd Hpred i Hi Hgrad Hg4 Hg0 Hconv4 Hconv0 Hh Hw.
  unfold generate_heatmap.
  rewrite (outcome_bind _ _ values) by done. cbn zeta. rewrite Hpred.
  rewrite (outcome_bind _ _ (row :: rest)) by done.
  rewrite (outcome_bind _ _ i) by (by destruct class_idx).
  destruct (strided_index_valid _ _ Hi) as [k Hk].
  rewrite (outcome_bind _ _ k) by done.
  rewrite (outcome_bind _ _ grads) by done. rewrite Hg4.
  rewrite (outcome_bind _ _ [g0]) by done. rewrite Hconv4.
  rewrite (outcome_bind _ _ [conv0]) by done.
  rewrite (outcome_bind _ _ conv0) by done.
  erewrite (outcome_bind _ _ _);
    [|rewrite outcome_lift; apply (matmul_channels_Ok f32 h w c); [done|];
      apply (reduce_mean_length f32 h w c); [done|lia..]].
  set (pooled := reduce_mean_012 f32 [g0]).
  destruct Hconv0 as [Hlen Hrows].
  rewrite squeeze_weighted_sums;
    [|lia|eapply Forall_impl; [exact Hrows|]; intros ? [? _]; cbn; lia].
  rewrite !map_entries_of_matrix, entries_of_matrix.
  eexists. split; [reflexivity|]. split.
  - apply shape_of_matrix; [by rewrite !length_map| |lia].
    rewrite !Forall_map. eapply Forall_impl; [exact Hrows|].
    intros r [Hr _]. cbn. by rewrite !length_map.
  - rewrite entries_of_matrix.
    set (rectified := map (map (λ x, qmax x 0)) _).
    pose proof (reduce_max_ge (concat rectified)) as Hmax.
    assert (Forall (Forall (λ x, (0 <= x)%Q ∧ (f32 x == x)%Q)) rectified) as Hrect.
    { unfold rectified. rewrite !Forall_map. apply Forall_true. intros r. cbn.
      rewrite !Forall_map. apply Forall_true. intros cell. cbn. split.
      - apply qmax_0_nonneg.
      - by apply qmax_0_representable, fsum_representable. }
    rewrite Forall_concat in Hmax. apply Forall_concat. rewrite Forall_map.
    rewrite Forall_forall in Hmax, Hrect. apply Forall_forall. intros r Hr.
    specialize (Hmax r Hr). specialize (Hrect r Hr). cbn.
    rewrite Forall_forall in Hmax, Hrect. rewrite Forall_map. apply Forall_forall.
    intros x Hx. destruct (Hrect x Hx) as [Hpos Hrep]. cbn.
    by apply normalised_entry_range; [| | |apply Hmax].
Qed.

Lemma heatmap_shape_and_range_witness :
  IEEE_rounding Reference.exact ∧
  forward example_model np.zeros_1_28_28_1 = Ok example_values ∧
  tf.to_matrix (example_values 4%nat) = Some [[1 # 4; 3 # 4]]%Q ∧
  - 2 <= 0 < 2 ∧
  has_shape3 2 2 2 [[[1; -1]; [1 # 2; 0]]; [[0; 1 # 2]; [1; 1]]]%Q ∧
  has_shape3 2 2 2 [[[1; 2]; [3; 4]]; [[0; 1]; [2; 0]]]%Q ∧
  ∃ heatmap,
    outcome (generate_heatmap Reference.exact example_gradcam np.zeros_1_28_28_1 (Some 0))
      = Ok heatmap ∧
    tf.shape heatmap = [2; 2]%nat ∧
    Forall (λ x, (0 <= x <= 1)%Q) (tf.entries heatmap).
Proof.
  assert (∀ t : list (list (list Q)),
            Forall (λ row, length row = 2%nat ∧ Forall (λ cell : list Q, length cell = 2%nat) row) t →
            length t = 2%nat → has_shape3 2 2 2 t) as Hshape by (by split).
  assert (has_shape3 2 2 2 [[[1; -1]; [1 # 2; 0]]; [[0; 1 # 2]; [1; 1]]]%Q) as Hg
    by (apply Hshape; [repeat constructor|done]).
  assert (has_shape3 2 2 2 [[[1; 2]; [3; 4]]; [[0; 1]; [2; 0]]]%Q) as Hc
    by (apply Hshape; [repeat constructor|done]).
  split; [exact exact_is_rounding|]. split; [reflexivity|]. split; [reflexivity|].
  split; [lia|]. split; [exact Hg|]. split; [exact Hc|].
  refine (heatmap_shape_and_range Reference.exact example_gradcam np.zeros_1_28_28_1
            (Some 0) example_values [1 # 4; 3 # 4]%Q [] _ _ _ 2 2 2
            exact_is_rounding eq_refl eq_refl _ eq_refl eq_refl Hg eq_refl Hc _ _);
    [cbn; lia|lia|lia].
Defined.

(** C7 fails as stated: for the class the example model predicts, the
    gradient at [conv2] is not zero, yet every channel-weighted sum is
    negative, so after the ReLU the heatmap is zero everywhere and no entry
    is 1.0.  All intermediate values are dyadic, so no rounding is
    involved. *)
Lemma heatmap_without_one :
  ∃ grads heatmap,
    gradient example_model 1%nat 1 np.zeros_1_28_28_1 = Ok grads ∧
    Exists (λ x, ¬ (x == 0)%Q) (tf.entries grads) ∧
    generate_heatmap Reference.exact example_gradcam np.zeros_1_28_28_1 None
      = (["grad_model"; "tape.gradient"], Ok heatmap) ∧
    tf.entries heatmap = [0; 0; 0; 0]%Q ∧
    ¬ Exists (λ x, (x == 1)%Q) (tf.entries heatmap).
Proof.
  eexists _, _. split; [reflexivity|]. split; [by apply Exists_cons_hd|].
  split; [vm_compute; reflexivity|]. split; [reflexivity|].
  intros Hex. cbn in Hex. rewrite !Exists_cons, Exists_nil in Hex.
  by destruct Hex as [?|[?|[?|[?|[]]]]].
Qed.

(** Even where the heatmap is not zero, its largest entry is
    [max / (max + epsilon)], which in exact arithmetic is below 1. *)
Lemma heatmap_maximum_below_one :
  ∃ heatmap,
    outcome (generate_heatmap Reference.exact example_gradcam np.zeros_1_28_28_1 (Some 0))
      = Ok heatmap ∧
    Forall (λ x, (x <= 23750000 # 23750001)%Q) (tf.entries heatmap).
Proof.
  eexists. split; [vm_compute; reflexivity|].
  cbn. repeat (apply Forall_cons; split; [by vm_compute|]). done.
Qed.

(** ** Invalid targets *)

Lemma generate_heatmap_bad_index (f32 : Q → Q) (self : GradCAM)
    (input_image : tensor4) (values : KerasTensor → ndarray)
    (row : list Q) (rest : list (list Q)) (i : Z) :
  forward (model self) input_image = Ok values →
  tf.to_matrix (values (grad_model self).2) = Some (row :: rest) →
  i < - Z.of_nat (length row) ∨ Z.of_nat (length row) <= i →
  generate_heatmap f32 self input_image (Some i)
  = (["grad_model"], Raise (Exn "InvalidArgumentError" "slice index out of bounds")).
Proof.
  intros Hfwd Hpred Hi. unfold generate_heatmap.
  eapply run_call_Ok; [exact Hfwd|]. cbn zeta.
  eapply run_lift_Ok; [by rewrite Hpred|].
  eapply run_mret. eapply run_lift_Raise.
  unfold tf.strided_index. by rewrite !bool_decide_eq_false_2 by lia.
Qed.

(** C9, as the code has it.  A target layer the model does not have makes
    the explanation fail in [GradCAM.__init__] with Keras's [ValueError],
    before any other call; a class index outside [-n, n-1] (for [n] classes)
    makes it fail in [generate_heatmap] with TensorFlow's
    [InvalidArgumentError], after the forward pass and before the gradient.
    Either exception reaches the caller.  (There is no [InvalidTargetError],
    and an index in [-n, -1] is accepted: see [invalid_target_errors].) *)
Theorem invalid_target_propagates (ov : cv2_overlay_api) (f32 f64 : Q → Q)
    (net : keras_model) (input_image : tensor4) (class_idx : option Z)
    (layer_name : string) :
  (layer_name ∉ (layers net).*1 →
   generate_gradcam_explanation ov f32 f64 net input_image class_idx layer_name
   = ([], Raise (Exn "ValueError" ("No such layer: " +:+ layer_name)))) ∧
  (∀ layer values row rest i,
     get_layer_output net layer_name = Ok layer →
     forward net input_image = Ok values →
     tf.to_matrix (values (model_output net)) = Some (row :: rest) →
     class_idx = Some i →
     i < - Z.of_nat (length row) ∨ Z.of_nat (length row) <= i →
     generate_gradcam_explanation ov f32 f64 net input_image class_idx layer_name
     = (["grad_model"],
        Raise (Exn "InvalidArgumentError" "slice index out of bounds"))).
Proof.
  split.
  - intros Habsent. unfold generate_gradcam_explanation, GradCAM_init.
    by rewrite get_layer_output_absent.
  - intros layer values row rest i Hlayer Hfwd Hpred -> Hi.
    unfold generate_gradcam_explanation, GradCAM_init.
    eapply run_bind_Ok with (l1 := []); [by rewrite Hlayer|].
    eapply run_bind_Raise.
    by apply (generate_heatmap_bad_index f32 _ input_image values row rest).
Qed.

Lemma invalid_target_propagates_witness :
  ("conv9" ∉ (layers example_model).*1) ∧
  generate_gradcam_explanation Reference.overlay Reference.exact Reference.exact
    example_model np.zeros_1_28_28_1 None "conv9"
  = ([], Raise (Exn "ValueError" "No such layer: conv9")) ∧
  generate_gradcam_explanation Reference.overlay Reference.exact Reference.exact
    example_model np.zeros_1_28_28_1 (Some 2) "conv2"
  = (["grad_model"], Raise (Exn "InvalidArgumentError" "slice index out of bounds")).
Proof.
  assert ("conv9" ∉ (layers example_model).*1) as Hno.
  { cbn. rewrite !elem_of_cons, elem_of_nil. by intros [?|[?|[?|[?|[?|[]]]]]]. }
  split; [exact Hno|]. split.
  - exact (proj1 (invalid_target_propagates Reference.overlay Reference.exact
                    Reference.exact example_model np.zeros_1_28_28_1 None "conv9") Hno).
  - refine (proj2 (invalid_target_propagates Reference.overlay Reference.exact
                     Reference.exact example_model np.zeros_1_28_28_1 (Some 2) "conv2")
              1%nat example_values [1 # 4; 3 # 4]%Q [] 2 eq_refl eq_refl eq_refl eq_refl _).
    cbn. lia.
Defined.

(** C9 fails as stated: the error for a missing layer is a [ValueError],
    not an [InvalidTargetError]; and the class index -1, which is no class
    of a two-class model, raises nothing: the explanation is computed, for
    the last class. *)
Lemma invalid_target_errors :
  (∃ e,
     outcome (generate_gradcam_explanation Reference.overlay Reference.exact
                Reference.exact example_model np.zeros_1_28_28_1 None "conv9")
     = Raise e ∧
     exn_class e = "ValueError" ∧ exn_class e ≠ "InvalidTargetError") ∧
  (∃ explanation,
     outcome (generate_gradcam_explanation Reference.overlay Reference.exact
                Reference.exact example_model np.zeros_1_28_28_1 (Some (-1)) "conv2")
     = Ok explanation ∧
     outcome (generate_gradcam_explanation Reference.overlay Reference.exact
                Reference.exact example_model np.zeros_1_28_28_1 (Some 1) "conv2")
     = Ok explanation).
Proof.
  split.
  - eexists. split; [vm_compute; reflexivity|]. by split.
  - eexists. split; vm_compute; reflexivity.
Qed.

(** ** Step 10: centering by mass *)

Lemma total_app (l1 l2 : list Z) : total (l1 ++ l2) = total l1 + total l2.
Proof. unfold total. induction l1 as [|x l1 IH]; cbn; lia. Qed.

Lemma total_zeros (l : list Z) : Forall (λ v, v = 0) l → total l = 0.
Proof. unfold total. induction 1 as [|x l Hx _ IH]; cbn; lia. Qed.

Lemma total_replicate_0 (n : nat) : total (replicate n 0) = 0.
Proof. apply total_zeros. by apply Forall_replicate. Qed.

Lemma total_nonneg (l : list Z) : Forall (λ v, 0 <= v) l → 0 <= total l.
Proof. unfold total. induction 1 as [|x l Hx _ IH]; cbn; lia. Qed.

Lemma total_0_zeros (l : list Z) :
  Forall (λ v, 0 <= v) l → total l = 0 → Forall (λ v, v = 0) l.
Proof.
  induction 1 as [|x l Hx Hl IH]; [done|]. unfold total. cbn. intros Hsum.
  pose proof (total_nonneg l Hl) as Hnn. unfold total in Hnn.
  apply Forall_cons. split; [lia|]. apply IH. unfold total. lia.
Qed.

Lemma total_imap_offset (k : Z) (l : list Z) :
  total (imap (λ i v, (k + Z.of_nat i) * v) l) = k * total l + first_moment l.
Proof.
  unfold first_moment, total. revert k.
  induction l as [|x l IH]; intros k; [cbn; lia|].
  rewrite !imap_cons. cbn [foldr].
  rewrite (imap_ext _ (λ i v, (k + 1 + Z.of_nat i) * v) l)
    by (intros i v _; cbn; f_equal; lia).
  rewrite (imap_ext ((λ i v, Z.of_nat i * v) ∘ S) (λ i v, (1 + Z.of_nat i) * v) l)
    by (intros i v _; cbn; f_equal; lia).
  rewrite (IH (k + 1)), (IH 1). change (Z.of_nat 0) with 0. ring.
Qed.

Lemma first_moment_app (l1 l2 : list Z) :
  first_moment (l1 ++ l2)
  = first_moment l1 + first_moment l2 + Z.of_nat (length l1) * total l2.
Proof.
  unfold first_moment at 1. rewrite imap_app, total_app.
  rewrite (imap_ext _ (λ i v, (Z.of_nat (length l1) + Z.of_nat i) * v) l2)
    by (intros i v _; cbn; f_equal; lia).
  rewrite total_imap_offset. unfold first_moment. lia.
Qed.

Lemma first_moment_zeros (l : list Z) : Forall (λ v, v = 0) l → first_moment l = 0.
Proof.
  intros Hl. unfold first_moment. apply total_zeros.
  apply Forall_lookup. intros i v Hi. rewrite list_lookup_imap in Hi.
  destruct (l !! i) as [x|] eqn:Hx; cbn in Hi; [|done]. injection Hi as <-.
  rewrite Forall_lookup in Hl. rewrite (Hl _ _ Hx). lia.
Qed.

Lemma first_moment_bounds (l : list Z) :
  Forall (λ v, 0 <= v) l →
  0 <= first_moment l ∧ first_moment l + total l <= Z.of_nat (length l) * total l.
Proof.
  induction l as [|x l IH] using rev_ind; intros Hl; [by cbn|].
  apply Forall_app in Hl as [Hl Hx]. rewrite Forall_singleton in Hx.
  destruct (IH Hl) as [IH1 IH2]. pose proof (total_nonneg l Hl).
  rewrite first_moment_app, total_app, length_app.
  change (first_moment [x]) with (0 * x + 0). change (total [x]) with (x + 0).
  cbn [length]. rewrite Nat2Z.inj_add. change (Z.of_nat 1) with 1.
  set (n := Z.of_nat (length l)) in *. assert (0 <= n) by lia.
  assert (0 <= n * x) by nia. split; nia.
Qed.

Lemma shift_total (s : Z) (l : list Z) :
  leaving_zero s l → total (shift 0 s l) = total l.
Proof.
  unfold leaving_zero, shift. case_bool_decide; intros Hz.
  - pose proof (f_equal total (take_drop (length l - Z.to_nat s) l)) as Ht.
    rewrite total_app, (total_zeros _ Hz) in Ht.
    rewrite total_app, total_replicate_0. lia.
  - pose proof (f_equal total (take_drop (Z.to_nat (- s)) l)) as Ht.
    rewrite total_app, (total_zeros _ Hz) in Ht.
    rewrite total_app, total_replicate_0. lia.
Qed.

Lemma shift_first_moment (s : Z) (l : list Z) :
  leaving_zero s l → first_moment (shift 0 s l) = first_moment l + s * total l.
Proof.
  unfold leaving_zero, shift. case_bool_decide as Hs; intros Hz.
  - pose proof (take_drop (length l - Z.to_nat s) l) as Hsplit.
    pose proof (f_equal first_moment Hsplit) as Hm.
    pose proof (f_equal total Hsplit) as Ht.
    rewrite first_moment_app, (first_moment_zeros _ Hz), (total_zeros _ Hz) in Hm.
    rewrite total_app, (total_zeros _ Hz) in Ht.
    rewrite first_moment_app, length_replicate.
    rewrite (first_moment_zeros (replicate _ _)) by (by apply Forall_replicate).
    destruct (decide (Z.to_nat s <= length l)%nat) as [Hle|Hgt].
    + rewrite Nat.min_l by done. rewrite Z2Nat.id by done.
      rewrite <- Hm, <- Ht. ring.
    + rewrite Nat.min_r by lia.
      replace (length l - Z.to_nat s)%nat with 0%nat in * by lia.
      rewrite take_0 in *. rewrite <- Hm, <- Ht. cbn. ring.
  - pose proof (take_drop (Z.to_nat (- s)) l) as Hsplit.
    pose proof (f_equal first_moment Hsplit) as Hm.
    pose proof (f_equal total Hsplit) as Ht.
    rewrite first_moment_app, (first_moment_zeros _ Hz), length_take in Hm.
    rewrite total_app, (total_zeros _ Hz) in Ht.
    rewrite first_moment_app, total_replicate_0.
    rewrite (first_moment_zeros (replicate _ _)) by (by apply Forall_replicate).
    destruct (decide (Z.to_nat (- s) <= length l)%nat) as [Hle|Hgt].
    + rewrite Nat.min_l in Hm by done. rewrite Z2Nat.id in Hm by lia.
      rewrite <- Hm, <- Ht. ring.
    + rewrite drop_ge in * by lia. rewrite <- Hm, <- Ht. cbn. ring.
Qed.

Lemma fmap_shift {A B} (f : A → B) (zero : A) (s : Z) (l : list A) :
  f <$> shift zero s l = shift (f zero) s (f <$> l).
Proof.
  unfold shift. rewrite length_fmap.
  case_bool_decide; by rewrite fmap_app, fmap_replicate, ?fmap_take, ?fmap_drop.
Qed.

Lemma total_concat (a : list (list Z)) : total (concat a) = total (total <$> a).
Proof.
  induction a as [|row a IH]; [done|]. cbn [concat fmap list_fmap].
  rewrite total_app, IH. done.
Qed.

Lemma leaving_zero_intro (s : Z) (l : list Z) :
  (∀ (i : nat) v, l !! i = Some v →
     ¬ (0 <= Z.of_nat i + s < Z.of_nat (length l)) → v = 0) →
  leaving_zero s l.
Proof.
  intros Hout. unfold leaving_zero. case_bool_decide as Hs; apply Forall_lookup.
  - intros i v Hi. rewrite lookup_drop in Hi.
    pose proof (lookup_lt_Some _ _ _ Hi). apply (Hout _ _ Hi). lia.
  - intros i v Hi. apply lookup_take_Some in Hi as [Hi Hlt].
    apply (Hout _ _ Hi). lia.
Qed.

Section Translation.

Variables (shift_x shift_y : Z) (a : array2).
Hypothesis Hinside : stays_inside shift_x shift_y a.

Lemma row_leaving_zero (row : list Z) : row ∈ a → leaving_zero shift_x row.
Proof.
  intros Hrow. apply list_elem_of_lookup in Hrow as [y Hy].
  apply leaving_zero_intro. intros x v Hx Hout.
  destruct (decide (v = 0)) as [|Hv]; [done|].
  destruct (Hinside y x row v Hy Hx Hv). lia.
Qed.

Lemma row_outside_zeros (y : nat) (row : list Z) :
  a !! y = Some row →
  ¬ (0 <= Z.of_nat y + shift_y < Z.of_nat (length a)) →
  Forall (λ v, v = 0) row.
Proof.
  intros Hy Hout. apply Forall_lookup. intros x v Hx.
  destruct (decide (v = 0)) as [|Hv]; [done|].
  destruct (Hinside y x row v Hy Hx Hv). lia.
Qed.

Lemma rows_leaving_zero (g : list Z → Z) :
  (∀ row, Forall (λ v, v = 0) row → g row = 0) →
  leaving_zero shift_y (g <$> a).
Proof.
  intros Hg. apply leaving_zero_intro. intros y v Hy Hout.
  rewrite length_fmap in Hout. rewrite list_lookup_fmap in Hy.
  unfold array2 in *. destruct (a !! y) as [row|] eqn:Hrow; cbn in Hy; [|done].
  injection Hy as <-. apply Hg. by eapply row_outside_zeros.
Qed.

Lemma translate_mass : mass (translate shift_x shift_y a) = mass a.
Proof.
  unfold mass, translate. rewrite !total_concat, fmap_shift, total_replicate_0.
  rewrite <- list_fmap_compose. rewrite shift_total.
  - f_equal. apply Forall_fmap_ext, Forall_forall. intros row Hrow. cbn.
    by apply shift_total, row_leaving_zero.
  - apply (rows_leaving_zero (total ∘ shift 0 shift_x)). intros row Hz. cbn.
    apply total_zeros, Forall_shift; done.
Qed.

Lemma translate_moment_y :
  moment_y (translate shift_x shift_y a) = moment_y a + shift_y * mass a.
Proof.
  unfold moment_y, mass, translate. rewrite total_concat, fmap_shift, total_replicate_0.
  rewrite <- list_fmap_compose.
  assert ((total ∘ shift 0 shift_x) <$> a = total <$> a) as Hrows.
  { apply Forall_fmap_ext, Forall_forall. intros row Hrow. cbn.
    by apply shift_total, row_leaving_zero. }
  rewrite shift_first_moment.
  - by rewrite Hrows.
  - apply (rows_leaving_zero (total ∘ shift 0 shift_x)). intros row Hz. cbn.
    apply total_zeros, Forall_shift; done.
Qed.

Lemma total_fmap_add (f g : list Z → Z) (k : Z) (l : list (list Z)) :
  Forall (λ row, f row = g row + k * total row) l →
  total (f <$> l) = total (g <$> l) + k * total (total <$> l).
Proof.
  induction 1 as [|row l Hrow _ IH]; [cbn; lia|].
  cbn [fmap list_fmap]. unfold total in *. cbn [foldr]. rewrite Hrow.
  cbn [fmap list_fmap] in IH. lia.
Qed.

Lemma translate_moment_x :
  moment_x (translate shift_x shift_y a) = moment_x a + shift_x * mass a.
Proof.
  unfold moment_x, mass, translate. rewrite total_concat, fmap_shift.
  rewrite first_moment_zeros by (by apply Forall_replicate).
  rewrite <- list_fmap_compose. rewrite shift_total.
  - apply total_fmap_add, Forall_forall. intros row Hrow. cbn.
    by apply shift_first_moment, row_leaving_zero.
  - apply (rows_leaving_zero (first_moment ∘ shift 0 shift_x)). intros row Hz. cbn.
    apply first_moment_zeros, Forall_shift; done.
Qed.

End Translation.

Section ShiftRounding.

Variable f64 : Q → Q.
Hypothesis Hf64 : IEEE_rounding f64.

(** The rounded offset [13.5 - c] lies on the same side of every small
    integer as the exact one. *)
Lemma offset_vs_integer (c : Q) (k : Z) :
  Z.abs k <= 100 →
  let d := ((27 # 2) - c)%Q in
  let dt := f64 ((27 # 2) - f64 c) in
  ((inject_Z k <= d)%Q → (inject_Z k <= dt)%Q) ∧
  ((d <= inject_Z k)%Q → (dt <= inject_Z k)%Q).
Proof.
  intros Hk d dt. subst d dt.
  assert (f64 ((27 - 2 * k) # 2) == (27 # 2) - inject_Z k)%Q as Hhalf.
  { rewrite (rnd_dyadic _ Hf64 (27 - 2 * k) 1) by (done || lia).
    unfold Qeq, Qminus, Qplus, Qopp, inject_Z. cbn.
    change (Z.pos (2 * 1)) with 2. change (Z.pos (2 ^ 1)) with 2. lia. }
  assert (((27 - 2 * k) # 2) == (27 # 2) - inject_Z k)%Q as Hhalf'.
  { unfold Qeq, Qminus, Qplus, Qopp, inject_Z. cbn.
    change (Z.pos (2 * 1)) with 2. lia. }
  split; intros Hd.
  - apply (rnd_ge_int _ Hf64); [lia|].
    assert (f64 c <= (27 # 2) - inject_Z k)%Q; [|lra].
    rewrite <- Hhalf. apply (rnd_mono _ Hf64). rewrite Hhalf'. lra.
  - apply (rnd_le_int _ Hf64); [lia|].
    assert ((27 # 2) - inject_Z k <= f64 c)%Q; [|lra].
    rewrite <- Hhalf. apply (rnd_mono _ Hf64). rewrite Hhalf'. lra.
Qed.

(** [int(13.5 - c)] differs from [13.5 - c] by less than one pixel. *)
Lemma shift_within_one (c : Q) :
  (0 <= c <= 27)%Q →
  let s := trunc (f64 ((27 # 2) - f64 c)) in
  -14 <= s <= 14 ∧ (-1 < (27 # 2) - c - inject_Z s < 1)%Q.
Proof.
  intros [Hc0 Hc27] s.
  set (d := ((27 # 2) - c)%Q). set (dt := f64 ((27 # 2) - f64 c)) in *.
  assert (inject_Z (-14) <= dt <= inject_Z 14)%Q as [Hlo Hhi].
  { split.
    - apply (offset_vs_integer c (-14)); [done|].
      change (inject_Z (-14)) with (-14 # 1)%Q. lra.
    - apply (offset_vs_integer c 14); [done|].
      change (inject_Z 14) with (14 # 1)%Q. lra. }
  assert (-14 <= s <= 14) as Hs by (apply trunc_range; [lia|done]).
  split; [done|].
  assert (∀ k, Z.abs k <= 100 →
            ((inject_Z k <= d)%Q → (inject_Z k <= dt)%Q) ∧
            ((d <= inject_Z k)%Q → (dt <= inject_Z k)%Q)) as Hside
    by (intros k Hk; by apply offset_vs_integer).
  assert (∀ k : Z, (inject_Z (k - 1) == inject_Z k - 1)%Q) as Hpred.
  { intros k. unfold Qeq, Qminus, Qplus, Qopp, inject_Z. cbn. lia. }
  assert (∀ k : Z, (inject_Z (k + 1) == inject_Z k + 1)%Q) as Hsucc.
  { intros k. unfold Qeq, Qplus, inject_Z. cbn. lia. }
  fold d. subst s. unfold trunc in *. destruct (Qle_bool 0 dt) eqn:Hsign.
  - pose proof (Qfloor_le dt) as Hfl. pose proof (Qlt_floor dt) as Hfu.
    set (s := Qfloor dt) in *. rewrite Hsucc in Hfu. split.
    + apply Qnot_le_lt. intros Hd.
      assert (d <= inject_Z (s - 1))%Q as Hd' by (rewrite Hpred; lra).
      apply (Hside (s - 1)) in Hd'; [|lia]. rewrite Hpred in Hd'. lra.
    + apply Qnot_le_lt. intros Hd.
      assert (inject_Z (s + 1) <= d)%Q as Hd' by (rewrite Hsucc; lra).
      apply (Hside (s + 1)) in Hd'; [|lia]. rewrite Hsucc in Hd'. lra.
  - pose proof (Qle_ceiling dt) as Hcu. pose proof (Qceiling_lt dt) as Hcl.
    set (s := Qceiling dt) in *. rewrite Hpred in Hcl. split.
    + apply Qnot_le_lt. intros Hd.
      assert (d <= inject_Z (s - 1))%Q as Hd' by (rewrite Hpred; lra).
      apply (Hside (s - 1)) in Hd'; [|lia]. rewrite Hpred in Hd'. lra.
    + apply Qnot_le_lt. intros Hd.
      assert (inject_Z (s + 1) <= d)%Q as Hd' by (rewrite Hsucc; lra).
      apply (Hside (s + 1)) in Hd'; [|lia]. rewrite Hsucc in Hd'. lra.
Qed.

End ShiftRounding.

Lemma moment_bounds (h w : nat) (a : array2) :
  is_uint8_image h w a →
  0 <= mass a ∧
  0 <= moment_y a ∧ moment_y a + mass a <= Z.of_nat h * mass a ∧
  0 <= moment_x a ∧ moment_x a + mass a <= Z.of_nat w * mass a.
Proof.
  intros [Hlen Hrows]. unfold mass, moment_y, moment_x. rewrite total_concat.
  assert (Forall (λ row, 0 <= total row ∧ 0 <= first_moment row ∧
                         first_moment row + total row <= Z.of_nat w * total row) a)
    as Hrow.
  { eapply Forall_impl; [exact Hrows|]. intros row [Hw Hpx]. cbn beta.
    assert (Forall (λ v, 0 <= v) row) as Hnn
      by (eapply Forall_impl; [exact Hpx|]; intros v ?; cbn beta in *; lia).
    pose proof (first_moment_bounds row Hnn) as [? ?]. rewrite Hw in *.
    split; [by apply total_nonneg|done]. }
  assert (Forall (λ v, 0 <= v) (total <$> a)) as Hsums.
  { apply Forall_fmap. eapply Forall_impl; [exact Hrow|]. by intros row [? _]. }
  pose proof (first_moment_bounds _ Hsums) as [Hy0 Hy1].
  rewrite length_fmap, Hlen in Hy1.
  split; [by apply total_nonneg|]. split; [done|]. split; [done|].
  clear -Hrow. induction Hrow as [|row a (Ht & Hm0 & Hm1) _ (IH0 & IH1)]; [cbn; lia|].
  cbn [fmap list_fmap] in *. unfold total in *. cbn [foldr]. lia.
Qed.

Lemma Qdiv_add_mult (m s t : Z) :
  t ≠ 0 →
  (inject_Z (m + s * t) / inject_Z t == inject_Z m / inject_Z t + inject_Z s)%Q.
Proof.
  intros Ht. rewrite inject_Z_plus, inject_Z_mult.
  assert (¬ inject_Z t == 0)%Q as Ht'.
  { unfold Qeq, inject_Z. cbn. lia. }
  by field.
Qed.

Lemma Qdiv_range (m t n : Z) :
  0 < t → 0 <= m → m + t <= (n + 1) * t →
  (0 <= inject_Z m / inject_Z t <= inject_Z n)%Q.
Proof.
  intros Ht Hm Hn.
  assert (0 < inject_Z t)%Q as Ht' by (rewrite (Zlt_Qlt 0 t) in Ht; exact Ht).
  split.
  - apply Qle_shift_div_l; [done|]. rewrite Qmult_0_l.
    rewrite (Zle_Qle 0 m) in Hm. exact Hm.
  - apply Qle_shift_div_r; [done|]. rewrite <- inject_Z_mult.
    rewrite <- Zle_Qle. lia.
Qed.

(** C6, as the code has it.  [center_digit_by_mass] leaves a canvas without
    mass unchanged, and otherwise moves it by [int(13.5 - centroid)] pixels
    along each axis; the centroid plus that shift is less than one pixel
    from 13.5 on each axis, and it is the centroid of the moved canvas
    whenever the move pushes no non-zero pixel off the canvas. *)
Theorem centering_by_mass (cv : cv2_api) (f32 f64 : Q → Q) (img_28x28 : array2) :
  IEEE_rounding f64 → warpAffine_translates cv f32 → is_uint8_image 28 28 img_28x28 →
  match centroid img_28x28 with
  | None => center_digit_by_mass cv f32 f64 img_28x28 = ([], Ok img_28x28)
  | Some (cy, cx) =>
      let shift_x := trunc (f64 ((27 # 2) - f64 cx)%Q) in
      let shift_y := trunc (f64 ((27 # 2) - f64 cy)%Q) in
      let centered := translate shift_x shift_y img_28x28 in
      center_digit_by_mass cv f32 f64 img_28x28 = (["cv2.warpAffine"], Ok centered) ∧
      (Qabs (cy + inject_Z shift_y - (27 # 2)) < 1)%Q ∧
      (Qabs (cx + inject_Z shift_x - (27 # 2)) < 1)%Q ∧
      (stays_inside shift_x shift_y img_28x28 →
       ∃ cy' cx',
         centroid centered = Some (cy', cx') ∧
         (cy' == cy + inject_Z shift_y)%Q ∧ (cx' == cx + inject_Z shift_x)%Q ∧
         near_center (centroid centered))
  end.
Proof.
  intros Hf64 Hwarp Himg. unfold centroid, center_digit_by_mass, center_of_mass.
  destruct (moment_bounds 28 28 _ Himg) as (Hm & Hy0 & Hy1 & Hx0 & Hx1).
  case_bool_decide as Hmass; [done|].
  set (cy := (inject_Z (moment_y img_28x28) / inject_Z (mass img_28x28))%Q).
  set (cx := (inject_Z (moment_x img_28x28) / inject_Z (mass img_28x28))%Q).
  assert (0 <= cy <= 27)%Q as Hcy by (apply (Qdiv_range _ _ 27); lia).
  assert (0 <= cx <= 27)%Q as Hcx by (apply (Qdiv_range _ _ 27); lia).
  destruct (shift_within_one f64 Hf64 cy Hcy) as [_ [Hy_lo Hy_hi]].
  destruct (shift_within_one f64 Hf64 cx Hcx) as [_ [Hx_lo Hx_hi]].
  set (shift_y := trunc (f64 ((27 # 2) - f64 cy)%Q)) in *.
  set (shift_x := trunc (f64 ((27 # 2) - f64 cx)%Q)) in *.
  cbn zeta.
  assert (Qabs (cy + inject_Z shift_y - (27 # 2)) < 1)%Q as Hay
    by (apply Qabs_Qlt_condition; split; lra).
  assert (Qabs (cx + inject_Z shift_x - (27 # 2)) < 1)%Q as Hax
    by (apply Qabs_Qlt_condition; split; lra).
  split; [by rewrite Hwarp|]. split; [done|]. split; [done|].
  intros Hinside.
  rewrite (translate_mass _ _ _ Hinside), (translate_moment_y _ _ _ Hinside),
    (translate_moment_x _ _ _ Hinside).
  rewrite bool_decide_eq_false_2 by done.
  eexists _, _. split; [reflexivity|].
  assert (inject_Z (moment_y img_28x28 + shift_y * mass img_28x28)
          / inject_Z (mass img_28x28) == cy + inject_Z shift_y)%Q as Hy'
    by (by apply Qdiv_add_mult).
  assert (inject_Z (moment_x img_28x28 + shift_x * mass img_28x28)
          / inject_Z (mass img_28x28) == cx + inject_Z shift_x)%Q as Hx'
    by (by apply Qdiv_add_mult).
  split; [done|]. split; [done|]. unfold near_center. rewrite Hy', Hx'.
  split; by apply Qlt_le_weak.
Qed.

Lemma stays_inside_bool_correct (shift_x shift_y : Z) (a : array2) :
  stays_inside_bool shift_x shift_y a = true → stays_inside shift_x shift_y a.
Proof.
  unfold stays_inside_bool, stays_inside, array2. intros Hall y x row v Hy Hx Hv.
  apply Is_true_true, forallb_True in Hall. rewrite Forall_lookup in Hall.
  specialize (Hall y (y, row)). rewrite list_lookup_imap, Hy in Hall.
  specialize (Hall eq_refl). cbn in Hall.
  apply forallb_True in Hall. rewrite Forall_lookup in Hall.
  specialize (Hall x (x, v)). rewrite list_lookup_imap, Hx in Hall.
  specialize (Hall eq_refl). cbn in Hall. apply bool_decide_unpack in Hall.
  by destruct Hall.
Qed.

Lemma Forall_shift_values {A} (P : A → Prop) (zero : A) (s : Z) (l : list A) :
  P zero → Forall P l → Forall P (shift zero s l).
Proof. intros Hz Hl. by apply Forall_shift. Qed.

Lemma is_uint8_translate (h w : nat) (shift_x shift_y : Z) (src : array2) :
  is_uint8_image h w src → is_uint8_image h w (translate shift_x shift_y src).
Proof.
  intros Hsrc. pose proof (is_uint8_image_shape _ _ _ Hsrc) as Hshape.
  destruct (has_shape_translate h w shift_x shift_y src Hshape) as [Hlen Hrows].
  split; [done|]. destruct Hsrc as [_ Hsrc].
  assert (Forall (Forall (λ v, 0 <= v <= 255)) (translate shift_x shift_y src)) as Hpx.
  { unfold translate. apply Forall_shift_values; [by apply Forall_replicate|].
    apply Forall_map. eapply Forall_impl; [exact Hsrc|]. intros row [_ Hrow]. cbn.
    by apply Forall_shift_values. }
  clear -Hrows Hpx. induction Hrows as [|row a Hrow _ IH]; [done|].
  apply Forall_cons in Hpx as [? ?]. apply Forall_cons. by split; [|apply IH].
Qed.

Lemma saturate_uint8_image (h w : nat) (a : array2) :
  is_uint8_image h w a → map (map Reference.saturate) a = a.
Proof.
  intros [_ Hrows]. induction Hrows as [|row a [_ Hrow] _ IH]; [done|].
  cbn [map]. rewrite IH. f_equal. clear -Hrow.
  induction Hrow as [|v row Hv _ IH]; [done|].
  cbn [map]. by rewrite IH, saturate_uint8.
Qed.

Lemma reference_warpAffine_translates :
  warpAffine_translates Reference.cv2 Reference.exact.
Proof.
  intros src shift_x shift_y Hsrc. cbn. unfold Reference.warpAffine, translation_matrix.
  pose proof (is_uint8_image_shape _ _ _ Hsrc) as Hshape.
  assert (src ≠ []) as Hne by (destruct Hshape as [Hlen _]; by destruct src).
  assert (∀ z, trunc (Reference.exact (inject_Z z)) = z) as Htrunc.
  { intros z. rewrite <- (trunc_inject_Z z) at 2. apply trunc_proper, Qred_correct. }
  assert (∀ z, Qeq_bool (Reference.exact (inject_Z z)) (inject_Z z) = true) as Hint.
  { intros z. apply Qeq_bool_iff, Qred_correct. }
  rewrite !Htrunc, !Hint.
  change (Qeq_bool (Reference.exact 1) 1) with true.
  change (Qeq_bool (Reference.exact 0) 0) with true.
  rewrite (has_shape_width 28 28 src Hshape Hne). unfold Reference.height.
  destruct Hshape as [Hlen Hrows]. rewrite Hlen. cbn [andb].
  rewrite bool_decide_eq_true_2 by done.
  rewrite bool_decide_eq_true_2
    by (eapply Forall_impl; [exact Hrows|]; intros row Hrow; cbn in *; lia).
  cbn [andb]. f_equal. by apply (saturate_uint8_image 28 28), is_uint8_translate.
Qed.

Lemma centering_by_mass_witness :
  IEEE_rounding Reference.exact ∧
  warpAffine_translates Reference.cv2 Reference.exact ∧
  is_uint8_image 28 28 corner_canvas ∧
  stays_inside 8 7 corner_canvas ∧
  center_digit_by_mass Reference.cv2 Reference.exact Reference.exact corner_canvas
    = (["cv2.warpAffine"], Ok (translate 8 7 corner_canvas)) ∧
  near_center (centroid (translate 8 7 corner_canvas)).
Proof.
  assert (is_uint8_image 28 28 corner_canvas) as Himg.
  { split; [done|]. unfold corner_canvas. rewrite !Forall_app.
    split_and!; apply Forall_replicate; (split; [done|]);
      rewrite ?Forall_app; split_and?; apply Forall_replicate; lia. }
  assert (stays_inside 8 7 corner_canvas) as Hinside
    by (by apply stays_inside_bool_correct).
  split; [exact exact_is_rounding|]. split; [exact reference_warpAffine_translates|].
  split; [exact Himg|]. split; [exact Hinside|].
  pose proof (centering_by_mass Reference.cv2 Reference.exact Reference.exact
                corner_canvas exact_is_rounding reference_warpAffine_translates Himg) as H.
  change (centroid corner_canvas) with (Some (39780 # 6120, 33660 # 6120)%Q) in H.
  cbv beta iota zeta in H.
  change (trunc (Reference.exact ((27 # 2) - Reference.exact (33660 # 6120)))) with 8 in H.
  change (trunc (Reference.exact ((27 # 2) - Reference.exact (39780 # 6120)))) with 7 in H.
  destruct H as (Hrun & _ & _ & Hcentered). split; [exact Hrun|].
  by destruct (Hcentered Hinside) as (cy' & cx' & _ & _ & _ & Hnear).
Defined.

(** ** Steps 12 and 13: the brightest pixel *)

Lemma foldr_max_spec (x : Z) (l : list Z) :
  foldr Z.max x l ∈ x :: l ∧ Forall (λ v, v <= foldr Z.max x l) (x :: l).
Proof.
  induction l as [|y l [IHin IHle]]; cbn [foldr].
  - split; [apply list_elem_of_here|]. apply Forall_singleton. lia.
  - apply Forall_cons in IHle as [Hx Hl]. split.
    + destruct (Z.max_spec y (foldr Z.max x l)) as [[_ ->]|[_ ->]].
      * apply elem_of_cons in IHin as [->|?];
          [apply list_elem_of_here|by do 2 apply list_elem_of_further].
      * apply list_elem_of_further, list_elem_of_here.
    + apply Forall_cons. split; [cbn beta in *; lia|].
      apply Forall_cons. split; [lia|].
      eapply Forall_impl; [exact Hl|]. intros v Hv. cbn beta in *. lia.
Qed.


Section Brightest.

Variable f32 : Q → Q.
Hypothesis Hf32 : IEEE_rounding f32.






End Brightest.





(** ** [np.argmax] *)

Section Argmax.

Context {A : Type} (ltb : A → A → bool).
Hypothesis ltb_irreflexive : ∀ x, ltb x x = false.
Hypothesis ltb_asymmetric : ∀ x y, ltb x y = true → ltb y x = false.
(** [y <= b < x] gives [y < x] *)
Hypothesis ltb_le_lt : ∀ b x y, ltb b x = true → ltb b y = false → ltb y x = true.

Lemma argmax_from_spec (seen l : list A) (best : A) (best_i : nat) :
  first_maximum ltb seen best_i → seen !! best_i = Some best →
  first_maximum ltb (seen ++ l) (np.argmax_from ltb best best_i (length seen) l).
Proof.
  revert seen best best_i.
  induction l as [|x l IH]; intros seen best best_i Hmax Hbest; cbn [np.argmax_from].
  { by rewrite app_nil_r. }
  destruct Hmax as (b & Hb & Hge & Hlt).
  assert (b = best) as -> by congruence.
  replace (seen ++ x :: l) with ((seen ++ [x]) ++ l) by (by rewrite <- app_assoc).
  replace (S (length seen)) with (length (seen ++ [x]))
    by (rewrite length_app; cbn; lia).
  destruct (ltb best x) eqn:Hcmp; apply IH.
  - exists x. split; [by rewrite lookup_app_r, Nat.sub_diag|]. split.
    + intros j y Hj. apply lookup_app_Some in Hj as [Hj|[_ Hj]].
      * apply ltb_asymmetric, (ltb_le_lt best); [done|by eapply Hge].
      * apply list_lookup_singleton_Some in Hj as [_ <-]. apply ltb_irreflexive.
    + intros j y Hlen Hj. rewrite lookup_app_l in Hj by done.
      apply (ltb_le_lt best); [done|by eapply Hge].
  - by rewrite lookup_app_r, Nat.sub_diag.
  - exists best. split; [by apply lookup_app_l_Some|]. split.
    + intros j y Hj. apply lookup_app_Some in Hj as [Hj|[_ Hj]]; [by eapply Hge|].
      by apply list_lookup_singleton_Some in Hj as [_ <-].
    + intros j y Hlen Hj. apply lookup_lt_Some in Hb.
      rewrite lookup_app_l in Hj by lia. by eapply Hlt.
  - by apply lookup_app_l_Some.
Qed.

Lemma argmax_spec (l : list A) :
  l ≠ [] → ∃ i : nat, np.argmax ltb l = Z.of_nat i ∧ first_maximum ltb l i.
Proof.
  destruct l as [|x l]; [done|]. intros _. unfold np.argmax.
  eexists. split; [reflexivity|].
  apply (argmax_from_spec [x] l x 0); [|done].
  exists x. split; [done|]. split.
  - intros j y Hj. apply list_lookup_singleton_Some in Hj as [_ <-].
    apply ltb_irreflexive.
  - intros j y Hlen. lia.
Qed.

End Argmax.

(** ** Step 5: noise suppression *)

Lemma Z_first_maximum (l : list Z) :
  l ≠ [] → ∃ i : nat, np.argmax Z.ltb l = Z.of_nat i ∧ first_maximum Z.ltb l i.
Proof.
  apply argmax_spec.
  - apply Z.ltb_irrefl.
  - intros x y. rewrite Z.ltb_lt, Z.ltb_ge. lia.
  - intros b x y. rewrite !Z.ltb_lt, Z.ltb_ge. lia.
Qed.

Lemma entry_zip_with (f : Z → Z → Z) (a b : array2) (y x : nat) (v : Z) :
  length <$> a = length <$> b →
  entry a y x = Some v →
  ∃ w, entry b y x = Some w ∧ entry (zip_with (zip_with f) a b) y x = Some (f v w).
Proof.
  unfold entry, array2 in *. intros Hshape Hv.
  destruct (a !! y) as [arow|] eqn:Ha; [|done]. cbn in Hv.
  pose proof (f_equal (λ l, l !! y) Hshape) as Hy. cbn beta in Hy.
  rewrite !list_lookup_fmap, Ha in Hy. cbn in Hy.
  destruct (b !! y) as [brow|] eqn:Hb; [|done]. injection Hy as Hlen.
  destruct (lookup_lt_is_Some_2 brow x) as [w Hw];
    [rewrite <- Hlen; by eapply lookup_lt_Some|].
  exists w. split; [done|].
  rewrite lookup_zip_with, Ha, Hb. cbn. by rewrite lookup_zip_with, Hv, Hw.
Qed.

Lemma entry_zeros_like (a : array2) (y x : nat) (w : Z) :
  entry (np.zeros_like a) y x = Some w → w = 0.
Proof.
  unfold entry, np.zeros_like, array2 in *.
  change (map ?f a) with (f <$> a). rewrite list_lookup_fmap.
  destruct (a !! y) as [row|]; [|done]. cbn.
  change (map ?f row) with (f <$> row). rewrite list_lookup_fmap.
  destruct (row !! x); [|done]. by intros [= <-].
Qed.

Lemma shape_zip_with_l (f : Z → Z → Z) (a b : array2) :
  length <$> a = length <$> b → length <$> zip_with (zip_with f) a b = length <$> a.
Proof.
  revert b. induction a as [|arow a IH]; intros [|brow b] Hshape; try done.
  cbn in *. injection Hshape as Hrow Hshape. f_equal; [|by apply IH].
  rewrite length_zip_with. lia.
Qed.

Lemma shape_zeros_like (a : array2) : length <$> np.zeros_like a = length <$> a.
Proof.
  unfold np.zeros_like. induction a as [|row a IH]; [done|].
  cbn. by rewrite length_map, <- IH.
Qed.

(** Noise suppression keeps exactly the largest component.  When OpenCV
    finds at most the background, the mask is returned as it is.  Otherwise
    the result has the shape of the mask, and is 255 on the pixels of one
    label and 0 elsewhere: the label [1 + k] for the first [k] at which the
    areas of the labels 1, 2, ... are largest (the lowest label wins a
    tie). *)
Theorem largest_component_kept (cv : cv2_api) (binary_img : array2)
    (num_labels : Z) (labels : array2) (stats : list cc_stat) :
  connectedComponentsWithStats cv binary_img 8 = Ok (num_labels, labels, stats) →
  (num_labels <= 1 ∨ (length stats <= 1)%nat →
   remove_small_components cv binary_img
   = (["cv2.connectedComponentsWithStats"], Ok binary_img)) ∧
  (1 < num_labels → (1 < length stats)%nat →
   length <$> labels = length <$> binary_img →
   ∃ (k : nat) (result : array2),
     first_maximum Z.ltb (CC_STAT_AREA <$> drop 1 stats) k ∧
     remove_small_components cv binary_img
     = (["cv2.connectedComponentsWithStats"], Ok result) ∧
     length <$> result = length <$> binary_img ∧
     ∀ (y x : nat) (l : Z),
       entry labels y x = Some l →
       entry result y x = Some (if bool_decide (l = 1 + Z.of_nat k) then 255 else 0)).
Proof.
  intros Hcc. unfold remove_small_components. rewrite Hcc. split.
  - intros Hfew. eapply run_call_Ok; [done|]. cbn beta iota zeta.
    case_bool_decide; [done|]. destruct Hfew as [?|Hstats]; [lia|].
    rewrite bool_decide_eq_true_2; [done|]. rewrite length_fmap, length_drop. lia.
  - intros Hnum Hstats Hshape.
    destruct (Z_first_maximum (CC_STAT_AREA <$> drop 1 stats)) as (k & Hk & Hmax).
    { intros Hnil. apply (f_equal length) in Hnil.
      rewrite length_fmap, length_drop in Hnil. cbn in Hnil. lia. }
    eexists k, _. split; [done|].
    assert (length <$> labels = length <$> np.zeros_like binary_img) as Hshape'
      by (by rewrite shape_zeros_like).
    split; [|split].
    + eapply run_call_Ok; [done|]. cbn beta iota zeta.
      rewrite bool_decide_eq_false_2 by lia.
      rewrite bool_decide_eq_false_2
        by (rewrite length_fmap, length_drop; lia).
      unfold same_shape. rewrite bool_decide_eq_true_2 by done. reflexivity.
    + by rewrite shape_zip_with_l.
    + intros y x l Hl. rewrite Hk.
      destruct (entry_zip_with
                  (λ l r, if bool_decide (l = 1 + Z.of_nat k) then 255 else r)
                  _ _ y x l Hshape' Hl) as (w & Hw & ->).
      apply entry_zeros_like in Hw as ->. done.
Qed.

Lemma largest_component_kept_witness :
  ∃ labels stats,
    connectedComponentsWithStats Reference.cv2 two_blob_image 8 = Ok (3, labels, stats) ∧
    CC_STAT_AREA <$> stats = [57; 1; 6] ∧
    ∃ result,
      first_maximum Z.ltb (CC_STAT_AREA <$> drop 1 stats) 1 ∧
      remove_small_components Reference.cv2 two_blob_image
      = (["cv2.connectedComponentsWithStats"], Ok result) ∧
      entry labels 1 1 = Some 1 ∧ entry result 1 1 = Some 0 ∧
      entry labels 4 3 = Some 2 ∧ entry result 4 3 = Some 255.
Proof.
  pose (cc := connectedComponentsWithStats Reference.cv2 two_blob_image 8).
  assert (∃ labels stats, cc = Ok (3, labels, stats) ∧
            CC_STAT_AREA <$> stats = [57; 1; 6] ∧
            length <$> labels = length <$> two_blob_image ∧
            entry labels 1 1 = Some 1 ∧ entry labels 4 3 = Some 2)
    as (labels & stats & Hcc & Hareas & Hshape & Hl1 & Hl2).
  { vm_compute. eexists _, _. repeat split. }
  exists labels, stats. split; [exact Hcc|]. split; [exact Hareas|].
  destruct (proj2 (largest_component_kept Reference.cv2 two_blob_image 3 labels stats Hcc))
    as (k & result & Hmax & Hrun & _ & Hpx).
  { lia. } { apply (f_equal length) in Hareas. rewrite length_fmap in Hareas.
             rewrite Hareas. cbn. lia. } { exact Hshape. }
  assert (k = 1%nat) as ->.
  { destruct Hmax as (x & Hx & Hge & Hlt). rewrite fmap_drop, Hareas in Hx, Hge.
    destruct k as [|[|k]]; [|reflexivity|].
    - injection Hx as <-. discriminate (Hge 1%nat 6 eq_refl).
    - apply lookup_lt_Some in Hx. cbn in Hx. lia. }
  exists result. split; [exact Hmax|]. split; [exact Hrun|].
  split; [exact Hl1|]. split; [exact (Hpx _ _ _ Hl1)|].
  split; [exact Hl2|]. exact (Hpx _ _ _ Hl2).
Defined.

Lemma Q_first_maximum (l : list Q) :
  l ≠ [] → ∃ i : nat, np.argmax Qltb l = Z.of_nat i ∧ first_maximum Qltb l i.
Proof.
  assert (∀ x y, Qltb x y = true ↔ (x < y)%Q) as Hlt.
  { intros x y. unfold Qltb. rewrite negb_true_iff, <- not_true_iff_false, Qle_bool_iff.
    split; [apply Qnot_le_lt|apply Qlt_not_le]. }
  apply argmax_spec.
  - intros x. apply Qltb_false, Qle_refl.
  - intros x y. rewrite Hlt, Qltb_false. apply Qlt_le_weak.
  - intros b x y. rewrite !Hlt, Qltb_false. intros ? ?. by eapply Qle_lt_trans.
Qed.

(** ** Step 2: polarity *)

Lemma count_inverted (v : Z) (l : list Z) :
  length (filter (λ p, p = v) (map (λ p, 255 - p) l))
  = length (filter (λ p, p = 255 - v) l).
Proof.
  induction l as [|p l IH]; [done|]. cbn [map]. rewrite !filter_cons.
  destruct (decide (255 - p = v)), (decide (p = 255 - v)); cbn; lia.
Qed.

Lemma concat_invert (a : array2) : concat (invert a) = map (λ p, 255 - p) (concat a).
Proof.
  unfold invert. induction a as [|row a IH]; [done|]. cbn. by rewrite map_app, IH.
Qed.

Lemma calcHist_lookup (f32 : Q → Q) (a : array2) (i : nat) :
  (i < 256)%nat →
  calcHist f32 a !! i
  = Some (f32 (inject_Z (Z.of_nat
            (length (filter (λ p, p = Z.of_nat i) (concat a)))))).
Proof.
  intros Hi. unfold calcHist. change (map ?f ?l) with (f <$> l).
  rewrite list_lookup_fmap, lookup_seqZ_lt by lia. done.
Qed.

Lemma calcHist_invert (f32 : Q → Q) (a : array2) (i : nat) :
  (i < 256)%nat → calcHist f32 (invert a) !! i = calcHist f32 a !! (255 - i)%nat.
Proof.
  intros Hi. rewrite !calcHist_lookup by lia.
  rewrite concat_invert, count_inverted.
  by replace (255 - Z.of_nat i) with (Z.of_nat (255 - i)) by lia.
Qed.

Lemma calcHist_length (f32 : Q → Q) (a : array2) : length (calcHist f32 a) = 256%nat.
Proof. unfold calcHist. by rewrite length_map, length_seqZ. Qed.

(** After the inversion the most frequent intensity is in the dark half. *)
Lemma inverted_is_dark (f32 : Q → Q) (a : array2) :
  np.argmax Qltb (calcHist f32 a) > 127 →
  np.argmax Qltb (calcHist f32 (invert a)) <= 127.
Proof.
  intros Hlight.
  assert (∀ b, calcHist f32 b ≠ []) as Hne.
  { intros b Hnil. apply (f_equal length) in Hnil. by rewrite calcHist_length in Hnil. }
  destruct (Q_first_maximum _ (Hne a)) as (i & Hi & x & Hx & _ & Hfirst).
  destruct (Q_first_maximum _ (Hne (invert a))) as (i' & Hi' & x' & Hx' & Hmax' & _).
  rewrite Hi in Hlight. rewrite Hi'.
  destruct (decide (i' <= 127)%nat) as [|Hbright]; [lia|]. exfalso.
  pose proof (lookup_lt_Some _ _ _ Hx) as Hlen. rewrite calcHist_length in Hlen.
  pose proof (lookup_lt_Some _ _ _ Hx') as Hlen'. rewrite calcHist_length in Hlen'.
  rewrite calcHist_invert in Hx' by done.
  assert (Qltb x' x = true) as Hlt by (apply (Hfirst (255 - i')%nat); [lia|done]).
  assert (Qltb x' x = false) as Hge.
  { apply (Hmax' (255 - i)%nat). rewrite calcHist_invert by lia.
    by replace (255 - (255 - i))%nat with i by lia. }
  congruence.
Qed.

(** Whatever the polarity of the drawing, the image that goes on to
    contrast enhancement has a dark background: its most frequent intensity
    (the first of them, if several are equally frequent) is at most 127. *)
Theorem background_is_dark (cv : cv2_api) (f32 f64 : Q → Q) (image : pil_image)
    (l : list string) (img_array binary : array2) :
  foreground_mask cv f32 f64 image = (l, Ok (img_array, binary)) →
  np.argmax Qltb (calcHist f32 img_array) <= 127.
Proof.
  intros Hrun.
  assert (outcome (foreground_mask cv f32 f64 image) = Ok (img_array, binary)) as H
    by (by rewrite Hrun).
  unfold foreground_mask in H. bind_inv H. rename a into px.
  bind_inv H. bind_inv H. bind_inv H.
  set (corrected := if bool_decide _ then _ else _) in *.
  rewrite outcome_mret in H.
  assert (corrected = img_array) as <- by congruence. subst corrected.
  case_bool_decide as Hlight; [by apply inverted_is_dark|by apply Znot_gt_le].
Qed.

Lemma background_is_dark_witness :
  ∃ l binary,
    foreground_mask Reference.cv2 Reference.exact Reference.exact (ImageL light_image)
    = (l, Ok (invert light_image, binary)) ∧
    np.argmax Qltb (calcHist Reference.exact light_image) = 255 ∧
    np.argmax Qltb (calcHist Reference.exact (invert light_image)) <= 127.
Proof.
  assert (∃ l binary,
    foreground_mask Reference.cv2 Reference.exact Reference.exact (ImageL light_image)
    = (l, Ok (invert light_image, binary))) as (l & binary & Hrun)
    by (eexists _, _; vm_compute; reflexivity).
  exists l, binary. split; [exact Hrun|]. split; [vm_compute; reflexivity|].
  exact (background_is_dark _ _ _ _ _ _ _ Hrun).
Defined.

(** ** Building the feature model *)

Lemma get_layer_output_present (model : keras_model) (name : string) :
  name ∈ (layers model).*1 → ∃ t, get_layer_output model name = Ok t.
Proof.
  intros Hin. unfold get_layer_output.
  destruct (list_find _ _) as [[i l]|] eqn:Hfind; [by eexists|]. exfalso.
  apply list_find_None in Hfind. apply list_elem_of_fmap in Hin as (l & -> & Hl).
  rewrite Forall_forall in Hfind. by apply (Hfind l).
Qed.

Lemma get_layer_output_cases (model : keras_model) (name : string) :
  (name ∈ (layers model).*1 ∧ ∃ t, get_layer_output model name = Ok t) ∨
  ((name ∉ (layers model).*1) ∧
   get_layer_output model name = Raise (Exn "ValueError" ("No such layer: " +:+ name))).
Proof.
  destruct (decide (name ∈ (layers model).*1)) as [Hin|Hout].
  - left. split; [done|]. by apply get_layer_output_present.
  - right. split; [done|]. by apply get_layer_output_absent.
Qed.

Local Ltac has_missing name :=
  exists name; split; [rewrite !elem_of_cons; tauto|]; split; [assumption|reflexivity].

(** [create_feature_extraction_model] succeeds exactly on the models that
    have the layers [conv1], [conv2], [dense1] and [predictions]; [conv3] is
    the only layer it can do without.  The feature model it returns always
    has an output under each of the five keys, [conv3] included.  On any
    other model it fails with Keras's [ValueError] for one of the four
    layers, and no fallback is tried for them. *)
Theorem feature_model_needs_four_layers (base_model : keras_model) :
  (Forall (λ name, name ∈ (layers base_model).*1) required_layers →
   ∃ fm, create_feature_extraction_model base_model = ([], Ok fm) ∧
         base fm = base_model ∧
         dom (outputs fm)
         = list_to_set ["conv1"; "conv2"; "conv3"; "dense1"; "predictions"]) ∧
  (¬ Forall (λ name, name ∈ (layers base_model).*1) required_layers →
   ∃ missing, missing ∈ required_layers ∧ (missing ∉ (layers base_model).*1) ∧
     create_feature_extraction_model base_model
     = ([], Raise (Exn "ValueError" ("No such layer: " +:+ missing)))).
Proof.
  unfold required_layers.
  destruct (get_layer_output_cases base_model "conv1") as [[H1 [c1 E1]]|[H1 E1]];
  destruct (get_layer_output_cases base_model "conv2") as [[H2 [c2 E2]]|[H2 E2]];
  destruct (get_layer_output_cases base_model "conv3") as [[H3 [c3 E3]]|[H3 E3]];
  destruct (get_layer_output_cases base_model "dense1") as [[Hd [d1 Ed]]|[Hd Ed]];
  destruct (get_layer_output_cases base_model "predictions") as [[Hp [p Ep]]|[Hp Ep]];
  unfold create_feature_extraction_model; rewrite E1, E2, E3, Ed, Ep;
  (split;
   [ intros Hall; rewrite !Forall_cons in Hall;
     destruct Hall as (A1 & A2 & Ad & Ap & _);
     first [ contradiction
           | eexists; split; [reflexivity|]; split; [reflexivity|];
             vm_compute; reflexivity ]
   | intros Hnot;
     first [ exfalso; apply Hnot; repeat constructor; assumption
           | has_missing "conv2" | has_missing "conv1"
           | has_missing "dense1" | has_missing "predictions" ] ]).
Qed.

Lemma feature_model_needs_four_layers_witness :
  Forall (λ name, name ∈ (layers old_model).*1) required_layers ∧
  (∃ fm, create_feature_extraction_model old_model = ([], Ok fm) ∧
         dom (outputs fm)
         = list_to_set ["conv1"; "conv2"; "conv3"; "dense1"; "predictions"]) ∧
  ¬ Forall (λ name, name ∈ (layers headless_model).*1) required_layers ∧
  (∃ missing, (missing ∉ (layers headless_model).*1) ∧
     create_feature_extraction_model headless_model
     = ([], Raise (Exn "ValueError" ("No such layer: " +:+ missing)))).
Proof.
  assert (Forall (λ name, name ∈ (layers old_model).*1) required_layers) as Hold.
  { unfold required_layers. cbn. repeat constructor;
      rewrite !elem_of_cons; tauto. }
  assert (¬ Forall (λ name, name ∈ (layers headless_model).*1) required_layers) as Hnew.
  { unfold required_layers. cbn. rewrite !Forall_cons, !elem_of_cons, !elem_of_nil.
    intros (_ & _ & Hdense & _).
    destruct Hdense as [Hdense|[Hdense|[Hdense|[]]]]; discriminate Hdense. }
  split; [exact Hold|]. split.
  - destruct (proj1 (feature_model_needs_four_layers old_model) Hold)
      as (fm & Hfm & _ & Hdom).
    by exists fm.
  - split; [exact Hnew|].
    destruct (proj2 (feature_model_needs_four_layers headless_model) Hnew)
      as (missing & _ & Hmissing & Hrun).
    by exists missing.
Defined.

(** ** The default target class *)

(** Without a class index, [generate_heatmap] explains the class the model
    predicts: the heatmap is the one for the first class of largest
    probability in [predictions[0]]. *)
Theorem heatmap_default_is_predicted_class (f32 : Q → Q) (self : GradCAM)
    (input_image : tensor4) (values : KerasTensor → ndarray)
    (row : list Q) (rest : list (list Q)) :
  forward (model self) input_image = Ok values →
  tf.to_matrix (values (grad_model self).2) = Some (row :: rest) →
  row ≠ [] →
  ∃ k : nat,
    first_maximum Qltb row k ∧
    generate_heatmap f32 self input_image None
    = generate_heatmap f32 self input_image (Some (Z.of_nat k)).
Proof.
  intros Hfwd Hpred Hrow.
  destruct (Q_first_maximum row Hrow) as (k & Hk & Hmax).
  exists k. split; [done|].
  unfold generate_heatmap. rewrite Hfwd.
  unfold call, mbind, M_bind, bind. cbn zeta. rewrite Hpred.
  unfold lift, expect_rank, index0, mret, M_ret, ret. cbn iota beta. by rewrite Hk.
Qed.

Lemma heatmap_default_is_predicted_class_witness :
  forward (model example_gradcam) np.zeros_1_28_28_1 = Ok example_values ∧
  tf.to_matrix (example_values (grad_model example_gradcam).2)
  = Some [[1 # 4; 3 # 4]]%Q ∧
  first_maximum Qltb [1 # 4; 3 # 4]%Q 1 ∧
  generate_heatmap Reference.exact example_gradcam np.zeros_1_28_28_1 None
  = generate_heatmap Reference.exact example_gradcam np.zeros_1_28_28_1 (Some 1).
Proof.
  split; [reflexivity|]. split; [reflexivity|].
  destruct (heatmap_default_is_predicted_class Reference.exact example_gradcam
              np.zeros_1_28_28_1 example_values [1 # 4; 3 # 4]%Q [] eq_refl eq_refl)
    as (k & Hmax & Hrun); [done|].
  assert (k = 1%nat) as ->.
  { destruct Hmax as (x & Hx & Hge & _).
    destruct k as [|[|k]]; [|reflexivity|].
    - injection Hx as <-. discriminate (Hge 1%nat (3 # 4)%Q eq_refl).
    - apply lookup_lt_Some in Hx. cbn in Hx. lia. }
  split; [exact Hmax|exact Hrun].
Defined.

(** ** Normalisation before encoding *)

Lemma qmin_le_l (x y : Q) : (qmin x y <= x)%Q.
Proof.
  unfold qmin. destruct (Qle_bool x y) eqn:H; [apply Qle_refl|].
  apply Qlt_le_weak, Qnot_le_lt. intros Hle. apply Qle_bool_iff in Hle. congruence.
Qed.

Lemma qmin_le_r (x y : Q) : (qmin x y <= y)%Q.
Proof. unfold qmin. destruct (Qle_bool x y) eqn:H; [by apply Qle_bool_iff|apply Qle_refl]. Qed.

Lemma foldr_qmin_spec (x : Q) (l : list Q) :
  foldr qmin x l ∈ x :: l ∧ Forall (λ v, (foldr qmin x l <= v)%Q) (x :: l).
Proof.
  induction l as [|y l [IHin IHle]]; cbn [foldr].
  - split; [apply list_elem_of_here|]. apply Forall_singleton, Qle_refl.
  - apply Forall_cons in IHle as [Hx Hl]. split.
    + unfold qmin at 1. destruct (Qle_bool y _).
      * apply list_elem_of_further, list_elem_of_here.
      * apply elem_of_cons in IHin as [->|?];
          [apply list_elem_of_here|by do 2 apply list_elem_of_further].
    + apply Forall_cons. split; [by eapply Qle_trans; [apply qmin_le_r|]|].
      apply Forall_cons. split; [apply qmin_le_l|].
      eapply Forall_impl; [exact Hl|]. intros v Hv. cbn beta in *.
      by eapply Qle_trans; [apply qmin_le_r|].
Qed.

Lemma foldr_qmax_spec (x : Q) (l : list Q) :
  foldr qmax x l ∈ x :: l ∧ Forall (λ v, (v <= foldr qmax x l)%Q) (x :: l).
Proof.
  induction l as [|y l [IHin IHle]]; cbn [foldr].
  - split; [apply list_elem_of_here|]. apply Forall_singleton, Qle_refl.
  - apply Forall_cons in IHle as [Hx Hl]. split.
    + unfold qmax at 1. destruct (Qle_bool y _).
      * apply elem_of_cons in IHin as [->|?];
          [apply list_elem_of_here|by do 2 apply list_elem_of_further].
      * apply list_elem_of_further, list_elem_of_here.
    + apply Forall_cons. split; [by eapply Qle_trans; [|apply qmax_ge_r]|].
      apply Forall_cons. split; [apply qmax_ge_l|].
      eapply Forall_impl; [exact Hl|]. intros v Hv. cbn beta in *.
      by eapply Qle_trans; [|apply qmax_ge_r].
Qed.

Lemma array_min_spec (a : list (list Q)) (lo : Q) :
  array_min qmin a = Ok lo → lo ∈ concat a ∧ Forall (λ v, (lo <= v)%Q) (concat a).
Proof.
  unfold array_min. destruct (concat a) as [|x l]; [done|]. intros [= <-].
  apply foldr_qmin_spec.
Qed.

Lemma array_max_spec (a : list (list Q)) (hi : Q) :
  array_max qmax a = Ok hi → hi ∈ concat a ∧ Forall (λ v, (v <= hi)%Q) (concat a).
Proof.
  unfold array_max. destruct (concat a) as [|x l]; [done|]. intros [= <-].
  apply foldr_qmax_spec.
Qed.

Lemma concat_map_map {A B} (f : A → B) (a : list (list A)) :
  concat (map (map f) a) = map f (concat a).
Proof. induction a as [|row a IH]; [done|]. cbn. by rewrite map_app, IH. Qed.

Lemma map_map_map {A B C} (f : A → B) (g : B → C) (a : list (list A)) :
  map (map g) (map (map f) a) = map (map (λ v, g (f v))) a.
Proof.
  rewrite map_map. apply map_ext. intros row. apply map_map.
Qed.

Section GreyLevels.

Variable f32 : Q → Q.
Hypothesis Hf32 : IEEE_rounding f32.

(** The largest entry after the minimum has been subtracted *)
Lemma shifted_max (a : list (list Q)) (lo hi : Q) :
  array_min qmin a = Ok lo → array_max qmax a = Ok hi →
  ∃ spread,
    array_max qmax (map (map (λ v, f32 (v - lo))) a) = Ok spread ∧
    (spread == f32 (hi - lo))%Q.
Proof.
  intros Hlo Hhi. apply array_max_spec in Hhi as [Hin Hle].
  unfold array_max. rewrite concat_map_map.
  destruct (concat a) as [|x l] eqn:Hflat; [by apply elem_of_nil in Hin|].
  cbn [map]. eexists. split; [reflexivity|].
  destruct (foldr_qmax_spec (f32 (x - lo)) (map (λ v, f32 (v - lo)) l)) as [Hmem Hmax].
  change (f32 (x - lo)%Q :: map (λ v, f32 (v - lo)) l)
    with (map (λ v, f32 (v - lo)%Q) (x :: l)) in Hmem, Hmax.
  apply Qle_antisym.
  - apply list_elem_of_fmap in Hmem as (v & -> & Hv).
    rewrite Forall_forall in Hle. apply (rnd_mono _ Hf32).
    specialize (Hle v Hv). cbn beta in Hle. lra.
  - rewrite Forall_forall in Hmax. apply Hmax.
    apply list_elem_of_fmap. by exists hi.
Qed.

Lemma normalized_float (a : list (list Q)) (lo spread : Q) :
  array_min qmin a = Ok lo →
  array_max qmax (map (map (λ v, f32 (v - lo))) a) = Ok spread →
  ∀ f64, normalized f32 f64 (Float32 a) = ([], Ok (map (map (grey_level f32 lo spread)) a)).
Proof.
  intros Hlo Hspread f64. unfold normalized. rewrite Hlo.
  eapply run_lift_Ok; [done|]. cbn zeta. rewrite Hspread.
  eapply run_lift_Ok; [done|]. unfold grey_level.
  destruct (Qltb 0 spread); by rewrite !map_map_map.
Qed.

Lemma Qltb_true (x y : Q) : Qltb x y = true ↔ (x < y)%Q.
Proof.
  unfold Qltb. rewrite negb_true_iff, <- not_true_iff_false, Qle_bool_iff.
  split; [apply Qnot_le_lt|apply Qlt_not_le].
Qed.

Lemma unit_to_level (x : Q) :
  (0 <= x <= 1)%Q →
  0 <= trunc (f32 (x * 255)) <= 255 ∧
  astype_uint8 (f32 (x * 255)) = Qfloor (f32 (x * 255)).
Proof.
  intros [H0 H1].
  assert (0 <= f32 (x * 255) <= 255)%Q as [Hlo Hhi].
  { split.
    - apply (rnd_ge_int _ Hf32 _ 0); [done|]. change (inject_Z 0) with 0%Q. lra.
    - apply (rnd_le_int _ Hf32 _ 255); [done|]. change (inject_Z 255) with 255%Q. lra. }
  assert (0 <= trunc (f32 (x * 255)) <= 255) as Hrange
    by (apply trunc_range; [lia|done]).
  split; [done|]. unfold astype_uint8. rewrite Z.mod_small by lia.
  unfold trunc. by rewrite (proj2 (Qle_bool_iff 0 _) Hlo).
Qed.

Lemma grey_level_spec (lo spread : Q) :
  (0 <= spread)%Q →
  (∀ u v, (lo <= u)%Q → (u <= v)%Q → (f32 (v - lo) <= spread)%Q →
     0 <= grey_level f32 lo spread u ∧
     grey_level f32 lo spread u <= grey_level f32 lo spread v ∧
     grey_level f32 lo spread v <= 255) ∧
  grey_level f32 lo spread lo = 0 ∧
  (∀ v, (0 < spread)%Q → (f32 (v - lo) == spread)%Q → grey_level f32 lo spread v = 255) ∧
  (∀ v, ¬ (0 < spread)%Q → (lo <= v)%Q → (f32 (v - lo) <= spread)%Q →
     grey_level f32 lo spread v = 0).
Proof.
  intros Hspread.
  assert (f32 0 == 0)%Q as Hzero by (by apply (rnd_integer _ Hf32 0)).
  assert (∀ v, (lo <= v)%Q → (0 <= f32 (v - lo))%Q) as Hshift.
  { intros v Hv. apply (rnd_ge_int _ Hf32 _ 0); [done|]. change (inject_Z 0) with 0%Q. lra. }
  assert (∀ v, (lo <= v)%Q → (f32 (v - lo) <= spread)%Q →
            (0 <= (if Qltb 0 spread then f32 (f32 (v - lo) / spread) else f32 (v - lo))
             <= 1)%Q) as Hunit.
  { intros v Hv Hle. specialize (Hshift v Hv).
    destruct (Qltb 0 spread) eqn:Hpos.
    - apply Qltb_true in Hpos. split.
      + apply (rnd_ge_int _ Hf32 _ 0); [done|]. change (inject_Z 0) with 0%Q.
        apply Qle_shift_div_l; [done|]. lra.
      + apply (rnd_le_int _ Hf32 _ 1); [done|]. change (inject_Z 1) with 1%Q.
        apply Qle_shift_div_r; [done|]. lra.
    - apply Qltb_false in Hpos. split; [done|]. lra. }
  assert (∀ u v, (lo <= u)%Q → (u <= v)%Q →
            ((if Qltb 0 spread then f32 (f32 (u - lo) / spread) else f32 (u - lo))
             <= (if Qltb 0 spread then f32 (f32 (v - lo) / spread) else f32 (v - lo)))%Q)
    as Hmono.
  { intros u v Hu Huv.
    assert (f32 (u - lo) <= f32 (v - lo))%Q as Hs by (apply (rnd_mono _ Hf32); lra).
    destruct (Qltb 0 spread) eqn:Hpos; [|done].
    apply Qltb_true in Hpos. apply (rnd_mono _ Hf32).
    unfold Qdiv. apply Qmult_le_compat_r; [done|]. by apply Qlt_le_weak, Qinv_lt_0_compat. }
  split; [|split; [|split]].
  - intros u v Hu Huv Hv. unfold grey_level. cbn zeta.
    assert (f32 (u - lo) <= spread)%Q as Hu'.
    { eapply Qle_trans; [|exact Hv]. apply (rnd_mono _ Hf32). lra. }
    assert (lo <= v)%Q as Hlv by lra.
    specialize (Hmono u v Hu Huv).
    destruct (Hunit u Hu Hu') as [Hu0 Hu1]. destruct (Hunit v Hlv Hv) as [Hv0 Hv1].
    set (su := if Qltb 0 spread then _ else f32 (u - lo)) in *.
    set (sv := if Qltb 0 spread then _ else f32 (v - lo)) in *.
    clearbody su sv.
    destruct (unit_to_level su (conj Hu0 Hu1)) as [_ ->].
    destruct (unit_to_level sv (conj Hv0 Hv1)) as [_ ->].
    split; [|split].
    + apply (Qfloor_resp_le 0).
      apply (rnd_ge_int _ Hf32 _ 0); [done|]. change (inject_Z 0) with 0%Q. lra.
    + apply Qfloor_resp_le, (rnd_mono _ Hf32). lra.
    + apply (Qfloor_resp_le _ 255).
      apply (rnd_le_int _ Hf32 _ 255); [done|]. change (inject_Z 255) with 255%Q. lra.
  - unfold grey_level. cbn zeta.
    assert (f32 (lo - lo) == 0)%Q as H0.
    { etrans; [|exact Hzero]. apply (rnd_proper _ Hf32). ring. }
    assert ((if Qltb 0 spread then f32 (f32 (lo - lo) / spread) else f32 (lo - lo)) == 0)%Q
      as Hscaled.
    { destruct (Qltb 0 spread); [|done]. etrans; [|exact Hzero].
      apply (rnd_proper _ Hf32). rewrite H0. apply Qmult_0_l. }
    assert (f32 ((if Qltb 0 spread then f32 (f32 (lo - lo) / spread) else f32 (lo - lo))
                 * 255) == inject_Z 0)%Q as Hlevel.
    { change (inject_Z 0) with 0%Q. etrans; [|exact Hzero].
      apply (rnd_proper _ Hf32). rewrite Hscaled. apply Qmult_0_l. }
    unfold astype_uint8. by rewrite (trunc_proper _ _ Hlevel), trunc_inject_Z.
  - intros v Hpos Hv. unfold grey_level. cbn zeta.
    rewrite (proj2 (Qltb_true 0 spread) Hpos).
    assert (f32 (f32 (v - lo) / spread) == 1)%Q as H1.
    { rewrite <- (rnd_integer _ Hf32 1) by done. apply (rnd_proper _ Hf32).
      rewrite Hv. apply Qmult_inv_r. lra. }
    assert (f32 (f32 (f32 (v - lo) / spread) * 255) == inject_Z 255)%Q as Hlevel.
    { rewrite <- (rnd_integer _ Hf32 255) by done. apply (rnd_proper _ Hf32).
      by rewrite H1. }
    unfold astype_uint8. by rewrite (trunc_proper _ _ Hlevel), trunc_inject_Z.
  - intros v Hpos Hv Hle. unfold grey_level. cbn zeta.
    assert (Qltb 0 spread = false) as -> by (apply Qltb_false; lra).
    assert (f32 (v - lo) == 0)%Q as H0 by (specialize (Hshift v Hv); lra).
    assert (f32 (f32 (v - lo) * 255) == inject_Z 0)%Q as Hlevel.
    { change (inject_Z 0) with 0%Q. etrans; [|exact Hzero].
      apply (rnd_proper _ Hf32). rewrite H0. apply Qmult_0_l. }
    unfold astype_uint8. by rewrite (trunc_proper _ _ Hlevel), trunc_inject_Z.
Qed.

End GreyLevels.

(** With [normalize=True], a [float32] array is encoded as the [uint8]
    image of its grey levels, and the grey level is a contrast stretch: it
    never decreases from an entry to a larger one (the cast to [uint8] never
    wraps around), it stays within [0, 255], the smallest entry gets 0, and
    the largest gets 255 unless the largest difference rounds to 0, in which
    case the image is black. *)
Theorem normalisation_stretches_contrast (io : codec_api) (f32 f64 : Q → Q)
    (array : list (list Q)) (lo hi : Q) :
  IEEE_rounding f32 →
  array_min qmin array = Ok lo → array_max qmax array = Ok hi →
  ∃ spread,
    (spread == f32 (hi - lo))%Q ∧
    let level := grey_level f32 lo spread in
    numpy_to_base64 io f32 f64 (Float32 array) true
    = numpy_to_base64 io f32 f64 (UInt8 (map (map level) array)) false ∧
    (∀ u v, u ∈ concat array → v ∈ concat array → (u <= v)%Q →
       0 <= level u ∧ level u <= level v ∧ level v <= 255) ∧
    level lo = 0 ∧
    ((0 < spread)%Q → level hi = 255) ∧
    (¬ (0 < spread)%Q → ∀ v, v ∈ concat array → level v = 0).
Proof.
  intros Hf32 Hlo Hhi.
  destruct (shifted_max f32 Hf32 array lo hi Hlo Hhi) as (spread & Hspread & Heq).
  pose proof (array_min_spec _ _ Hlo) as [Hlo_in Hlo_le].
  pose proof (array_max_spec _ _ Hhi) as [Hhi_in Hhi_le].
  rewrite Forall_forall in Hlo_le, Hhi_le.
  assert (0 <= spread)%Q as Hpos.
  { rewrite Heq. apply (rnd_ge_int _ Hf32 _ 0); [done|].
    specialize (Hlo_le hi Hhi_in). cbn beta in Hlo_le. change (inject_Z 0) with 0%Q. lra. }
  assert (∀ v, v ∈ concat array → (lo <= v)%Q ∧ (f32 (v - lo) <= spread)%Q) as Hin.
  { intros v Hv. specialize (Hlo_le v Hv). specialize (Hhi_le v Hv). cbn beta in *.
    split; [done|]. rewrite Heq. apply (rnd_mono _ Hf32). lra. }
  destruct (grey_level_spec f32 Hf32 lo spread Hpos) as (Hmono & Hzero & Hfull & Hflat).
  exists spread. split; [done|]. cbn zeta. split; [|split; [|split; [|split]]].
  - unfold numpy_to_base64. by rewrite (normalized_float f32 array lo spread Hlo Hspread).
  - intros u v Hu Hv Huv. destruct (Hin u Hu), (Hin v Hv). by apply Hmono.
  - done.
  - intros Hwide. by apply Hfull.
  - intros Hflat' v Hv. destruct (Hin v Hv). by apply Hflat.
Qed.

Lemma normalisation_stretches_contrast_witness :
  IEEE_rounding Reference.exact ∧
  array_min qmin example_map = Ok (1 # 2)%Q ∧
  array_max qmax example_map = Ok (5 # 2)%Q ∧
  ∃ spread,
    (spread == 2)%Q ∧
    numpy_to_base64 example_codec Reference.exact Reference.exact (Float32 example_map) true
    = numpy_to_base64 example_codec Reference.exact Reference.exact
        (UInt8 (map (map (grey_level Reference.exact (1 # 2) spread)) example_map)) false ∧
    grey_level Reference.exact (1 # 2) spread (1 # 2) = 0 ∧
    grey_level Reference.exact (1 # 2) spread (5 # 2) = 255.
Proof.
  split; [exact exact_is_rounding|]. split; [reflexivity|]. split; [reflexivity|].
  destruct (normalisation_stretches_contrast example_codec Reference.exact Reference.exact
              example_map (1 # 2) (5 # 2) exact_is_rounding eq_refl eq_refl)
    as (spread & Hspread & Hrun & _ & Hlo & Hhi & _).
  assert (spread == 2)%Q as Htwo by (rewrite Hspread; reflexivity).
  exists spread. split; [exact Htwo|]. split; [exact Hrun|]. split; [exact Hlo|].
  apply Hhi. by rewrite Htwo.
Defined.

(** ** The heatmap as a function of the scores *)

Lemma qmax_0_mono (s t : Q) : (s <= t)%Q → (qmax s 0 <= qmax t 0)%Q.
Proof.
  intros Hst. unfold qmax.
  destruct (Qle_bool s 0) eqn:Hs, (Qle_bool t 0) eqn:Ht;
    rewrite ?Qle_bool_iff in *; try apply Qle_refl; try done.
  - apply Qlt_le_weak, Qnot_le_lt. intros Hle. apply Qle_bool_iff in Hle. congruence.
  - exfalso. assert (Qle_bool s 0 = true); [|congruence].
    apply Qle_bool_iff. by eapply Qle_trans.
Qed.

Lemma qmax_0_nonpositive (s : Q) : (s <= 0)%Q → qmax s 0 = 0%Q.
Proof. intros Hs. unfold qmax. by rewrite (proj2 (Qle_bool_iff s 0) Hs). Qed.

(** The heatmap is a rescaling of the channel-weighted sums that keeps
    their order: at every position of the target layer its entry is the
    same non-decreasing function of the position's weighted sum, and that
    function is 0 on every sum that is not positive. *)
Theorem heatmap_is_monotone_in_score (f32 : Q → Q) (self : GradCAM)
    (input_image : tensor4) (class_idx : option Z)
    (values : KerasTensor → ndarray) (row : list Q) (rest : list (list Q))
    (grads : ndarray) (g0 conv0 : list (list (list Q))) (h w c : nat) :
  IEEE_rounding f32 →
  forward (model self) input_image = Ok values →
  tf.to_matrix (values (grad_model self).2) = Some (row :: rest) →
  let i := match class_idx with None => np.argmax Qltb row | Some i => i end in
  - Z.of_nat (length row) <= i < Z.of_nat (length row) →
  gradient (model self) (grad_model self).1 i input_image = Ok grads →
  tf.to_tensor4 grads = Some [g0] → has_shape3 h w c g0 →
  tf.to_tensor4 (values (grad_model self).1) = Some [conv0] → has_shape3 h w c conv0 →
  (2 <= h)%nat → (2 <= w)%nat →
  ∃ (level : Q → Q) heatmap,
    outcome (generate_heatmap f32 self input_image class_idx) = Ok heatmap ∧
    tf.entries heatmap
    = map (λ cell, level (fsum f32 (zip_with (fmul f32) cell (reduce_mean_012 f32 [g0]))))
          (concat conv0) ∧
    (∀ s t, (s <= t)%Q → (level s <= level t)%Q) ∧
    (∀ s, (s <= 0)%Q → (level s == 0)%Q).
Proof.
  intros Hf32 Hfwd Hpred i Hi Hgrad Hg4 Hg0 Hconv4 Hconv0 Hh Hw.
  unfold generate_heatmap.
  rewrite (outcome_bind _ _ values) by done. cbn zeta. rewrite Hpred.
  rewrite (outcome_bind _ _ (row :: rest)) by done.
  rewrite (outcome_bind _ _ i) by (by destruct class_idx).
  destruct (strided_index_valid _ _ Hi) as [k Hk].
  rewrite (outcome_bind _ _ k) by done.
  rewrite (outcome_bind _ _ grads) by done. rewrite Hg4.
  rewrite (outcome_bind _ _ [g0]) by done. rewrite Hconv4.
  rewrite (outcome_bind _ _ [conv0]) by done.
  rewrite (outcome_bind _ _ conv0) by done.
  erewrite (outcome_bind _ _ _);
    [|rewrite outcome_lift; apply (matmul_channels_Ok f32 h w c); [done|];
      apply (reduce_mean_length f32 h w c); [done|lia..]].
  set (pooled := reduce_mean_012 f32 [g0]).
  destruct Hconv0 as [Hlen Hrows].
  rewrite squeeze_weighted_sums;
    [|lia|eapply Forall_impl; [exact Hrows|]; intros ? [? _]; cbn; lia].
  rewrite !map_entries_of_matrix, entries_of_matrix.
  set (denominator := fadd f32 _ (f32 epsilon)).
  exists (λ s, fdiv f32 (qmax s 0) denominator). eexists.
  split; [reflexivity|]. split; [|split].
  - rewrite entries_of_matrix, !concat_map_map, !map_map. done.
  - intros s t Hst. unfold fdiv. apply (rnd_mono _ Hf32).
    assert (0 < denominator)%Q as Hd.
    { pose proof (epsilon_positive f32 Hf32) as Heps.
      apply Qlt_le_trans with (f32 epsilon); [done|].
      rewrite <- (rnd_idempotent _ Hf32 epsilon). apply (rnd_mono _ Hf32).
      assert (0 <= reduce_max (concat (map (map (λ x : Q, qmax x 0))
                (map (map (λ cell : list Q, fsum f32 (zip_with (fmul f32) cell pooled)))
                   conv0))))%Q as Hmax; [|lra].
      apply reduce_max_nonneg. rewrite concat_map_map. apply Forall_map, Forall_true.
      intros x. apply qmax_0_nonneg. }
    unfold Qdiv. apply Qmult_le_compat_r; [by apply qmax_0_mono|].
    by apply Qlt_le_weak, Qinv_lt_0_compat.
  - intros s Hs. unfold fdiv. rewrite (qmax_0_nonpositive s Hs).
    etrans; [|by apply (rnd_integer _ Hf32 0)]. apply (rnd_proper _ Hf32).
    unfold Qdiv. apply Qmult_0_l.
Qed.

Lemma heatmap_is_monotone_in_score_witness :
  IEEE_rounding Reference.exact ∧
  forward example_model np.zeros_1_28_28_1 = Ok example_values ∧
  tf.to_matrix (example_values 4%nat) = Some [[1 # 4; 3 # 4]]%Q ∧
  - 2 <= 0 < 2 ∧
  has_shape3 2 2 2 [[[1; -1]; [1 # 2; 0]]; [[0; 1 # 2]; [1; 1]]]%Q ∧
  has_shape3 2 2 2 [[[1; 2]; [3; 4]]; [[0; 1]; [2; 0]]]%Q ∧
  ∃ (level : Q → Q) heatmap,
    outcome (generate_heatmap Reference.exact example_gradcam np.zeros_1_28_28_1 (Some 0))
    = Ok heatmap ∧
    (∀ s t, (s <= t)%Q → (level s <= level t)%Q) ∧
    (∀ s, (s <= 0)%Q → (level s == 0)%Q).
Proof.
  assert (∀ t : list (list (list Q)),
            Forall (λ row, length row = 2%nat
                           ∧ Forall (λ cell : list Q, length cell = 2%nat) row) t →
            length t = 2%nat → has_shape3 2 2 2 t) as Hshape by (by split).
  assert (has_shape3 2 2 2 [[[1; -1]; [1 # 2; 0]]; [[0; 1 # 2]; [1; 1]]]%Q) as Hg
    by (apply Hshape; [repeat constructor|done]).
  assert (has_shape3 2 2 2 [[[1; 2]; [3; 4]]; [[0; 1]; [2; 0]]]%Q) as Hc
    by (apply Hshape; [repeat constructor|done]).
  split; [exact exact_is_rounding|]. split; [reflexivity|]. split; [reflexivity|].
  split; [lia|]. split; [exact Hg|]. split; [exact Hc|].
  destruct (heatmap_is_monotone_in_score Reference.exact example_gradcam
              np.zeros_1_28_28_1 (Some 0) example_values [1 # 4; 3 # 4]%Q [] _ _ _ 2 2 2
              exact_is_rounding eq_refl eq_refl ltac:(cbn; lia) eq_refl eq_refl Hg
              eq_refl Hc ltac:(lia) ltac:(lia))
    as (level & heatmap & Hrun & _ & Hmono & Hzero).
  by exists level, heatmap.
Defined.

(** ** Step 4: degenerate Otsu results *)

(** An Otsu result without any foreground, or without any background, is
    never kept: its foreground fraction 0 is below 0.01, and 1 is above 0.9,
    also after rounding.  The binarization is then that of the Gaussian
    adaptive threshold. *)
Theorem degenerate_otsu_is_replaced (cv : cv2_api) (f64 : Q → Q)
    (gray_img otsu : array2) :
  IEEE_rounding f64 →
  threshold cv gray_img 0 255 THRESH_BINARY_OTSU = Ok otsu →
  np.size otsu ≠ 0 →
  np.count_positive otsu = 0 ∨ np.count_positive otsu = np.size otsu →
  adaptive_threshold cv f64 gray_img
  = (["cv2.threshold"; "cv2.adaptiveThreshold"],
     adaptiveThreshold cv gray_img 255 ADAPTIVE_THRESH_GAUSSIAN_C THRESH_BINARY 11 2).
Proof.
  intros Hf64 Hotsu Hsize Hcount.
  rewrite (adaptive_threshold_unfold _ _ _ _ Hotsu).
  unfold white_ratio. rewrite bool_decide_eq_false_2 by done.
  assert (1 # 128 <= lit_0_01 f64)%Q as Hlow.
  { unfold lit_0_01. eapply Qle_trans; [|by apply (rnd_mono _ Hf64 (1 # 128))].
    apply Qle_lteq. right. symmetry. by apply (rnd_dyadic _ Hf64 1 7). }
  assert (lit_0_9 f64 <= 15 # 16)%Q as Hhigh.
  { unfold lit_0_9. eapply Qle_trans; [by apply (rnd_mono _ Hf64 _ (15 # 16))|].
    apply Qle_lteq. right. by apply (rnd_dyadic _ Hf64 15 4). }
  assert (¬ inject_Z (np.size otsu) == 0)%Q as Hnz.
  { unfold Qeq, inject_Z. cbn. lia. }
  destruct Hcount as [-> | ->].
  - assert (f64 (inject_Z 0 / inject_Z (np.size otsu)) == 0)%Q as Hzero.
    { etrans; [|by apply (rnd_integer _ Hf64 0)]. apply (rnd_proper _ Hf64).
      unfold Qdiv. apply Qmult_0_l. }
    assert (float_lt (Some (f64 (inject_Z 0 / inject_Z (np.size otsu))%Q))
                     (Some (lit_0_01 f64)) = true) as ->; [|done].
    cbn. apply Qltb_true. rewrite Hzero. by eapply Qlt_le_trans; [|exact Hlow].
  - assert (f64 (inject_Z (np.size otsu) / inject_Z (np.size otsu)) == 1)%Q as Hone.
    { etrans; [|by apply (rnd_integer _ Hf64 1)]. apply (rnd_proper _ Hf64).
      by apply Qmult_inv_r. }
    assert (float_lt (Some (lit_0_9 f64))
              (Some (f64 (inject_Z (np.size otsu) / inject_Z (np.size otsu))%Q)) = true)
      as ->; [|by rewrite orb_true_r].
    cbn. apply Qltb_true. rewrite Hone. by eapply Qle_lt_trans; [exact Hhigh|].
Qed.

Lemma degenerate_otsu_is_replaced_witness :
  IEEE_rounding Reference.exact ∧
  threshold Reference.cv2 (blank_image 12 0) 0 255 THRESH_BINARY_OTSU
  = Ok (blank_image 12 0) ∧
  np.size (blank_image 12 0) ≠ 0 ∧
  np.count_positive (blank_image 12 0) = 0 ∧
  adaptive_threshold Reference.cv2 Reference.exact (blank_image 12 0)
  = (["cv2.threshold"; "cv2.adaptiveThreshold"], Ok (blank_image 12 255)).
Proof.
  assert (threshold Reference.cv2 (blank_image 12 0) 0 255 THRESH_BINARY_OTSU
          = Ok (blank_image 12 0)) as Hotsu by (vm_compute; reflexivity).
  assert (np.size (blank_image 12 0) ≠ 0) as Hsize by (by vm_compute).
  split; [exact exact_is_rounding|]. split; [exact Hotsu|]. split; [exact Hsize|].
  split; [reflexivity|].
  rewrite (degenerate_otsu_is_replaced Reference.cv2 Reference.exact
             (blank_image 12 0) (blank_image 12 0) exact_is_rounding Hotsu Hsize
             (or_introl eq_refl)).
  vm_compute. reflexivity.
Defined.

(** ** Data URLs *)

Lemma split_nonempty (sep : Ascii.ascii) (s : string) : str.split sep s ≠ [].
Proof.
  destruct s as [|c s]; [done|]. cbn.
  destruct (Ascii.eqb c sep); [done|]. by destruct (str.split sep s).
Qed.

Lemma split_plain (sep : Ascii.ascii) (s : string) :
  str.contains sep s = false → str.split sep s = [s].
Proof.
  induction s as [|c s IH]; [done|]. cbn.
  destruct (Ascii.eqb c sep); [done|]. intros Hs. by rewrite IH.
Qed.

Lemma split_fields_plain (sep : Ascii.ascii) (s : string) :
  Forall (λ field, str.contains sep field = false) (str.split sep s).
Proof.
  induction s as [|c s IH]; [by apply Forall_singleton|]. cbn.
  destruct (Ascii.eqb c sep) eqn:Hc; [by apply Forall_cons|].
  destruct (str.split sep s) as [|word words]; [by apply Forall_singleton; cbn; rewrite Hc|].
  apply Forall_cons in IH as [Hword Hwords]. apply Forall_cons. split; [|done].
  cbn. by rewrite Hc.
Qed.

Lemma split_append (sep : Ascii.ascii) (prefix s : string) :
  str.contains sep prefix = false →
  str.split sep (prefix +:+ String sep s) = prefix :: str.split sep s.
Proof.
  induction prefix as [|c prefix IH].
  - intros _. change ("" +:+ String sep s) with (String sep s). cbn.
    by rewrite Ascii.eqb_refl.
  - change (String c prefix +:+ String sep s) with (String c (prefix +:+ String sep s)).
    cbn. destruct (Ascii.eqb c sep); [done|]. intros Hp. by rewrite IH.
Qed.

Lemma contains_append (sep : Ascii.ascii) (prefix s : string) :
  str.contains sep (prefix +:+ String sep s) = true.
Proof.
  induction prefix as [|c prefix IH].
  - change ("" +:+ String sep s) with (String sep s). cbn. by rewrite Ascii.eqb_refl.
  - change (String c prefix +:+ String sep s) with (String c (prefix +:+ String sep s)).
    cbn. by destruct (Ascii.eqb c sep).
Qed.

Lemma contains_split (sep : Ascii.ascii) (s : string) :
  str.contains sep s = true →
  ∃ first second rest, str.split sep s = first :: second :: rest.
Proof.
  induction s as [|c s IH]; [done|]. cbn.
  destruct (Ascii.eqb c sep).
  - intros _. pose proof (split_nonempty sep s).
    destruct (str.split sep s) as [|second rest]; [done|]. by eexists _, _, _.
  - intros Hs. destruct (IH Hs) as (first & second & rest & ->). by eexists _, _, _.
Qed.

(** [base64_to_image] decodes one comma-free piece of its argument: the
    argument itself when that has no comma, else what stands between the
    first comma and the second (or the end).  So a data URL decodes as its
    payload does; the index [1] is never out of range; and whatever follows
    a second comma is dropped unread. *)
Theorem data_url_decodes_as_payload (io : codec_api) :
  (∀ s, ∃ payload,
     str.contains comma payload = false ∧
     (str.contains comma s = false → payload = s) ∧
     base64_to_image io s = base64_to_image io payload) ∧
  (∀ prefix payload rest,
     str.contains comma prefix = false → str.contains comma payload = false →
     base64_to_image io (prefix +:+ String comma payload) = base64_to_image io payload ∧
     base64_to_image io (prefix +:+ String comma (payload +:+ String comma rest))
     = base64_to_image io payload).
Proof.
  assert (∀ s payload fields,
            str.split comma s = payload :: fields →
            str.contains comma payload = false →
            ∀ prefix, str.contains comma prefix = false →
              base64_to_image io (prefix +:+ String comma s)
              = base64_to_image io payload) as Hurl.
  { intros s payload fields Hs Hpayload prefix Hprefix. unfold base64_to_image.
    by rewrite contains_append, split_append, Hs, Hpayload. }
  split.
  - intros s. destruct (str.contains comma s) eqn:Hs; [|by exists s].
    destruct (contains_split comma s Hs) as (first & second & rest & Hsplit).
    pose proof (split_fields_plain comma s) as Hplain. rewrite Hsplit in Hplain.
    apply Forall_cons in Hplain as [_ Hplain].
    apply Forall_cons in Hplain as [Hsecond _].
    exists second. split; [done|]. split; [done|].
    unfold base64_to_image. by rewrite Hs, Hsplit, Hsecond.
  - intros prefix payload rest Hprefix Hpayload. split.
    + apply (Hurl payload payload []); [by apply split_plain|done..].
    + apply (Hurl _ payload (str.split comma rest)); [by apply split_append|done..].
Qed.

Lemma data_url_decodes_as_payload_witness :
  str.contains comma "data:image/png;base64" = false ∧
  str.contains comma "iVBORw0KGgo=" = false ∧
  base64_to_image example_codec "data:image/png;base64,iVBORw0KGgo="
  = base64_to_image example_codec "iVBORw0KGgo=" ∧
  base64_to_image example_codec "data:image/png;base64,iVBORw0KGgo=,AAAA"
  = base64_to_image example_codec "iVBORw0KGgo=".
Proof.
  split; [reflexivity|]. split; [reflexivity|].
  exact (proj2 (data_url_decodes_as_payload example_codec)
           "data:image/png;base64" "iVBORw0KGgo=" "AAAA" eq_refl eq_refl).
Defined.

(** ** The processed image *)

Lemma plane_of_canonical (t : tensor4) :
  np.has_shape4 1 28 28 1 t → Forall (λ x, (0 <= x <= 1)%Q) (np.entries4 t) →
  ∃ plane,
    plane_0_0 t = Ok plane ∧ length plane = 28%nat ∧
    Forall (λ row, length row = 28%nat ∧ Forall (λ x, (0 <= x <= 1)%Q) row) plane.
Proof.
  intros [Hlen Hplanes] Hrange. destruct t as [|p [|? ?]]; try done.
  apply Forall_singleton in Hplanes as [Hrows Hcells].
  unfold np.entries4 in Hrange. cbn [concat] in Hrange. rewrite !app_nil_r in Hrange.
  unfold plane_0_0.
  assert (∃ plane, mapM (mapM (λ cell : list Q, cell !! 0%nat)) p = Some plane)
    as [plane Hplane].
  { apply mapM_is_Some. eapply Forall_impl; [exact Hcells|]. intros row [_ Hrow]. cbn.
    apply mapM_is_Some. eapply Forall_impl; [exact Hrow|]. intros [|v cell] Hcell; [done|].
    by eexists. }
  exists plane. rewrite Hplane. split; [done|].
  apply mapM_Some in Hplane. split; [by rewrite <- (Forall2_length _ _ _ Hplane)|].
  clear Hrows. revert Hcells Hrange.
  induction Hplane as [|row prow p plane Hrow _ IH]; intros Hcells Hrange; [done|].
  apply Forall_cons in Hcells as [[Hlen28 Hcell] Hcells].
  cbn [concat] in Hrange. rewrite concat_app, Forall_app in Hrange.
  destruct Hrange as [Hrange_row Hrange]. apply Forall_cons. split; [|by apply IH].
  apply mapM_Some in Hrow. split; [by rewrite <- (Forall2_length _ _ _ Hrow)|].
  clear Hlen28 IH. revert Hcell Hrange_row.
  induction Hrow as [|cell v row prow Hv _ IH]; intros Hcell Hrange_row; [done|].
  apply Forall_cons in Hcell as [_ Hcell].
  cbn [concat] in Hrange_row. rewrite Forall_app in Hrange_row.
  destruct Hrange_row as [Hrange_cell Hrange_row].
  apply Forall_cons. split; [|by apply IH].
  rewrite Forall_forall in Hrange_cell. apply Hrange_cell.
  by eapply list_elem_of_lookup_2.
Qed.

(** [get_processed_image_base64] runs the pipeline once more and encodes
    its output whole: indexing the output never fails, the array that is
    encoded is a 28x28 [uint8] image, and each of its pixels is the integer
    part of 255 times the entry (the cast to [uint8] never wraps around). *)
Theorem processed_image_is_encoded_whole (io : codec_api) (cv : cv2_api)
    (f32 f64 : Q → Q) (image : pil_image) :
  IEEE_rounding f32 → warpAffine_returns_dsize cv → GaussianBlur_keeps_shape cv →
  ∃ l t plane,
    preprocess_for_mnist cv f32 f64 image = (l, Ok t) ∧
    plane_0_0 t = Ok plane ∧
    let img_2d := map (map (λ v, trunc (f32 (v * 255)%Q))) plane in
    is_uint8_image 28 28 img_2d ∧
    get_processed_image_base64 io cv f32 f64 image
    = (l ++ log (numpy_to_base64 io f32 f64 (UInt8 img_2d) false),
       outcome (numpy_to_base64 io f32 f64 (UInt8 img_2d) false)).
Proof.
  intros Hf32 Hwarp Hblur.
  assert (∃ l t, preprocess_for_mnist cv f32 f64 image = (l, Ok t) ∧ canonical t)
    as (l & t & Hrun & Hshape & Hrange).
  { destruct (preprocess_for_mnist_cases cv f32 f64 image)
      as [(l & t & Htry & Hrun)|(l & e & Htry & Hrun)].
    - exists l, t. split; [done|].
      apply (preprocess_try_canonical cv f32 f64 image); [done..|]. by rewrite Htry.
    - eexists _, _. split; [exact Hrun|]. apply zeros_tensor_ok. }
  destruct (plane_of_canonical t Hshape Hrange) as (plane & Hplane & Hlen & Hrows).
  exists l, t, plane. split; [done|]. split; [done|]. cbn zeta.
  assert (map (map (λ v, astype_uint8 (f32 (v * 255)%Q))) plane
          = map (map (λ v, trunc (f32 (v * 255)%Q))) plane) as Hcast.
  { apply map_ext_Forall. eapply Forall_impl; [exact Hrows|]. intros row [_ Hrow]. cbn.
    apply map_ext_Forall. eapply Forall_impl; [exact Hrow|]. intros v Hv. cbn.
    destruct (unit_to_level f32 Hf32 v Hv) as [Hr _].
    unfold astype_uint8. apply Z.mod_small. lia. }
  split.
  - split; [by rewrite length_map|]. apply Forall_map.
    eapply Forall_impl; [exact Hrows|]. intros row [Hrow Hpx]. cbn.
    split; [by rewrite length_map|]. apply Forall_map.
    eapply Forall_impl; [exact Hpx|]. intros v Hv. cbn.
    by destruct (unit_to_level f32 Hf32 v Hv) as [Hr _].
  - unfold get_processed_image_base64.
    eapply run_bind_Ok; [exact Hrun|].
    eapply run_lift_Ok; [exact Hplane|]. cbn zeta. rewrite Hcast.
    by destruct (numpy_to_base64 _ _ _ _ _).
Qed.

Lemma processed_image_is_encoded_whole_witness :
  IEEE_rounding Reference.exact ∧
  warpAffine_returns_dsize Reference.cv2 ∧
  GaussianBlur_keeps_shape Reference.cv2 ∧
  ∃ l t plane,
    preprocess_for_mnist Reference.cv2 Reference.exact Reference.exact (ImageL dot_image)
    = (l, Ok t) ∧
    plane_0_0 t = Ok plane ∧
    is_uint8_image 28 28 (map (map (λ v, trunc (Reference.exact (v * 255)%Q))) plane).
Proof.
  split; [exact exact_is_rounding|].
  split; [exact reference_warpAffine_returns_dsize|].
  split; [exact reference_GaussianBlur_keeps_shape|].
  destruct (processed_image_is_encoded_whole example_codec Reference.cv2
              Reference.exact Reference.exact (ImageL dot_image) exact_is_rounding
              reference_warpAffine_returns_dsize reference_GaussianBlur_keeps_shape)
    as (l & t & plane & Hrun & Hplane & Himg & _).
  exists l, t, plane. split; [exact Hrun|]. split; [exact Hplane|exact Himg].
Defined.

(** ** The endpoints *)

Lemma or_bad_request_Response {A} (prefix : string) (body : M A)
    (l : list string) (a : A) :
  or_bad_request prefix body = (l, Response a) → body = (l, Ok a).
Proof. destruct body as [l' [a'|e]]; cbn; congruence. Qed.

Lemma for_each_length {A B} (f : A → M B) (l : list A) (ys : list B) :
  outcome (for_each f l) = Ok ys → length ys = length l.
Proof.
  revert ys. induction l as [|x l IH]; intros ys H; cbn [for_each] in H.
  - by injection H as <-.
  - bind_inv H. bind_inv H. rewrite outcome_mret in H. injection H as <-.
    cbn. f_equal. by apply IH.
Qed.

Lemma to_vector_entries (t : ndarray) (v : list Q) :
  tf.to_vector t = Some v → tf.entries t = v.
Proof.
  destruct t as [x|xs]; [done|]. cbn [tf.to_vector tf.entries].
  revert v. induction xs as [|x xs IH]; intros v Hv.
  - by injection Hv as <-.
  - cbn [mapM] in Hv. destruct x as [q|?]; [|done]. cbn in Hv.
    destruct (mapM tf.to_scalar xs) as [v'|] eqn:Hxs; [|done].
    injection Hv as <-. cbn. f_equal. by apply IH.
Qed.

Lemma nd_argmax_first_maximum (t : ndarray) (p : Z) :
  nd.argmax t = Ok p →
  ∃ k : nat, p = Z.of_nat k ∧ first_maximum Qltb (tf.entries t) k.
Proof.
  unfold nd.argmax. destruct (tf.entries t) as [|x l] eqn:Hentries; [done|].
  intros [= <-]. destruct (Q_first_maximum (x :: l)) as (k & Hk & Hmax); [done|].
  exists k. split; [exact Hk|exact Hmax].
Qed.

Lemma encode_feature_maps_length (io : codec_api) (api : main_api) (f32 f64 : Q → Q)
    (maps : ndarray) (encoded : list string) :
  outcome (encode_feature_maps io api f32 f64 maps) = Ok encoded →
  ∃ channels, nd.last_axis maps = Ok channels ∧
              length encoded = (16 `min` channels)%nat.
Proof.
  unfold encode_feature_maps. intros H. bind_inv H. rename a into channels.
  exists channels. split; [done|]. apply for_each_length in H. by rewrite length_seq in H.
Qed.

(** What a successful [/scan] returns: for each of [conv1] and [conv2] one
    encoded map per channel of the layer's output, but 16 at most; the
    first row of the outputs of [dense1] and [predictions] as the dense
    activations and the probabilities; and as prediction the first class of
    largest probability. *)
Theorem scan_response_contents (io : codec_api) (cv : cv2_api) (api : main_api)
    (f32 f64 : Q → Q) (net : keras_model) (fm : feature_model)
    (request : ScanRequest.t) (l : list string) (r : ScanResponse.t) :
  scan_image io cv api f32 f64 (Some net) (Some fm) request = (l, Response r) →
  ∃ image processed (activations : gmap string ndarray)
    conv1 conv2 dense1 predictions maps1 maps2 channels1 channels2 dense_row row (k : nat),
    outcome (base64_to_image io (ScanRequest.image request)) = Ok image ∧
    outcome (preprocess_for_mnist cv f32 f64 image) = Ok processed ∧
    outcome (get_layer_activations fm processed) = Ok activations ∧
    activations !! "conv1" = Some conv1 ∧ activations !! "conv2" = Some conv2 ∧
    activations !! "dense1" = Some dense1 ∧
    activations !! "predictions" = Some predictions ∧
    nd.getitem0 conv1 = Ok maps1 ∧ nd.last_axis maps1 = Ok channels1 ∧
    length (ScanResponse.feature_maps_conv1 r) = (16 `min` channels1)%nat ∧
    nd.getitem0 conv2 = Ok maps2 ∧ nd.last_axis maps2 = Ok channels2 ∧
    length (ScanResponse.feature_maps_conv2 r) = (16 `min` channels2)%nat ∧
    nd.getitem0 dense1 = Ok dense_row ∧
    tf.to_vector dense_row = Some (ScanResponse.dense_activations r) ∧
    nd.getitem0 predictions = Ok row ∧
    tf.to_vector row = Some (ScanResponse.probabilities r) ∧
    ScanResponse.prediction r = Z.of_nat k ∧
    first_maximum Qltb (ScanResponse.probabilities r) k.
Proof.
  intros Hrun. unfold scan_image in Hrun. apply or_bad_request_Response in Hrun.
  apply (f_equal outcome) in Hrun. cbn [outcome snd] in Hrun.
  bind_inv Hrun. rename a into image, Ha into Himage.
  bind_inv Hrun. rename a into processed, Ha into Hprocessed.
  bind_inv Hrun. rename a into activations, Ha into Hacts.
  bind_inv Hrun. rename a into conv1, Ha into Hconv1.
  bind_inv Hrun. rename a into maps1, Ha into Hmaps1.
  bind_inv Hrun. rename a into conv2, Ha into Hconv2.
  bind_inv Hrun. rename a into maps2, Ha into Hmaps2.
  bind_inv Hrun. rename a into encoded1, Ha into Henc1.
  bind_inv Hrun. rename a into encoded2, Ha into Henc2.
  bind_inv Hrun. rename a into dense1, Ha into Hdense1.
  bind_inv Hrun. rename a into dense_row, Ha into Hdense_row.
  bind_inv Hrun. rename a into predictions, Ha into Hpredictions.
  bind_inv Hrun. rename a into row, Ha into Hrow.
  bind_inv Hrun. rename a into prediction, Ha into Hprediction.
  bind_inv Hrun. rename a into processed_image, Ha into Hpi.
  bind_inv Hrun. rename a into dense_list, Ha into Hdense_list.
  bind_inv Hrun. rename a into probabilities, Ha into Hprobabilities.
  rewrite outcome_mret in Hrun. injection Hrun as <-. cbn.
  apply encode_feature_maps_length in Henc1 as (channels1 & Hch1 & Hlen1).
  apply encode_feature_maps_length in Henc2 as (channels2 & Hch2 & Hlen2).
  assert (∀ (d : gmap string ndarray) key v, dict_getitem d key = Ok v → d !! key = Some v)
    as Hget.
  { intros d key v. unfold dict_getitem. destruct (d !! key); [|done]. by intros [= ->]. }
  assert (∀ field t v, validate_float_list field t = Ok v → tf.to_vector t = Some v)
    as Hvalid.
  { intros field t v. unfold validate_float_list.
    destruct (tf.to_vector t); [|done]. by intros [= ->]. }
  apply Hvalid in Hdense_list, Hprobabilities.
  apply nd_argmax_first_maximum in Hprediction as (k & -> & Hmax).
  rewrite (to_vector_entries _ _ Hprobabilities) in Hmax.
  exists image, processed, activations, conv1, conv2, dense1, predictions,
    maps1, maps2, channels1, channels2, dense_row, row, k.
  repeat (split; [by auto|]). done.
Qed.

Lemma bind_congr_Ok {A B} (m : M A) (f1 f2 : A → M B) (l : list string) (b : B) :
  (∀ a l', f1 a = (l', Ok b) → f2 a = (l', Ok b)) →
  m ≫= f1 = (l, Ok b) → m ≫= f2 = (l, Ok b).
Proof.
  intros Hf. destruct m as [la [a|e]]; cbn; [|done].
  destruct (f1 a) as [l1 r1] eqn:H1. intros [= <- ->]. by rewrite (Hf a l1).
Qed.

Local Ltac same_step H :=
  revert H; apply bind_congr_Ok; let a := fresh "a" in intros a ? H.

(** The target class of [/explain].  The prediction and the confidence in
    the response are those of the class the model predicts (the first of
    largest probability), whichever class the request asks to explain; and
    a request without a class is answered as the request for the predicted
    class is. *)
Theorem explain_target_class (io : codec_api) (cv : cv2_api) (ov : cv2_overlay_api)
    (api : main_api) (f32 f64 : Q → Q) (net : keras_model)
    (request : ExplainRequest.t) (l : list string) (r : ExplainResponse.t) :
  explain_prediction io cv ov api f32 f64 (Some net) request = (l, Response r) →
  (∃ image processed values row (k : nat),
     outcome (base64_to_image io (ExplainRequest.image request)) = Ok image ∧
     outcome (preprocess_for_mnist cv f32 f64 image) = Ok processed ∧
     forward net processed = Ok values ∧
     nd.getitem0 (values (model_output net)) = Ok row ∧
     ExplainResponse.prediction r = Z.of_nat k ∧
     first_maximum Qltb (tf.entries row) k ∧
     ∀ probabilities, tf.to_vector row = Some probabilities →
                      probabilities !! k = Some (ExplainResponse.confidence r)) ∧
  (ExplainRequest.class_idx request = None →
   explain_prediction io cv ov api f32 f64 (Some net)
     {| ExplainRequest.image := ExplainRequest.image request;
        ExplainRequest.class_idx := Some (ExplainResponse.prediction r) |}
   = (l, Response r)) ∧
  (∀ class_idx l' r',
     explain_prediction io cv ov api f32 f64 (Some net)
       {| ExplainRequest.image := ExplainRequest.image request;
          ExplainRequest.class_idx := class_idx |}
     = (l', Response r') →
     ExplainResponse.prediction r' = ExplainResponse.prediction r ∧
     ExplainResponse.confidence r' = ExplainResponse.confidence r).
Proof.
  intros Hrun. unfold explain_prediction in Hrun.
  apply or_bad_request_Response in Hrun.
  assert (∀ class_idx r',
    outcome (
        image ← base64_to_image io (ExplainRequest.image request);
        processed ← preprocess_for_mnist cv f32 f64 image;
        values ← call "Model.predict" (forward net processed);
        let predictions := values (model_output net) in
        row ← lift (nd.getitem0 predictions);
        prediction ← lift (nd.argmax row);
        chosen ← lift (nd.getitem row prediction);
        confidence ← lift (nd.to_float chosen);
        let target_class := default prediction class_idx in
        '(heatmap, overlay) ←
          generate_gradcam_explanation ov f32 f64 net processed
            (Some target_class) "conv2";
        heatmap_resized ←
          call "cv2.resize" (resize_map api heatmap (112, 112) INTER_LINEAR);
        heatmap_base64 ← numpy_to_base64 io f32 f64 (Float32 heatmap_resized) true;
        overlay_resized ←
          call "cv2.resize" (resize_color api overlay (112, 112) INTER_LINEAR);
        overlay_rgb ← call "cv2.cvtColor" (cvtColor_BGR2RGB api overlay_resized);
        overlay_pil ← call "Image.fromarray" (Image_fromarray_RGB api overlay_rgb);
        overlay_base64 ← image_to_base64 io overlay_pil "PNG";
        mret {| ExplainResponse.heatmap := heatmap_base64;
                ExplainResponse.overlay := overlay_base64;
                ExplainResponse.prediction := prediction;
                ExplainResponse.confidence := confidence |}) = Ok r' →
    ∃ image processed values row chosen,
      outcome (base64_to_image io (ExplainRequest.image request)) = Ok image ∧
      outcome (preprocess_for_mnist cv f32 f64 image) = Ok processed ∧
      forward net processed = Ok values ∧
      nd.getitem0 (values (model_output net)) = Ok row ∧
      nd.argmax row = Ok (ExplainResponse.prediction r') ∧
      nd.getitem row (ExplainResponse.prediction r') = Ok chosen ∧
      nd.to_float chosen = Ok (ExplainResponse.confidence r')) as Hstages.
  { intros class_idx r' H.
    bind_inv H. rename a into image. bind_inv H. rename a into processed.
    bind_inv H. rename a into values. cbn zeta in H.
    bind_inv H. rename a into row. bind_inv H. rename a into prediction.
    bind_inv H. rename a into chosen. bind_inv H. rename a into confidence.
    cbn zeta in H. bind_inv H. destruct a as [heatmap overlay].
    do 6 bind_inv H. rewrite outcome_mret in H. injection H as <-. cbn.
    by exists image, processed, values, row, chosen. }
  destruct (Hstages (ExplainRequest.class_idx request) r)
    as (image & processed & values & row & chosen & Himage & Hprocessed & Hvalues
        & Hrow & Hprediction & Hchosen & Hconfidence);
    [exact (f_equal outcome Hrun)|].
  split; [|split].
  - destruct (nd_argmax_first_maximum _ _ Hprediction) as (k & Hk & Hmax).
    exists image, processed, values, row, k. do 6 (split; [done|]).
    intros probabilities Hvector. rewrite Hk in Hchosen.
    destruct row as [?|xs]; [done|]. cbn in Hvector, Hchosen.
    rewrite Nat2Z.id in Hchosen.
    destruct (xs !! k) as [x|] eqn:Hx; [|done]. injection Hchosen as ->.
    apply mapM_Some in Hvector.
    destruct (Forall2_lookup_l _ _ _ _ _ Hvector Hx) as (q & Hq & Hscalar).
    destruct chosen as [q'|?]; [|done]. injection Hscalar as ->.
    cbn in Hconfidence. by injection Hconfidence as <-.
  - intros Hnone. unfold explain_prediction. cbn [ExplainRequest.image ExplainRequest.class_idx].
    rewrite Hnone in Hrun.
    assert (∀ body, body = (l, Ok r) →
              or_bad_request "Error generating explanation: " body = (l, Response r))
      as Hok by (by intros ? ->).
    apply Hok. clear Hok.
    same_step Hrun. same_step Hrun. same_step Hrun. cbn zeta in *.
    same_step Hrun. same_step Hrun. same_step Hrun. same_step Hrun.
    cbn zeta in *. cbn [default] in *.
    assert (ExplainResponse.prediction r = a3) as ->; [|exact Hrun].
    apply (f_equal outcome) in Hrun. cbn [outcome snd] in Hrun.
    bind_inv Hrun. destruct a6 as [heatmap overlay].
    do 6 bind_inv Hrun. rewrite outcome_mret in Hrun. by injection Hrun as <-.
  - intros class_idx l' r' Hrun'. unfold explain_prediction in Hrun'.
    apply or_bad_request_Response in Hrun'.
    cbn [ExplainRequest.image ExplainRequest.class_idx] in Hrun'.
    destruct (Hstages class_idx r')
      as (image' & processed' & values' & row' & chosen' & Himage' & Hprocessed'
          & Hvalues' & Hrow' & Hprediction' & Hchosen' & Hconfidence');
      [exact (f_equal outcome Hrun')|].
    assert (image' = image) as -> by congruence.
    assert (processed' = processed) as -> by congruence.
    assert (values' = values) as -> by congruence.
    assert (row' = row) as -> by congruence.
    assert (ExplainResponse.prediction r' = ExplainResponse.prediction r) as Hp
      by congruence.
    split; [done|]. rewrite Hp in Hchosen'. congruence.
Qed.

Lemma scan_response_contents_witness :
  ∃ l r,
    scan_image example_codec Reference.cv2 example_api Reference.exact Reference.exact
      (Some example_model) (Some example_feature_model)
      {| ScanRequest.image := "data:image/png;base64,AAAA" |}
    = (l, Response r) ∧
    length (ScanResponse.feature_maps_conv1 r) = 2%nat ∧
    length (ScanResponse.feature_maps_conv2 r) = 2%nat ∧
    ScanResponse.probabilities r = [1 # 4; 3 # 4]%Q ∧
    ScanResponse.prediction r = 1.
Proof.
  destruct (scan_image example_codec Reference.cv2 example_api Reference.exact
              Reference.exact (Some example_model) (Some example_feature_model)
              {| ScanRequest.image := "data:image/png;base64,AAAA" |})
    as [l [r|status_code detail]] eqn:Hrun.
  - exists l, r. split; [reflexivity|].
    destruct (scan_response_contents _ _ _ _ _ _ _ _ _ _ Hrun)
      as (image & processed & activations & conv1 & conv2 & dense1 & predictions
          & maps1 & maps2 & channels1 & channels2 & dense_row & row & k
          & _ & Hprocessed & Hacts & Hconv1 & Hconv2 & _ & Hpredictions
          & Hmaps1 & Hch1 & Hlen1 & Hmaps2 & Hch2 & Hlen2 & _ & _
          & Hrow & Hprobs & Hprediction & Hmax).
    assert (activations = list_to_map
              [ ("conv1", example_values 0%nat); ("conv2", example_values 1%nat);
                ("conv3", example_values 2%nat); ("dense1", example_values 3%nat);
                ("predictions", example_values 4%nat) ]) as ->.
    { pose proof (get_layer_activations_of example_model processed example_values
                    0%nat 1%nat 2%nat 3%nat 4%nat eq_refl) as Hof.
      change {| base := example_model; outputs := _ |} with example_feature_model in Hof.
      rewrite Hof in Hacts. by injection Hacts as <-. }
    vm_compute in Hconv1, Hconv2, Hpredictions.
    injection Hconv1 as <-. injection Hconv2 as <-. injection Hpredictions as <-.
    vm_compute in Hmaps1, Hmaps2, Hrow.
    injection Hmaps1 as <-. injection Hmaps2 as <-. injection Hrow as <-.
    vm_compute in Hch1, Hch2.
    injection Hch1 as <-. injection Hch2 as <-.
    assert (Some [1 # 4; 3 # 4]%Q = Some (ScanResponse.probabilities r)) as Hp
      by exact Hprobs.
    injection Hp as Hp. rewrite <- Hp in *. split; [exact Hlen1|]. split; [exact Hlen2|].
    split; [reflexivity|]. rewrite Hprediction.
    destruct Hmax as (x & Hx & Hge & _).
    destruct k as [|[|k]]; [|reflexivity|].
    + injection Hx as <-. discriminate (Hge 1%nat (3 # 4)%Q eq_refl).
    + apply lookup_lt_Some in Hx. cbn in Hx. lia.
  - exfalso.
    assert (match snd (scan_image example_codec Reference.cv2 example_api
                         Reference.exact Reference.exact (Some example_model)
                         (Some example_feature_model)
                         {| ScanRequest.image := "data:image/png;base64,AAAA" |})
            with Response _ => true | HTTPException _ _ => false end = true) as Hok
      by (vm_compute; reflexivity).
    rewrite Hrun in Hok. discriminate Hok.
Defined.

Lemma explain_target_class_witness :
  ∃ l r,
    explain_prediction example_codec Reference.cv2 Reference.overlay example_api
      Reference.exact Reference.exact (Some example_model)
      {| ExplainRequest.image := "data:image/png;base64,AAAA";
         ExplainRequest.class_idx := None |}
    = (l, Response r) ∧
    explain_prediction example_codec Reference.cv2 Reference.overlay example_api
      Reference.exact Reference.exact (Some example_model)
      {| ExplainRequest.image := "data:image/png;base64,AAAA";
         ExplainRequest.class_idx := Some (ExplainResponse.prediction r) |}
    = (l, Response r).
Proof.
  destruct (explain_prediction example_codec Reference.cv2 Reference.overlay example_api
              Reference.exact Reference.exact (Some example_model)
              {| ExplainRequest.image := "data:image/png;base64,AAAA";
                 ExplainRequest.class_idx := None |})
    as [l [r|status_code detail]] eqn:Hrun.
  - exists l, r. split; [reflexivity|].
    exact (proj1 (proj2 (explain_target_class _ _ _ _ _ _ _ _ _ _ Hrun)) eq_refl).
  - exfalso.
    assert (match snd (explain_prediction example_codec Reference.cv2 Reference.overlay
                         example_api Reference.exact Reference.exact (Some example_model)
                         {| ExplainRequest.image := "data:image/png;base64,AAAA";
                            ExplainRequest.class_idx := None |})
            with Response _ => true | HTTPException _ _ => false end = true) as Hok
      by (vm_compute; reflexivity).
    rewrite Hrun in Hok. discriminate Hok.
Defined.

(** ** Termination of the stroke normalisation *)

Section Skeleton.

Variable mo : morph_api.
Variable kernel : array2.
Variables E D : array2 → array2.
Variables Sb Or : array2 → array2 → array2.
Hypothesis Herode : ∀ src, erode mo src kernel 1 = Ok (E src).
Hypothesis Hdilate : ∀ src, dilate mo src kernel 1 = Ok (D src).
Hypothesis Hsubtract : ∀ a b, subtract mo a b = Ok (Sb a b).
Hypothesis Hor : ∀ a b, bitwise_or mo a b = Ok (Or a b).

Lemma skeletonize_step (fuel : nat) (skeleton temp : array2) :
  outcome (skeletonize mo (S fuel) kernel skeleton temp)
  = if bool_decide (countNonZero (E temp) = 0)
    then Ok (Some (Or skeleton (Sb temp (D (E temp)))))
    else outcome (skeletonize mo fuel kernel (Or skeleton (Sb temp (D (E temp)))) (E temp)).
Proof.
  cbn [skeletonize].
  rewrite (outcome_bind _ _ (E temp)) by (by rewrite outcome_call).
  rewrite (outcome_bind _ _ (D (E temp))) by (by rewrite outcome_call).
  rewrite (outcome_bind _ _ (Sb temp (D (E temp)))) by (by rewrite outcome_call).
  rewrite (outcome_bind _ _ (Or skeleton (Sb temp (D (E temp)))))
    by (by rewrite outcome_call).
  cbn zeta. by destruct (bool_decide _).
Qed.

Lemma skeletonize_result (fuel : nat) (skeleton temp : array2) :
  ∃ r, outcome (skeletonize mo fuel kernel skeleton temp) = Ok r ∧
       (is_Some r ↔
        ∃ n, (1 <= n <= fuel)%nat ∧ countNonZero (Nat.iter n E temp) = 0).
Proof.
  revert skeleton temp. induction fuel as [|fuel IH]; intros skeleton temp.
  - exists None. split; [done|]. split; [by intros [? ?]|]. intros (n & ? & _). lia.
  - rewrite skeletonize_step. case_bool_decide as Hempty.
    + eexists. split; [done|]. split; [|by eexists].
      intros _. exists 1%nat. split; [lia|done].
    + destruct (IH (Or skeleton (Sb temp (D (E temp)))) (E temp)) as (r & Hr & Hiff).
      exists r. split; [done|]. rewrite Hiff. split.
      * intros (n & Hn & Hzero). exists (S n). split; [lia|].
        by rewrite Nat.iter_succ_r.
      * intros (n & Hn & Hzero). destruct n as [|[|n]]; [lia|done|].
        exists (S n). split; [lia|]. by rewrite <- Nat.iter_succ_r.
Qed.

End Skeleton.

(** When the four OpenCV operations succeed, the loop of
    [normalize_stroke_width] ends exactly when one of the repeated erosions
    of the image is empty, after that many iterations.  On an image that
    erosion leaves unchanged and that is not empty, the loop never ends:
    whatever the number of iterations allowed, [normalize_stroke_width] has
    not returned. *)
Theorem stroke_normalisation_ends_iff_eroded_away (cv : cv2_api) (mo : morph_api)
    (kernel : array2) (E D : array2 → array2) (Sb Or : array2 → array2 → array2) :
  (∀ src, erode mo src kernel 1 = Ok (E src)) →
  (∀ src, dilate mo src kernel 1 = Ok (D src)) →
  (∀ a b, subtract mo a b = Ok (Sb a b)) →
  (∀ a b, bitwise_or mo a b = Ok (Or a b)) →
  (∀ fuel skeleton temp,
     (∃ s, outcome (skeletonize mo fuel kernel skeleton temp) = Ok (Some s)) ↔
     (∃ n, (1 <= n <= fuel)%nat ∧ countNonZero (Nat.iter n E temp) = 0)) ∧
  (∀ binary_img,
     getStructuringElement cv MORPH_CROSS (3, 3) = Ok kernel →
     E binary_img = binary_img → countNonZero binary_img ≠ 0 →
     ∀ fuel, outcome (normalize_stroke_width cv mo fuel binary_img) = Ok None).
Proof.
  intros Herode Hdilate Hsubtract Hor.
  assert (∀ fuel skeleton temp,
     (∃ s, outcome (skeletonize mo fuel kernel skeleton temp) = Ok (Some s)) ↔
     (∃ n, (1 <= n <= fuel)%nat ∧ countNonZero (Nat.iter n E temp) = 0)) as Hiff.
  { intros fuel skeleton temp.
    destruct (skeletonize_result mo kernel E D Sb Or Herode Hdilate Hsubtract Hor
                fuel skeleton temp) as (r & Hr & Hiff).
    rewrite Hr, <- Hiff. split.
    - intros [s [= ->]]. by eexists.
    - intros [s ->]. by eexists. }
  split; [exact Hiff|].
  intros binary_img Hkernel Hfixed Hcount fuel. unfold normalize_stroke_width.
  rewrite (outcome_bind _ _ kernel) by (by rewrite outcome_call).
  destruct (skeletonize_result mo kernel E D Sb Or Herode Hdilate Hsubtract Hor
              fuel (np.zeros_like binary_img) binary_img) as (r & Hr & Hsome).
  rewrite (outcome_bind _ _ r) by done.
  destruct r as [s|]; [|done]. exfalso.
  destruct (proj1 Hsome) as (n & _ & Hzero); [by eexists|].
  apply Hcount. clear -Hfixed Hzero.
  assert (Nat.iter n E binary_img = binary_img) as Hiter.
  { clear Hzero. induction n as [|n IH]; [done|].
    change (Nat.iter (S n) E binary_img) with (E (Nat.iter n E binary_img)).
    by rewrite IH. }
  by rewrite Hiter in Hzero.
Qed.

Lemma stroke_normalisation_ends_iff_eroded_away_witness :
  getStructuringElement cross_cv2 MORPH_CROSS (3, 3)
  = Ok [[0; 1; 0]; [1; 1; 1]; [0; 1; 0]] ∧
  Reference.erode [[0; 1; 0]; [1; 1; 1]; [0; 1; 0]] (blank_image 3 255)
  = blank_image 3 255 ∧
  countNonZero (blank_image 3 255) ≠ 0 ∧
  (∀ fuel, outcome (normalize_stroke_width cross_cv2 example_morph fuel
                      (blank_image 3 255)) = Ok None) ∧
  ∃ s, outcome (skeletonize example_morph 2 [[0; 1; 0]; [1; 1; 1]; [0; 1; 0]]
                  (np.zeros_like two_blob_image) two_blob_image) = Ok (Some s).
Proof.
  pose (kernel := [[0; 1; 0]; [1; 1; 1]; [0; 1; 0]]).
  assert (Reference.erode kernel (blank_image 3 255) = blank_image 3 255) as Hfixed
    by (vm_compute; reflexivity).
  assert (countNonZero (blank_image 3 255) ≠ 0) as Hcount by (by vm_compute).
  destruct (stroke_normalisation_ends_iff_eroded_away cross_cv2 example_morph kernel
              (Reference.erode kernel) (Reference.dilate kernel)
              (λ a b, zip_with (zip_with (λ a b, Z.max 0 (a - b))) a b)
              (λ a b, zip_with (zip_with Z.lor) a b))
    as [Hends Hloops]; [done..|].
  split; [reflexivity|]. split; [exact Hfixed|]. split; [exact Hcount|]. split.
  - exact (Hloops (blank_image 3 255) eq_refl Hfixed Hcount).
  - apply Hends. exists 2%nat. split; [lia|]. vm_compute. reflexivity.
Defined.

(** ** The overlay *)

(** On a network input as [preprocess_for_mnist] returns it,
    [generate_overlay] never fails on its own account: taking the image
    plane succeeds, the plane scaled back to [uint8] is a 28x28 image whose
    pixels are the integer parts of 255 times the entries (the cast never
    wraps around), and the heatmap is resized to 28x28.  What remains are
    the four OpenCV calls, in this order. *)
Theorem overlay_of_canonical_input (ov : cv2_overlay_api) (f32 f64 : Q → Q)
    (self : GradCAM) (input_image : tensor4) (heatmap : ndarray) (alpha : Q)
    (colormap : colormap) :
  IEEE_rounding f32 → canonical input_image →
  ∃ plane,
    plane_0_0 input_image = Ok plane ∧
    let img := map (map (λ v, trunc (f32 (v * 255)%Q))) plane in
    is_uint8_image 28 28 img ∧
    generate_overlay ov f32 f64 self input_image heatmap alpha colormap
    = (heatmap_resized ← call "cv2.resize" (resize_float ov heatmap (28, 28));
       heatmap_colored ←
         call "cv2.applyColorMap"
              (applyColorMap ov
                 (map (map (λ v, astype_uint8 (fmul f32 v 255))) heatmap_resized)
                 colormap);
       img_bgr ← call "cv2.cvtColor" (cvtColor_GRAY2BGR ov img);
       call "cv2.addWeighted"
            (addWeighted ov img_bgr (f64 (1 - alpha)%Q) heatmap_colored alpha 0)).
Proof.
  intros Hf32 [Hshape Hrange].
  destruct (plane_of_canonical input_image Hshape Hrange)
    as (plane & Hplane & Hlen & Hrows).
  exists plane. split; [done|]. cbn zeta.
  assert (map (map (λ v, astype_uint8 (fmul f32 v 255))) plane
          = map (map (λ v, trunc (f32 (v * 255)%Q))) plane) as Hcast.
  { apply map_ext_Forall. eapply Forall_impl; [exact Hrows|]. intros row [_ Hrow]. cbn.
    apply map_ext_Forall. eapply Forall_impl; [exact Hrow|]. intros v Hv. cbn.
    destruct (unit_to_level f32 Hf32 v Hv) as [Hr _].
    unfold astype_uint8, fmul. apply Z.mod_small. lia. }
  assert (is_uint8_image 28 28 (map (map (λ v, trunc (f32 (v * 255)%Q))) plane)) as Himg.
  { split; [by rewrite length_map|]. apply Forall_map.
    eapply Forall_impl; [exact Hrows|]. intros row [Hrow Hpx]. cbn.
    split; [by rewrite length_map|]. apply Forall_map.
    eapply Forall_impl; [exact Hpx|]. intros v Hv. cbn.
    by destruct (unit_to_level f32 Hf32 v Hv) as [Hr _]. }
  split; [exact Himg|].
  unfold generate_overlay. unfold plane_0_0 in Hplane.
  destruct input_image as [|p rest]; [discriminate Hplane|].
  destruct (mapM (mapM (λ cell : list Q, cell !! 0%nat)) p) as [img|] eqn:Hp;
    [|discriminate Hplane].
  injection Hplane as ->.
  eapply run_lift_Ok; [reflexivity|]. cbn beta. rewrite Hp.
  eapply run_lift_Ok; [reflexivity|]. cbn beta zeta. rewrite Hcast.
  assert (np.shape (map (map (λ v, trunc (f32 (v * 255)%Q))) plane) = (28, 28)) as ->;
    [|done].
  destruct Himg as [Hl Hr].
  destruct (map (map (λ v, trunc (f32 (v * 255)%Q))) plane) as [|row0 rows];
    [discriminate Hl|].
  apply Forall_cons in Hr as [[Hw _] _]. unfold np.shape. by rewrite Hl, Hw.
Qed.

Lemma overlay_of_canonical_input_witness :
  IEEE_rounding Reference.exact ∧ canonical np.zeros_1_28_28_1 ∧
  ∃ plane,
    plane_0_0 np.zeros_1_28_28_1 = Ok plane ∧
    is_uint8_image 28 28 (map (map (λ v, trunc (Reference.exact (v * 255)%Q))) plane).
Proof.
  split; [exact exact_is_rounding|]. split; [exact zeros_tensor_ok|].
  destruct (overlay_of_canonical_input Reference.overlay Reference.exact Reference.exact
              example_gradcam np.zeros_1_28_28_1 (Scalar 0) (4 # 10) COLORMAP_JET
              exact_is_rounding zeros_tensor_ok) as (plane & Hplane & Himg & _).
  exists plane. split; [exact Hplane|exact Himg].
Defined.

(** ** Step 7: the bounding box *)

Lemma canonical_tensor_region (cv : cv2_api) (f32 f64 : Q → Q)
    (img_array binary : array2) :
  canonical_tensor cv f32 f64 img_array binary
  = (kernel_close ← call "cv2.getStructuringElement"
                        (getStructuringElement cv MORPH_ELLIPSE (2, 2));
     binary ← call "cv2.morphologyEx" (morphologyEx cv binary MORPH_CLOSE kernel_close);
     if bool_decide (length (np.where_positive binary) = 0%nat)
     then mret np.zeros_1_28_28_1
     else
       let digit := digit_region img_array binary in
       let '(digit_h, digit_w) := np.shape digit in
       '(new_h, new_w) ← lift (resized_dimensions f64 digit_h digit_w);
       let interpolation :=
         if bool_decide (digit_h > new_h) || bool_decide (digit_w > new_w)
         then INTER_AREA else INTER_CUBIC in
       digit_resized ← call "cv2.resize" (resize cv digit (new_w, new_h) interpolation);
       let canvas := np.zeros 28 28 in
       let '(y_offset, x_offset, copy_h, copy_w) := canvas_placement new_h new_w in
       canvas ← lift (assign_block canvas y_offset x_offset copy_h copy_w
                        (np.slice2 0 copy_h 0 copy_w digit_resized));
       canvas ← center_digit_by_mass cv f32 f64 canvas;
       canvas ← call "cv2.GaussianBlur" (GaussianBlur cv canvas (3, 3) (1 # 2));
       canvas_max ← lift (np.max canvas);
       let canvas :=
         if bool_decide (canvas_max > 0) then renormalize f32 canvas_max canvas
         else canvas in
       mret (np.expand_dims_0_last (scale_to_unit f32 canvas))).
Proof.
  unfold canonical_tensor, digit_region, padded_bounding_box.
  destruct (call "cv2.getStructuringElement" _) as [l1 [kernel_close|e]]; [|done].
  cbn [mbind M_bind bind].
  destruct (call "cv2.morphologyEx" _) as [l2 [closed|e]]; [|done].
  by destruct (np.shape img_array).
Qed.

Lemma minimum_spec (x : Z) (l : list Z) :
  np.minimum (x :: l) ∈ x :: l ∧ Forall (λ v, np.minimum (x :: l) <= v) (x :: l).
Proof.
  unfold np.minimum. induction l as [|y l [IHin IHle]]; cbn [foldr].
  - split; [apply list_elem_of_here|]. apply Forall_singleton. lia.
  - apply Forall_cons in IHle as [Hx Hl]. split.
    + destruct (Z.min_spec y (foldr Z.min x l)) as [[_ ->]|[_ ->]].
      * apply list_elem_of_further, list_elem_of_here.
      * apply elem_of_cons in IHin as [->|?];
          [apply list_elem_of_here|by do 2 apply list_elem_of_further].
    + apply Forall_cons. split; [cbn beta in *; lia|].
      apply Forall_cons. split; [lia|].
      eapply Forall_impl; [exact Hl|]. intros v Hv. cbn beta in *. lia.
Qed.

Lemma maximum_spec (x : Z) (l : list Z) :
  np.maximum (x :: l) ∈ x :: l ∧ Forall (λ v, v <= np.maximum (x :: l)) (x :: l).
Proof. apply foldr_max_spec. Qed.

Lemma elem_of_where_positive (a : array2) (y x : Z) :
  (y, x) ∈ np.where_positive a ↔
  ∃ (i j : nat) row v,
    y = Z.of_nat i ∧ x = Z.of_nat j ∧ a !! i = Some row ∧ row !! j = Some v ∧ 0 < v.
Proof.
  unfold np.where_positive, array2. rewrite list_elem_of_In, in_concat. split.
  - intros (l & Hl & Hin). apply list_elem_of_In in Hl, Hin.
    apply elem_of_lookup_imap in Hl as (i & row & -> & Hrow).
    apply list_elem_of_omap in Hin as (o & Ho & Hsome).
    cbn in Hsome. subst o.
    apply elem_of_lookup_imap in Ho as (j & v & Hv & Hj).
    case_bool_decide; [|done]. injection Hv as -> ->.
    by exists i, j, row, v.
  - intros (i & j & row & v & -> & -> & Hrow & Hv & Hpos).
    eexists. rewrite <- !list_elem_of_In.
    split; [apply elem_of_lookup_imap; by exists i, row|].
    apply list_elem_of_omap. exists (Some (Z.of_nat i, Z.of_nat j)). split; [|done].
    apply elem_of_lookup_imap. exists j, v. split; [|done].
    by rewrite bool_decide_eq_true_2.
Qed.

Lemma filter_none {A} (P : A → Prop) `{∀ x, Decision (P x)} (l : list A) :
  Forall (λ x, ¬ P x) l → filter P l = [].
Proof.
  induction 1 as [|x l Hx _ IH]; [done|]. by rewrite filter_cons_False.
Qed.

(** Cutting a row down to columns that hold all its positive entries keeps
    them all. *)
Lemma positive_in_slice (x0 x1 : Z) (row : list Z) :
  0 <= x0 →
  (∀ (j : nat) v, row !! j = Some v → 0 < v → x0 <= Z.of_nat j < x1) →
  filter (λ v, 0 < v) (np.slice x0 x1 row) = filter (λ v, 0 < v) row.
Proof.
  intros Hx0 Hin. unfold np.slice.
  rewrite <- (take_drop (Z.to_nat x0) row) at 2.
  rewrite <- (take_drop (Z.to_nat (x1 - x0)) (drop (Z.to_nat x0) row)) at 2.
  rewrite !filter_app.
  rewrite (filter_none _ (take (Z.to_nat x0) row)).
  2:{ apply Forall_lookup. intros j v Hj Hv.
      apply lookup_take_Some in Hj as [Hj Hlt]. specialize (Hin j v Hj Hv). lia. }
  rewrite (filter_none _ (drop (Z.to_nat (x1 - x0)) _)).
  2:{ apply Forall_lookup. intros j v Hj Hv. rewrite !lookup_drop in Hj.
      specialize (Hin _ v Hj Hv). lia. }
  by rewrite app_nil_r.
Qed.

Lemma count_positive_app (a b : array2) :
  np.count_positive (a ++ b) = np.count_positive a + np.count_positive b.
Proof.
  unfold np.count_positive. induction a as [|row a IH]; [done|]. cbn. lia.
Qed.

Lemma count_positive_none (a : array2) :
  Forall (Forall (λ v, ¬ 0 < v)) a → np.count_positive a = 0.
Proof.
  unfold np.count_positive. induction 1 as [|row a Hrow _ IH]; [done|].
  cbn. by rewrite (filter_none _ row), IH.
Qed.

Lemma count_positive_ext (f : list Z → list Z) (a : array2) :
  Forall (λ row, filter (λ v, 0 < v) (f row) = filter (λ v, 0 < v) row) a →
  np.count_positive (map f a) = np.count_positive a.
Proof.
  unfold np.count_positive. induction 1 as [|row a Hrow _ IH]; [done|].
  cbn. by rewrite Hrow, IH.
Qed.

(** Cutting an image down to a rectangle that holds all its positive
    pixels keeps them all. *)
Lemma count_positive_slice2 (y0 y1 x0 x1 : Z) (a : array2) :
  0 <= y0 → 0 <= x0 →
  (∀ (i j : nat) row v, a !! i = Some row → row !! j = Some v → 0 < v →
     y0 <= Z.of_nat i < y1 ∧ x0 <= Z.of_nat j < x1) →
  np.count_positive (np.slice2 y0 y1 x0 x1 a) = np.count_positive a.
Proof.
  intros Hy0 Hx0 Hin. unfold array2 in *. unfold np.slice2. unfold np.slice at 2.
  rewrite <- (take_drop (Z.to_nat y0) a) at 2.
  rewrite <- (take_drop (Z.to_nat (y1 - y0)) (drop (Z.to_nat y0) a)) at 2.
  rewrite !count_positive_app.
  rewrite (count_positive_none (take (Z.to_nat y0) a)).
  2:{ apply Forall_lookup. intros i row Hi. apply lookup_take_Some in Hi as [Hi Hlt].
      apply Forall_lookup. intros j v Hj Hv. destruct (Hin i j row v Hi Hj Hv). lia. }
  rewrite (count_positive_none (drop (Z.to_nat (y1 - y0)) _)).
  2:{ apply Forall_lookup. intros i row Hi. rewrite !lookup_drop in Hi.
      apply Forall_lookup. intros j v Hj Hv. destruct (Hin _ j row v Hi Hj Hv). lia. }
  rewrite Z.add_0_l, Z.add_0_r. apply count_positive_ext.
  apply Forall_lookup. intros i row Hi. cbn beta.
  apply lookup_take_Some in Hi as [Hi _]. rewrite lookup_drop in Hi.
  apply positive_in_slice; [done|]. intros j v Hj Hv.
  by destruct (Hin _ j row v Hi Hj Hv).
Qed.

Lemma has_shape_shape (h w : nat) (a : array2) :
  has_shape h w a → (0 < h)%nat → np.shape a = (Z.of_nat h, Z.of_nat w).
Proof.
  intros [<- Hrows] Hpos. unfold np.shape. destruct a as [|row a]; [cbn in Hpos; lia|].
  apply Forall_cons in Hrows as [<- _]. done.
Qed.

Lemma minimum_le_maximum (l : list Z) : l ≠ [] → np.minimum l <= np.maximum l.
Proof.
  destruct l as [|x l]; [done|]. intros _.
  destruct (minimum_spec x l) as [Hin _]. destruct (maximum_spec x l) as [_ Hle].
  rewrite Forall_forall in Hle. by apply Hle.
Qed.

(** The pixels listed by [np.where] lie between the extremes of their
    coordinates. *)
Lemma where_positive_extremes (a : array2) (i j : nat) (row : list Z) (v : Z) :
  a !! i = Some row → row !! j = Some v → 0 < v →
  let coords := np.where_positive a in
  np.minimum (fst <$> coords) <= Z.of_nat i <= np.maximum (fst <$> coords) ∧
  np.minimum (snd <$> coords) <= Z.of_nat j <= np.maximum (snd <$> coords).
Proof.
  intros Hrow Hv Hpos coords.
  assert ((Z.of_nat i, Z.of_nat j) ∈ coords) as Hin.
  { apply elem_of_where_positive. by exists i, j, row, v. }
  assert (Z.of_nat i ∈ coords.*1) as Hy.
  { apply list_elem_of_fmap. by exists (Z.of_nat i, Z.of_nat j). }
  assert (Z.of_nat j ∈ coords.*2) as Hx.
  { apply list_elem_of_fmap. by exists (Z.of_nat i, Z.of_nat j). }
  clearbody coords. clear Hin.
  destruct (coords.*1) as [|y ys] eqn:Hys; [by apply elem_of_nil in Hy|].
  destruct (coords.*2) as [|x xs] eqn:Hxs; [by apply elem_of_nil in Hx|].
  destruct (minimum_spec y ys) as [_ Hymin]. destruct (maximum_spec y ys) as [_ Hymax].
  destruct (minimum_spec x xs) as [_ Hxmin]. destruct (maximum_spec x xs) as [_ Hxmax].
  rewrite Forall_forall in Hymin, Hymax, Hxmin, Hxmax.
  specialize (Hymin _ Hy). specialize (Hymax _ Hy).
  specialize (Hxmin _ Hx). specialize (Hxmax _ Hx). cbn beta in *. lia.
Qed.

(** The extremes are coordinates of pixels of the image. *)
Lemma where_positive_bounds (h w : nat) (a : array2) :
  has_shape h w a → np.where_positive a ≠ [] →
  let coords := np.where_positive a in
  0 <= np.minimum (fst <$> coords) ∧ np.maximum (fst <$> coords) < Z.of_nat h ∧
  0 <= np.minimum (snd <$> coords) ∧ np.maximum (snd <$> coords) < Z.of_nat w.
Proof.
  intros [Hlen Hrows] Hne coords.
  assert (∀ p, p ∈ coords → 0 <= p.1 < Z.of_nat h ∧ 0 <= p.2 < Z.of_nat w) as Hin.
  { intros [y x] Hp. apply elem_of_where_positive in Hp
      as (i & j & row & v & -> & -> & Hrow & Hv & _).
    rewrite Forall_lookup in Hrows. specialize (Hrows _ _ Hrow). cbn beta in Hrows.
    apply lookup_lt_Some in Hrow, Hv. cbn. lia. }
  assert (∀ y, y ∈ coords.*1 → 0 <= y < Z.of_nat h) as Hys.
  { intros y Hy. apply list_elem_of_fmap in Hy as (p & -> & Hp). by apply Hin. }
  assert (∀ x, x ∈ coords.*2 → 0 <= x < Z.of_nat w) as Hxs.
  { intros x Hx. apply list_elem_of_fmap in Hx as (p & -> & Hp). by apply Hin. }
  fold coords in Hne. clearbody coords. clear Hin.
  destruct coords as [|[y0 x0] coords]; [done|]. cbn [fmap list_fmap fst snd] in *.
  destruct (minimum_spec y0 (coords.*1)) as [Hymin _].
  destruct (maximum_spec y0 (coords.*1)) as [Hymax _].
  destruct (minimum_spec x0 (coords.*2)) as [Hxmin _].
  destruct (maximum_spec x0 (coords.*2)) as [Hxmax _].
  apply Hys in Hymin, Hymax. apply Hxs in Hxmin, Hxmax. lia.
Qed.

(** Step 7 of [preprocess_for_mnist].  When the mask has the shape of
    the image and at least one positive pixel, the padded and clipped
    bounding box lies inside the image, the region cut out of the mask has
    at least one row and one column and holds every positive pixel of the
    mask; so step 8 divides by a positive height and gives dimensions
    between 1 and 20. *)
Theorem region_holds_the_digit (f64 : Q → Q) (img_array binary : array2) (h w : nat) :
  IEEE_rounding f64 →
  np.shape img_array = (Z.of_nat h, Z.of_nat w) →
  has_shape h w binary →
  np.where_positive binary ≠ [] →
  ∃ y_min y_max x_min x_max new_h new_w,
    let digit := digit_region img_array binary in
    let digit_h := y_max - y_min + 1 in
    let digit_w := x_max - x_min + 1 in
    padded_bounding_box img_array binary = (y_min, y_max, x_min, x_max) ∧
    0 <= y_min <= y_max ∧ y_max < Z.of_nat h ∧
    0 <= x_min <= x_max ∧ x_max < Z.of_nat w ∧
    np.shape digit = (digit_h, digit_w) ∧
    has_shape (Z.to_nat digit_h) (Z.to_nat digit_w) digit ∧
    np.count_positive digit = np.count_positive binary ∧
    resized_dimensions f64 digit_h digit_w = Ok (new_h, new_w) ∧
    1 <= new_h <= 20 ∧ 1 <= new_w <= 20.
Proof.
  intros Hf64 Hshape Hbin Hne.
  destruct (where_positive_bounds h w binary Hbin Hne) as (Hy0 & Hy1 & Hx0 & Hx1).
  pose proof (where_positive_extremes binary) as Hext. cbn zeta in Hext.
  unfold digit_region, padded_bounding_box. rewrite Hshape.
  set (coords := np.where_positive binary) in *.
  set (y_lo := np.minimum coords.*1) in *. set (y_hi := np.maximum coords.*1) in *.
  set (x_lo := np.minimum coords.*2) in *. set (x_hi := np.maximum coords.*2) in *.
  assert (y_lo <= y_hi ∧ x_lo <= x_hi) as [Hy Hx].
  { subst y_lo y_hi x_lo x_hi. split; apply minimum_le_maximum; by destruct coords. }
  clearbody y_lo y_hi x_lo x_hi. cbn zeta.
  set (y_min := Z.max 0 (y_lo - 2)). set (y_max := Z.min (Z.of_nat h - 1) (y_hi + 2)).
  set (x_min := Z.max 0 (x_lo - 2)). set (x_max := Z.min (Z.of_nat w - 1) (x_hi + 2)).
  assert (0 <= y_min <= y_max ∧ y_max < Z.of_nat h) as [Hym Hyh] by (subst y_min y_max; lia).
  assert (0 <= x_min <= x_max ∧ x_max < Z.of_nat w) as [Hxm Hxw] by (subst x_min x_max; lia).
  assert (has_shape (Z.to_nat (y_max - y_min + 1)) (Z.to_nat (x_max - x_min + 1))
            (np.slice2 y_min (y_max + 1) x_min (x_max + 1) binary)) as Hdigit.
  { replace (y_max - y_min + 1) with (y_max + 1 - y_min) by lia.
    replace (x_max - x_min + 1) with (x_max + 1 - x_min) by lia.
    apply (has_shape_slice2 h w); [exact Hbin|lia..]. }
  assert (∃ new_h new_w,
            resized_dimensions f64 (y_max - y_min + 1) (x_max - x_min + 1)
              = Ok (new_h, new_w) ∧ 1 <= new_h <= 20 ∧ 1 <= new_w <= 20)
    as (new_h & new_w & Hdims & Hnh & Hnw).
  { destruct (decide (x_max - x_min + 1 < y_max - y_min + 1)) as [Htall|Hwide].
    - destruct (resized_dimensions_tall f64 Hf64 (y_max - y_min + 1) (x_max - x_min + 1)
                  ltac:(lia) Htall) as (new_w & -> & ?).
      exists 20, new_w. split; [reflexivity|lia].
    - destruct (resized_dimensions_wide f64 Hf64 (y_max - y_min + 1) (x_max - x_min + 1)
                  ltac:(lia) ltac:(lia)) as (new_h & -> & ?).
      exists new_h, 20. split; [reflexivity|lia]. }
  exists y_min, y_max, x_min, x_max, new_h, new_w.
  split; [reflexivity|]. do 4 (split; [assumption|]).
  split; [|split; [exact Hdigit|split; [|split; [exact Hdims|split; assumption]]]].
  - rewrite (has_shape_shape _ _ _ Hdigit) by lia. f_equal; lia.
  - apply count_positive_slice2; [lia..|]. intros i j row v Hrow Hv Hpos.
    destruct (Hext i j row v Hrow Hv Hpos) as [Hi Hj].
    pose proof Hbin as [Hlen Hrows]. rewrite Forall_lookup in Hrows.
    specialize (Hrows _ _ Hrow). cbn beta in Hrows.
    apply lookup_lt_Some in Hrow, Hv. subst y_min y_max x_min x_max. lia.
Qed.

Lemma region_holds_the_digit_witness :
  IEEE_rounding Reference.exact ∧
  np.shape dot_image = (10, 10) ∧
  has_shape 10 10 dot_image ∧
  np.where_positive dot_image ≠ [] ∧
  padded_bounding_box dot_image dot_image = (2, 7, 2, 7) ∧
  np.shape (digit_region dot_image dot_image) = (6, 6) ∧
  np.count_positive (digit_region dot_image dot_image) = 4 ∧
  resized_dimensions Reference.exact 6 6 = Ok (20, 20).
Proof.
  assert (np.shape dot_image = (10, 10)) as Hshape by reflexivity.
  assert (has_shape 10 10 dot_image) as Hmask.
  { split; [reflexivity|]. repeat (apply Forall_cons; split; [reflexivity|]).
    apply Forall_nil_2. }
  assert (np.where_positive dot_image ≠ []) as Hne by (vm_compute; discriminate).
  destruct (region_holds_the_digit Reference.exact dot_image dot_image 10 10
              exact_is_rounding Hshape Hmask Hne)
    as (y_min & y_max & x_min & x_max & new_h & new_w
        & Hbox & _ & _ & _ & _ & Hdigit & _ & Hcount & Hdims & _ & _).
  assert (padded_bounding_box dot_image dot_image = (2, 7, 2, 7)) as Hbox'
    by (vm_compute; reflexivity).
  rewrite Hbox' in Hbox. injection Hbox as <- <- <- <-.
  split_and!; [exact exact_is_rounding|exact Hshape|exact Hmask|exact Hne|exact Hbox'
              |exact Hdigit|rewrite Hcount; reflexivity|].
  vm_compute. reflexivity.
Defined.

(** ** The library calls of a run *)



Lemma sublist_call {A} (name : string) (r : result A) : sublist (log (call name r)) [name].
Proof. done. Qed.


Section Calls.

Variable cv : cv2_api.
Variables f32 f64 : Q → Q.






End Calls.

